(** * tindex: postings iterators, label dictionary and postings store

    A shallow embedding of the Go package [tindex] (files [bolt.go],
    [postings.go] and the iterator file) together with the properties of
    its specification.  Go values are modelled as follows:

    - [uint64] as [N]; arithmetic that can wrap is reduced modulo [2^64];
    - [[]byte] as [list byte], [string] as [String.string];
    - [error] as [option error] ([None] is the [nil] error);
    - methods with pointer receivers as functions returning the updated
      receiver next to their results;
    - a run-time panic and the exhaustion of the recursion budget of a
      loop as the two abnormal results of the [outcome] monad. *)

From Stdlib Require Import NArith ZArith Lia List.
From Stdlib.Strings Require Import String Ascii Byte.
From stdpp Require Import base option list sorting numbers strings gmap.

Local Open Scope N_scope.

(* ===================================================================== *)
(** * Part I: definitions                                                  *)
(* ===================================================================== *)

(** ** Go run-time: errors, panics, loops *)

Inductive error : Type :=
| EOF                 (* io.EOF *)
| errNotFound
| errOutOfOrder
| errPageFull
| errOther (msg : string).

Definition is_EOF (e : error) : bool :=
  match e with EOF => true | _ => false end.

Definition is_errPageFull (e : error) : bool :=
  match e with errPageFull => true | _ => false end.

Inductive outcome (A : Type) : Type :=
| Ret (a : A)
| Panic
| OutOfFuel.
Arguments Ret {A} a.
Arguments Panic {A}.
Arguments OutOfFuel {A}.

Definition outcome_bind {A B : Type} (f : A → outcome B) (m : outcome A) : outcome B :=
  match m with
  | Ret a => f a
  | Panic => Panic
  | OutOfFuel => OutOfFuel
  end.

#[global] Instance outcome_mret : MRet outcome := @Ret.
#[global] Instance outcome_mbind : MBind outcome := @outcome_bind.

(** A computation indexed by its recursion budget returns [a] when every
    large enough budget gives [Ret a]. *)
Definition returns {A : Type} (c : nat → outcome A) (a : A) : Prop :=
  ∃ n : nat, ∀ m : nat, (n ≤ m)%nat → c m = Ret a.

(** [l[i]] on a slice: panics out of range. *)
Definition index {A : Type} (l : list A) (i : nat) : outcome A :=
  match l !! i with
  | Some x => Ret x
  | None => Panic
  end.

(** ** Package [sort] *)

Module sort.

(** [sort.Search(n, f)]: binary search for the least [i] in [0, n] with
    [f i]; the closure may panic. *)
Fixpoint Search_loop (fuel : nat) (f : nat → outcome bool) (i j : nat) : outcome nat :=
  if (i <? j)%nat then
    match fuel with
    | O => OutOfFuel
    | S fuel' =>
        let h := ((i + j) / 2)%nat in
        b ← f h;
        if negb b then Search_loop fuel' f (h + 1)%nat j
        else Search_loop fuel' f i h
    end
  else Ret i.

Definition Search (n : nat) (f : nat → outcome bool) : outcome nat :=
  Search_loop n f 0%nat n.

(** [sort.Sort] on a [list] of [uint64] ([Less] is [<]). *)
Definition Sort (l : list N) : list N := merge_sort N.le l.

End sort.

(** ** The iterator file *)

(** A pair [(uint64, error)] as returned by [Next] and [Seek]. *)
Definition result : Type := N * option error.

(** The [Iterator] interface with the implementations of this file as a
    tagged union; [nilIterator] is the [nil] interface value. *)
Inductive Iterator : Type :=
| nilIterator
| plainListIterator (list : list N) (pos : nat)
| mergeIterator (i1 i2 : Iterator) (v1 v2 : N) (e1 e2 : option error)
| intersectIterator (i1 i2 : Iterator) (v1 v2 : N) (e1 e2 : option error).

Definition plainListIterator_Next (l : list N) (pos : nat) : outcome (Iterator * result) :=
  if (length l <=? pos)%nat then Ret (plainListIterator l pos, (0, Some EOF))
  else
    x ← index l pos;
    Ret (plainListIterator l (pos + 1)%nat, (x, None)).

Definition plainListIterator_Seek (l : list N) (id : N) : outcome (Iterator * result) :=
  pos ← sort.Search (length l) (λ i, x ← index l i; Ret (id <=? x));
  plainListIterator_Next l pos.

Fixpoint Next (fuel : nat) (it : Iterator) {struct fuel} : outcome (Iterator * result) :=
  match it with
  | nilIterator => Panic
  | plainListIterator l pos => plainListIterator_Next l pos
  | mergeIterator i1 i2 v1 v2 e1 e2 =>
      match fuel with
      | O => OutOfFuel
      | S fuel' =>
          match e1, e2 with
          | Some EOF, Some EOF => Ret (it, (0, Some EOF))
          | Some e, _ =>
              if negb (is_EOF e) then Ret (it, (0, Some e))
              else
                '(i2', (v2', e2')) ← Next fuel' i2;
                Ret (mergeIterator i1 i2' v1 v2' e1 e2', (v2, None))
          | None, Some e =>
              if negb (is_EOF e) then Ret (it, (0, Some e))
              else
                '(i1', (v1', e1')) ← Next fuel' i1;
                Ret (mergeIterator i1' i2 v1' v2 e1' e2, (v1, None))
          | None, None =>
              if v1 <? v2 then
                '(i1', (v1', e1')) ← Next fuel' i1;
                Ret (mergeIterator i1' i2 v1' v2 e1' e2, (v1, None))
              else if v2 <? v1 then
                '(i2', (v2', e2')) ← Next fuel' i2;
                Ret (mergeIterator i1 i2' v1 v2' e1 e2', (v2, None))
              else
                '(i1', (v1', e1')) ← Next fuel' i1;
                '(i2', (v2', e2')) ← Next fuel' i2;
                Ret (mergeIterator i1' i2' v1' v2' e1' e2', (v1, None))
          end
      end
  | intersectIterator i1 i2 v1 v2 e1 e2 =>
      match fuel with
      | O => OutOfFuel
      | S fuel' =>
          match e1, e2 with
          | Some e, _ => Ret (it, (0, Some e))
          | None, Some e => Ret (it, (0, Some e))
          | None, None =>
              if v1 <? v2 then
                '(i1', (v1', e1')) ← Seek fuel' i1 v2;
                Next fuel' (intersectIterator i1' i2 v1' v2 e1' e2)
              else if v2 <? v1 then
                '(i2', (v2', e2')) ← Seek fuel' i2 v1;
                Next fuel' (intersectIterator i1 i2' v1 v2' e1 e2')
              else
                '(i1', (v1', e1')) ← Next fuel' i1;
                '(i2', (v2', e2')) ← Next fuel' i2;
                Ret (intersectIterator i1' i2' v1' v2' e1' e2', (v1, None))
          end
      end
  end
with Seek (fuel : nat) (it : Iterator) (id : N) {struct fuel} : outcome (Iterator * result) :=
  match it with
  | nilIterator => Panic
  | plainListIterator l _ => plainListIterator_Seek l id
  | mergeIterator i1 i2 _ _ _ _ =>
      match fuel with
      | O => OutOfFuel
      | S fuel' =>
          '(i1', (v1', e1')) ← Seek fuel' i1 id;
          '(i2', (v2', e2')) ← Seek fuel' i2 id;
          Next fuel' (mergeIterator i1' i2' v1' v2' e1' e2')
      end
  | intersectIterator i1 i2 _ _ _ _ =>
      match fuel with
      | O => OutOfFuel
      | S fuel' =>
          '(i1', (v1', e1')) ← Seek fuel' i1 id;
          '(i2', (v2', e2')) ← Seek fuel' i2 id;
          Next fuel' (intersectIterator i1' i2' v1' v2' e1' e2')
      end
  end.

(** [Close]: the first child's error, else the second child's. *)
Fixpoint Close (it : Iterator) : outcome (option error) :=
  match it with
  | nilIterator => Panic
  | plainListIterator _ _ => Ret None
  | mergeIterator i1 i2 _ _ _ _
  | intersectIterator i1 i2 _ _ _ _ =>
      err ← Close i1;
      match err with
      | Some e => Ret (Some e)
      | None => Close i2
      end
  end.

Definition newPlainListIterator (l : list N) : Iterator :=
  plainListIterator (sort.Sort l) 0.

(** [Merge(its...)] and [Intersect(its...)]: a left-leaning tree of binary
    nodes over [its], [nil] for no argument. *)
Definition Merge (its : list Iterator) : Iterator :=
  match its with
  | [] => nilIterator
  | i1 :: rest => foldl (λ i1 i2, mergeIterator i1 i2 0 0 None None) i1 rest
  end.

Definition Intersect (its : list Iterator) : Iterator :=
  match its with
  | [] => nilIterator
  | i1 :: rest => foldl (λ i1 i2, intersectIterator i1 i2 0 0 None None) i1 rest
  end.

(** The loop of [ExpandIterator], entered with the result of the last call. *)
Fixpoint ExpandIterator_loop (fuel : nat) (it : Iterator) (res : list N) (r : result)
  : outcome (list N * option error) :=
  match r with
  | (_, Some e) => Ret (res, if is_EOF e then None else Some e)
  | (v, None) =>
      match fuel with
      | O => OutOfFuel
      | S fuel' =>
          '(it', r') ← Next fuel' it;
          ExpandIterator_loop fuel' it' (res ++ [v]) r'
      end
  end.

Definition ExpandIterator (fuel : nat) (it : Iterator) : outcome (list N * option error) :=
  '(it', r) ← Seek fuel it 0;
  ExpandIterator_loop fuel it' [] r.

(** [plainSkiplistIterator]: the skiplist interface on an in-memory map. *)
Record plainSkiplistIterator : Type := mkPlainSkiplistIterator {
  psi_m : gmap N N;
  psi_keys : list N;
  psi_pos : nat
}.

Definition newPlainSkiplistIterator (m : gmap N N) : plainSkiplistIterator :=
  {| psi_m := m; psi_keys := sort.Sort (map_to_list m).*1; psi_pos := 0 |}.

(** A triple [(val, ptr, err)]. *)
Definition skipresult : Type := N * N * option error.

Definition plainSkiplistIterator_next (it : plainSkiplistIterator)
  : outcome (plainSkiplistIterator * skipresult) :=
  if (length (psi_keys it) <=? psi_pos it)%nat then Ret (it, (0, 0, Some EOF))
  else
    k ← index (psi_keys it) (psi_pos it);
    Ret ({| psi_m := psi_m it; psi_keys := psi_keys it; psi_pos := (psi_pos it + 1)%nat |},
         (k, default 0 (psi_m it !! k), None)).

Definition plainSkiplistIterator_seek (it : plainSkiplistIterator) (id : N)
  : outcome (plainSkiplistIterator * skipresult) :=
  pos ← sort.Search (length (psi_keys it)) (λ i, x ← index (psi_keys it) i; Ret (id <=? x));
  pos' ← (if (0 <? pos)%nat then
            k ← index (psi_keys it) pos;
            Ret (if id <? k then (pos - 1)%nat else pos)
          else Ret pos);
  plainSkiplistIterator_next
    {| psi_m := psi_m it; psi_keys := psi_keys it; psi_pos := pos' |}.

(** ** Specification predicates for iterators *)

(** The result announcing the head of [l]: its first element, or [io.EOF]
    when [l] is exhausted. *)
Definition hd_result (l : list N) (r : result) : Prop :=
  match l with
  | [] => r.2 = Some EOF
  | x :: _ => r = (x, None)
  end.

(** [V] and [R] describe the states of an iterator over the strictly
    ascending sequence [L]: [V it] holds of every state, [R it rest] of a
    state whose following calls to [Next] produce [rest] and then [io.EOF].
    [Seek id] moves to the first ID not below [id]. *)
Record AscendingSpec (V : Iterator → Prop) (R : Iterator → list N → Prop)
    (L : list N) : Prop := {
  asc_sorted : StronglySorted N.lt L;
  asc_valid : ∀ it rest, R it rest → V it;
  asc_Seek : ∀ it id, V it →
    ∃ it' r, returns (λ n, Seek n it id) (it', r)
             ∧ hd_result (filter (N.le id) L) r
             ∧ R it' (tail (filter (N.le id) L));
  asc_Next : ∀ it rest, R it rest →
    ∃ it' r, returns (λ n, Next n it) (it', r)
             ∧ hd_result rest r
             ∧ R it' (tail rest)
}.





Section node_states.
Variables (V1 V2 : Iterator → Prop) (R1 R2 : Iterator → list N → Prop).
Variables (L1 L2 : list N).




End node_states.

Definition V_plain (L : list N) (it : Iterator) : Prop :=
  ∃ pos, it = plainListIterator L pos.

Definition R_plain (L : list N) (it : Iterator) (rest : list N) : Prop :=
  ∃ pos, it = plainListIterator L pos ∧ rest = drop pos L.

(** ** Bytes and encodings *)

Definition byte_of_N (n : N) : byte := default x00 (Byte.of_N (n mod 256)).

#[global] Instance byte_eq_dec : EqDecision byte := Byte.byte_eq_dec.

#[global] Instance byte_countable : Countable byte.
Proof.
  refine (inj_countable' Byte.to_N byte_of_N _).
  intros b. unfold byte_of_N.
  rewrite N.mod_small by (pose proof (Byte.to_N_bounded b); lia).
  by rewrite Byte.of_to_N.
Defined.

(** Big-endian bytes of the [n] low-order bytes of [x]. *)
Fixpoint be_bytes (n : nat) (x : N) : list byte :=
  match n with
  | O => []
  | S n' => byte_of_N (x / 256 ^ N.of_nat n') :: be_bytes n' x
  end.

(** Big-endian value of a byte string. *)
Definition be_value (bs : list byte) : N :=
  foldl (λ acc b, acc * 256 + Byte.to_N b) 0 bs.

(** Modelled from the spec: the helper [encodeUint64] is not part of the
    given sources; section 6 fixes it as the 8-byte big-endian encoding
    of a [uint64]. *)
Definition encodeUint64 (x : N) : list byte := be_bytes 8 x.

(** Modelled from the spec: the helper [decodeUint64], absent from the
    given sources, inverts [encodeUint64]; reading a [uint64] from fewer
    than 8 bytes panics. *)
Definition decodeUint64 (bs : list byte) : outcome N :=
  if (length bs <? 8)%nat then Panic else Ret (be_value (take 8 bs)).

Module binary.

(** [binary.MaxVarintLen64]. *)
Definition MaxVarintLen64 : nat := 10.

(** [binary.PutUvarint]: the bytes written for [x]. *)
Fixpoint PutUvarint_loop (fuel : nat) (x : N) : list byte :=
  match fuel with
  | O => [byte_of_N x]
  | S fuel' =>
      if 128 <=? x
      then byte_of_N (N.lor (N.land x 255) 128) :: PutUvarint_loop fuel' (N.shiftr x 7)
      else [byte_of_N x]
  end.

Definition PutUvarint (x : N) : list byte := PutUvarint_loop MaxVarintLen64 x.

(** [binary.Uvarint]: the value read and the number of bytes read; the
    count is [0] on a short buffer and negative on overflow. *)
Fixpoint Uvarint_loop (buf : list byte) (i : nat) (x s : N) : N * Z :=
  match buf with
  | [] => (0, 0%Z)
  | b :: buf' =>
      if (i =? MaxVarintLen64)%nat then (0, (- (Z.of_nat i + 1))%Z)
      else if Byte.to_N b <? 128 then
        if ((i =? MaxVarintLen64 - 1)%nat && (1 <? Byte.to_N b))%bool
        then (0, (- (Z.of_nat i + 1))%Z)
        else (N.lor x (N.shiftl (Byte.to_N b) s) mod 2 ^ 64, (Z.of_nat i + 1)%Z)
      else
        Uvarint_loop buf' (S i)
          (N.lor x (N.shiftl (N.land (Byte.to_N b) 127) s) mod 2 ^ 64) (s + 7)
  end.

Definition Uvarint (buf : list byte) : N * Z := Uvarint_loop buf 0 0 0.

End binary.

(** [copy(dst[lo:hi], src)] on the slice [dst]: the bytes of [src] that fit
    overwrite [dst] from [lo] on. *)
Definition copy_into (dst : list byte) (lo hi : nat) (src : list byte) : list byte :=
  let n := (length src `min` (hi `min` length dst - lo))%nat in
  take lo dst ++ take n src ++ drop (lo + n) dst.

(** [bytes.Split(s, []byte{sep})]. *)
Fixpoint bytes_Split_go (s : list byte) (sep : byte) (cur : list byte) : list (list byte) :=
  match s with
  | [] => [reverse cur]
  | b :: s' =>
      if decide (b = sep) then reverse cur :: bytes_Split_go s' sep []
      else bytes_Split_go s' sep (b :: cur)
  end.

Definition bytes_Split (s : list byte) (sep : byte) : list (list byte) :=
  bytes_Split_go s sep [].

(** [bytes.Compare]: the lexicographic order of byte strings, the order
    in which a bucket keeps its keys. *)
Fixpoint bytes_compare (a b : list byte) : comparison :=
  match a, b with
  | [], [] => Eq
  | [], _ :: _ => Lt
  | _ :: _, [] => Gt
  | x :: a', y :: b' =>
      match Byte.to_N x ?= Byte.to_N y with
      | Eq => bytes_compare a' b'
      | c => c
      end
  end.

Definition bytes_le (a b : list byte) : Prop := bytes_compare a b ≠ Gt.

#[global] Instance bytes_le_dec : RelDecision bytes_le.
Proof. intros a b. unfold bytes_le. apply _. Defined.

(** ** Package [bolt]: the key-value store

    The contract of section 6 of the specification: buckets of byte
    strings kept in key order with [Get] and [Put], a cursor with
    [First], [Last], [Seek], [Next] and [Prev], and a sequence per bucket.
    All operations are those of a writable transaction. *)

Module bolt.

Record Bucket : Type := mkBucket {
  kv : gmap (list byte) (list byte);
  sequence : N
}.

Definition empty : Bucket := {| kv := ∅; sequence := 0 |}.

Definition MaxKeySize : N := 32768.

Definition Get (b : Bucket) (key : list byte) : option (list byte) := kv b !! key.

(** [Put] refuses the empty key and keys above [MaxKeySize]. *)
Definition Put (b : Bucket) (key value : list byte) : Bucket * option error :=
  if (length key =? 0)%nat then (b, Some (errOther "key required"))
  else if MaxKeySize <? N.of_nat (length key) then (b, Some (errOther "key too large"))
  else ({| kv := <[key := value]> (kv b); sequence := sequence b |}, None).

Definition NextSequence (b : Bucket) : Bucket * N * option error :=
  let s := (sequence b + 1) mod 2 ^ 64 in
  ({| kv := kv b; sequence := s |}, s, None).

(** The entries of a bucket in key order. *)
Definition entries (b : Bucket) : list (list byte * list byte) :=
  merge_sort (λ e1 e2, bytes_le e1.1 e2.1) (map_to_list (kv b)).

(** A cursor sits on the key of an entry, or nowhere. *)
Definition Cursor : Type := option (list byte).

Definition at_entry (e : option (list byte * list byte))
  : Cursor * option (list byte * list byte) := (fst <$> e, e).

Definition First (b : Bucket) : Cursor * option (list byte * list byte) :=
  at_entry (head (entries b)).

Definition Last (b : Bucket) : Cursor * option (list byte * list byte) :=
  at_entry (last (entries b)).

(** [Seek]: the first entry whose key is not below [key]. *)
Definition Seek (b : Bucket) (key : list byte) : Cursor * option (list byte * list byte) :=
  at_entry (head (filter (λ e, bytes_le key e.1) (entries b))).

(** [Next]: the first entry above the cursor's key; nothing from nowhere. *)
Definition Next (b : Bucket) (c : Cursor) : Cursor * option (list byte * list byte) :=
  match c with
  | None => (None, None)
  | Some k =>
      at_entry (head (filter (λ e, ¬ bytes_le e.1 k) (entries b)))
  end.

(** [Prev]: the last entry below the cursor's key; stepping before the
    first entry leaves the cursor nowhere. *)
Definition Prev (b : Bucket) (c : Cursor) : Cursor * option (list byte * list byte) :=
  match c with
  | None => (None, None)
  | Some k =>
      at_entry (last (filter (λ e, ¬ bytes_le k e.1) (entries b)))
  end.

End bolt.

(** ** File [bolt.go]: the label and series dictionary *)

(** [boltSeriesTx]: the four buckets of a series transaction. *)
Record boltSeriesTx : Type := mkBoltSeriesTx {
  seriesToID : bolt.Bucket;
  IDToSeries : bolt.Bucket;
  labelToID : bolt.Bucket;
  IDToLabel : bolt.Bucket
}.

Definition emptySeriesTx : boltSeriesTx :=
  {| seriesToID := bolt.empty; IDToSeries := bolt.empty;
     labelToID := bolt.empty; IDToLabel := bolt.empty |}.

(** Modelled from the spec: [seriesKey.bytes] is not part of the given
    sources; section 4.6 defines the canonical series key as the
    concatenation of the big-endian 8-byte label IDs. *)
Definition seriesKey_bytes (skey : list N) : list byte :=
  concat (encodeUint64 <$> skey).

(** Modelled from the spec: the constant [seperator] is not part of the
    given sources; section 4.6 names [0x00] for the byte between key and
    value. *)
Definition seperator_0 : byte := x00.

(** Modelled from the spec: the helper [readUvarint] is not part of the
    given sources; it reads one unsigned varint (LEB128, section 6) from
    the front of the reader and fails when none can be read. *)
Definition readUvarint (r : list byte) : list byte * N * option error :=
  let '(x, n) := binary.Uvarint r in
  if (0 <? n)%Z then (drop (Z.to_nat n) r, x, None)
  else (r, 0, Some (errOther "readUvarint")).

(** The loop of [series] reading the label IDs of a series key. *)
Fixpoint read_ids (fuel : nat) (r : list byte) (ids : list N) : list N * option error :=
  match fuel with
  | O => (ids, None)
  | S fuel' =>
      if (0 <? length r)%nat then
        let '(r', id, err) := readUvarint r in
        match err with
        | Some e => (ids, Some e)
        | None => read_ids fuel' r' (ids ++ [id])
        end
      else (ids, None)
  end.

Section series_store.
(** The parts of the package that the given sources use and do not
    define: the separator byte and the serialization of a series key. *)
Variable seperator : byte.
Variable skey_bytes : list N → list byte.

(** The key under which [ensureLabel] files the label. *)
Definition ensureLabel_key (key val : string) : list byte :=
  let nk := length (list_byte_of_string key) in
  let nv := length (list_byte_of_string val) in
  let k := replicate (nk + nv + 1) x00 in
  let k := copy_into k 0 nk (list_byte_of_string val) in
  let k := <[nk := seperator]> k in
  copy_into k (nk + 1) (length k) (list_byte_of_string val).

Definition ensureLabel (s : boltSeriesTx) (key val : string)
  : boltSeriesTx * N * option error :=
  let k := ensureLabel_key key val in
  match bolt.Get (labelToID s) k with
  | Some v => (s, (binary.Uvarint v).1, None)
  | None =>
      let '(b, id, err) := bolt.NextSequence (IDToLabel s) in
      let s := {| seriesToID := seriesToID s; IDToSeries := IDToSeries s;
                  labelToID := labelToID s; IDToLabel := b |} in
      match err with
      | Some e => (s, 0, Some e)
      | None =>
          let buf := binary.PutUvarint id in
          let '(b, err) := bolt.Put (labelToID s) k buf in
          let s := {| seriesToID := seriesToID s; IDToSeries := IDToSeries s;
                      labelToID := b; IDToLabel := IDToLabel s |} in
          match err with
          | Some e => (s, 0, Some e)
          | None =>
              let '(b, err) := bolt.Put (IDToLabel s) buf k in
              let s := {| seriesToID := seriesToID s; IDToSeries := IDToSeries s;
                          labelToID := labelToID s; IDToLabel := b |} in
              match err with
              | Some e => (s, 0, Some e)
              | None => (s, id, None)
              end
          end
      end
  end.

(** [label]: the pair filed under [id]; indexing the second part of the
    split panics when the stored bytes hold no separator. *)
Definition label (s : boltSeriesTx) (id : N) : outcome (string * string * option error) :=
  let buf := binary.PutUvarint id in
  match bolt.Get (IDToLabel s) buf with
  | None => Ret (""%string, ""%string, Some (errOther "label for ID not found"))
  | Some lbl =>
      let p := bytes_Split lbl seperator in
      p0 ← index p 0;
      p1 ← index p 1;
      Ret (string_of_list_byte p0, string_of_list_byte p1, None)
  end.

(** The loop of [ensureSeries] over the entries of [desc], in the order
    in which [range] visits them. *)
Fixpoint ensureLabels (s : boltSeriesTx) (desc : list (string * string)) (skey : list N)
  : boltSeriesTx * list N * option error :=
  match desc with
  | [] => (s, skey, None)
  | (k, v) :: desc' =>
      let '(s, key, err) := ensureLabel s k v in
      match err with
      | Some e => (s, skey, Some e)
      | None => ensureLabels s desc' (skey ++ [key])
      end
  end.

(** [ensureSeries]: the series ID, the series key and the error. *)
Definition ensureSeries (s : boltSeriesTx) (desc : list (string * string))
  : boltSeriesTx * (N * list N * option error) :=
  let '(s, skey, err) := ensureLabels s desc [] in
  match err with
  | Some e => (s, (0, [], Some e))
  | None =>
      let skey := sort.Sort skey in
      match bolt.Get (IDToSeries s) (skey_bytes skey) with
      | Some sidb => (s, ((binary.Uvarint sidb).1, skey, None))
      | None =>
          let '(b, sid, err) := bolt.NextSequence (IDToSeries s) in
          let s := {| seriesToID := seriesToID s; IDToSeries := b;
                      labelToID := labelToID s; IDToLabel := IDToLabel s |} in
          match err with
          | Some e => (s, (0, [], Some e))
          | None =>
              let buf := binary.PutUvarint sid in
              let '(b, err) := bolt.Put (IDToSeries s) buf (skey_bytes skey) in
              let s := {| seriesToID := seriesToID s; IDToSeries := b;
                          labelToID := labelToID s; IDToLabel := IDToLabel s |} in
              match err with
              | Some e => (s, (0, [], Some e))
              | None => (s, (sid, skey, None))
              end
          end
      end
  end.

(** The loop of [series] resolving label IDs into the result map. *)
Fixpoint series_labels (s : boltSeriesTx) (ids : list N) (m : gmap string string)
  : outcome (gmap string string * option error) :=
  match ids with
  | [] => Ret (m, None)
  | id :: ids' =>
      '(k, v, err) ← label s id;
      match err with
      | Some e => Ret (∅, Some e)
      | None => series_labels s ids' (<[k := v]> m)
      end
  end.

(** [series]: the label set filed under the series ID [sid]. *)
Definition series (s : boltSeriesTx) (sid : N) : outcome (gmap string string * option error) :=
  let buf := binary.PutUvarint sid in
  match bolt.Get (IDToSeries s) buf with
  | None => Ret (∅, Some errNotFound)
  | Some ser =>
      let '(ids, err) := read_ids (length ser) ser [] in
      match err with
      | Some e => Ret (∅, Some e)
      | None => series_labels s ids ∅
      end
  end.
End series_store.

(** The series store after [ensureSeries] of the label set [{a: 1}] on
    the empty store, for a separator and a serialization of series keys. *)
Definition seriesTx_a1 (seperator : byte) (skey_bytes : list N → list byte)
  : boltSeriesTx :=
  {| seriesToID := bolt.empty;
     IDToSeries := {| bolt.kv := {[ ["001"%byte] := skey_bytes [1] ]};
                      bolt.sequence := 1 |};
     labelToID := {| bolt.kv := {[ ["1"%byte; seperator; "1"%byte] := ["001"%byte] ]};
                     bolt.sequence := 0 |};
     IDToLabel := {| bolt.kv := {[ ["001"%byte] := ["1"%byte; seperator; "1"%byte] ]};
                     bolt.sequence := 1 |} |}.

(** ** The skiplist cursor on a bucket *)

(** [boltSkiplistCursor]: the key [k], the cursor [c] and its bucket. *)
Record boltSkiplistCursor : Type := mkBoltSkiplistCursor {
  sl_k : N;
  sl_c : bolt.Cursor;
  sl_bkt : bolt.Bucket
}.

Definition with_cursor (s : boltSkiplistCursor) (c : bolt.Cursor) : boltSkiplistCursor :=
  {| sl_k := sl_k s; sl_c := c; sl_bkt := sl_bkt s |}.

(** File [postings.go]. *)
Module postings_go.

Definition next (s : boltSkiplistCursor) : outcome (boltSkiplistCursor * skipresult) :=
  let '(c, e) := bolt.Next (sl_bkt s) (sl_c s) in
  match e with
  | None => Ret (with_cursor s c, (0, 0, Some EOF))
  | Some (db, pb) =>
      d ← decodeUint64 db;
      p ← decodeUint64 pb;
      Ret (with_cursor s c, (d, p, None))
  end.

Definition seek (s : boltSkiplistCursor) (k : N) : outcome (boltSkiplistCursor * skipresult) :=
  let '(c, e) := bolt.Seek (sl_bkt s) (encodeUint64 k) in
  let '(c, e) := match e with
                 | None => bolt.Last (sl_bkt s)
                 | Some _ => (c, e)
                 end in
  match e with
  | None => Ret (with_cursor s c, (0, 0, Some EOF))
  | Some (db, pb) =>
      did ← decodeUint64 db;
      pid ← decodeUint64 pb;
      if k <? did then
        (* the found entry is behind the sought ID: try the previous one *)
        let '(c', e') := bolt.Prev (sl_bkt s) c in
        match e' with
        | Some (dbp, pbp) =>
            did' ← decodeUint64 dbp;
            pid' ← decodeUint64 pbp;
            Ret (with_cursor s c', (did', pid', None))
        | None =>
            let '(c'', _) := bolt.First (sl_bkt s) in
            Ret (with_cursor s c'', (did, pid, None))
        end
      else Ret (with_cursor s c, (did, pid, None))
  end.

Definition append (s : boltSkiplistCursor) (d p : N)
  : outcome (boltSkiplistCursor * option error) :=
  let '(c, e) := bolt.Last (sl_bkt s) in
  out_of_order ← match e with
                 | None => Ret false
                 | Some (k, _) => dk ← decodeUint64 k; Ret (d <=? dk)
                 end;
  if out_of_order : bool then Ret (with_cursor s c, Some errOutOfOrder)
  else
    let '(b, err) := bolt.Put (sl_bkt s) (encodeUint64 d) (encodeUint64 p) in
    Ret ({| sl_k := sl_k s; sl_c := c; sl_bkt := b |}, err).

End postings_go.

(** File [bolt.go]: its own [boltSkiplistCursor.append]. *)
Module bolt_go.

Definition append (s : boltSkiplistCursor) (d p : N)
  : outcome (boltSkiplistCursor * option error) :=
  let '(c, e) := bolt.Last (sl_bkt s) in
  out_of_order ← match e with
                 | None => Ret false
                 | Some (k, _) => dk ← decodeUint64 k; Ret (d <=? dk)
                 end;
  if out_of_order : bool then Ret (with_cursor s c, Some errOutOfOrder)
  else
    let '(b, err) := bolt.Put (sl_bkt s) (encodeUint64 p) (encodeUint64 p) in
    Ret ({| sl_k := sl_k s; sl_c := c; sl_bkt := b |}, err).

End bolt_go.

(** A skiplist bucket holds 8-byte encoded keys and values only. *)
Definition skiplist_bucket (b : bolt.Bucket) : Prop :=
  ∀ k v, bolt.kv b !! k = Some v →
    (∃ d, d < 2 ^ 64 ∧ k = encodeUint64 d) ∧ (∃ p, p < 2 ^ 64 ∧ v = encodeUint64 p).

(** ** The page codec

    The page codec ([newPageDelta], [init], [cursor],
    [pageCursor.append], [data]) is not part of the given sources.
    Sections 3 and 4.1 of the specification describe it: a page is a
    byte buffer of fixed size; bytes 0 to 7 hold the first ID,
    big-endian; the bytes after them hold unsigned varints, each the delta from the previous
    ID; the unused tail is zero and a reader stops at the first zero
    delta or at the end of the buffer.  [init] fails on a buffer that
    already encodes IDs; [append] fails with [errOutOfOrder] when the new
    ID is not above the last one and with [errPageFull] when the varint of
    the delta does not fit in the remaining bytes. *)

Module page.

(** Modelled from the spec: the reader of a page (sections 3 and 4.1),
    absent from the given sources.  The IDs read, last first, and the
    offset reached; reading stops at a zero delta and at the end of the
    buffer. *)
Fixpoint scan (fuel : nat) (data : list byte) (off : nat) (ids : list N)
  : list N * nat :=
  match fuel with
  | O => (ids, off)
  | S fuel' =>
      if (length data <=? off)%nat then (ids, off)
      else
        let '(delta, n) := binary.Uvarint (drop off data) in
        if ((n <=? 0)%Z || (delta =? 0))%bool then (ids, off)
        else scan fuel' data (off + Z.to_nat n)%nat
               ((hd 0 ids + delta) mod 2 ^ 64 :: ids)
  end.

(** Modelled from the spec: the IDs of a page (section 3), last first,
    and the write offset; a page that is zero throughout holds no ID. *)
Definition read (data : list byte) : list N * nat :=
  if forallb (λ b, Byte.to_N b =? 0) data then ([], 0%nat)
  else scan (length data) data 8 [be_value (take 8 data)].

(** Modelled from the spec: the IDs that a cursor over the page yields,
    in ascending order (section 3). *)
Definition ids (data : list byte) : list N := reverse (read data).1.

(** Modelled from the spec: [init] (section 4.1), absent from the given
    sources, writes the first ID into a buffer that encodes no ID yet. *)
Definition init (data : list byte) (id : N) : list byte * option error :=
  if forallb (λ b, Byte.to_N b =? 0) data
  then (copy_into data 0 8 (encodeUint64 id), None)
  else (data, Some (errOther "page already initialized")).

(** Modelled from the spec: [cursor().append] (section 4.1), absent from
    the given sources, writes the varint of the delta after the last ID;
    [errOutOfOrder] for an ID not above the last one, [errPageFull] when
    the varint does not fit. *)
Definition append (data : list byte) (id : N) : list byte * option error :=
  let '(seen, off) := read data in
  match seen with
  | [] => (data, Some (errOther "page not initialized"))
  | last :: _ =>
      if id <=? last then (data, Some errOutOfOrder)
      else
        let buf := binary.PutUvarint (id - last) in
        if (length data <? off + length buf)%nat then (data, Some errPageFull)
        else (copy_into data off (length data) buf, None)
  end.

End page.

(** ** Package [pagebuf]: the paged blob store

    The contract of section 6 of the specification: [Add] files a page
    under a new page ID, [Get] returns the page of an ID and [Set]
    replaces it.  Page IDs start at 1. *)

Module pagebuf.

Record Tx : Type := mkTx {
  pages : gmap N (list byte);
  last_id : N
}.

Definition empty : Tx := {| pages := ∅; last_id := 0 |}.

Definition Add (tx : Tx) (data : list byte) : Tx * N * option error :=
  let id := (last_id tx + 1) mod 2 ^ 64 in
  ({| pages := <[id := data]> (pages tx); last_id := id |}, id, None).

Definition Get (tx : Tx) (id : N) : option (list byte) * option error :=
  match pages tx !! id with
  | Some data => (Some data, None)
  | None => (None, Some errNotFound)
  end.

Definition Set_ (tx : Tx) (id : N) (data : list byte) : Tx * option error :=
  match pages tx !! id with
  | Some _ => ({| pages := <[id := data]> (pages tx); last_id := last_id tx |}, None)
  | None => (tx, Some errNotFound)
  end.

End pagebuf.

(** ** File [postings.go]: the postings store *)

(** [math.MaxUint64]. *)
Definition MaxUint64 : N := 2 ^ 64 - 1.

(** The skiplist bucket of a [bolt] transaction: a bucket per postings
    key. *)
Definition skiplists : Type := gmap (list byte) bolt.Bucket.

(** [CreateBucketIfNotExists]. *)
Definition CreateBucketIfNotExists (sls : skiplists) (key : list byte)
  : skiplists * bolt.Bucket :=
  match sls !! key with
  | Some b => (sls, b)
  | None => (<[key := bolt.empty]> sls, bolt.empty)
  end.

(** The variables of [postingsAppend] that its loop updates: the page
    being appended to, its ID (0 for a page not yet added), the last ID
    seen, the skiplist cursor and the page transaction. *)
Record appendState : Type := mkAppendState {
  as_pg : list byte;
  as_pid : N;
  as_lastID : N;
  as_sl : boltSkiplistCursor;
  as_pbtx : pagebuf.Tx
}.

Section postings.
(** The length of a page's data, [pageSize - pagebuf.PageHeaderSize];
    neither constant is part of the given sources. *)
Variable pageDataSize : nat.

Definition createPage (id : N) : list byte * option error :=
  page.init (replicate pageDataSize x00) id.

(** Storing the page away: a new page is added and gets the skiplist
    entry [(d, pid)], an old one is overwritten. *)
Definition store_page (st : appendState) (d : N) : outcome (appendState * option error) :=
  if as_pid st =? 0 then
    let '(pbtx, pid, err) := pagebuf.Add (as_pbtx st) (as_pg st) in
    let st := {| as_pg := as_pg st; as_pid := pid; as_lastID := as_lastID st;
                 as_sl := as_sl st; as_pbtx := pbtx |} in
    match err with
    | Some e => Ret (st, Some e)
    | None =>
        '(sl, err) ← postings_go.append (as_sl st) d pid;
        Ret ({| as_pg := as_pg st; as_pid := pid; as_lastID := as_lastID st;
                as_sl := sl; as_pbtx := as_pbtx st |}, err)
    end
  else
    let '(pbtx, err) := pagebuf.Set_ (as_pbtx st) (as_pid st) (as_pg st) in
    Ret ({| as_pg := as_pg st; as_pid := as_pid st; as_lastID := as_lastID st;
            as_sl := as_sl st; as_pbtx := pbtx |}, err).

(** The loop of [postingsAppend] over the IDs. *)
Fixpoint postingsAppend_loop (st : appendState) (ids : list N)
  : outcome (appendState * option error) :=
  match ids with
  | [] => Ret (st, None)
  | id :: ids' =>
      let st := {| as_pg := as_pg st; as_pid := as_pid st; as_lastID := id;
                   as_sl := as_sl st; as_pbtx := as_pbtx st |} in
      let '(pg, err) := page.append (as_pg st) id in
      match err with
      | None =>
          postingsAppend_loop
            {| as_pg := pg; as_pid := as_pid st; as_lastID := as_lastID st;
               as_sl := as_sl st; as_pbtx := as_pbtx st |} ids'
      | Some e =>
          if is_errPageFull e then
            (* store away the old page ... *)
            '(st, err) ← store_page st id;
            match err with
            | Some e => Ret (st, Some e)
            | None =>
                (* ... and allocate a new page *)
                let '(pg, err) := createPage id in
                let st := {| as_pg := as_pg st; as_pid := 0; as_lastID := as_lastID st;
                             as_sl := as_sl st; as_pbtx := as_pbtx st |} in
                match err with
                | Some e => Ret (st, Some e)
                | None =>
                    postingsAppend_loop
                      {| as_pg := pg; as_pid := 0; as_lastID := as_lastID st;
                         as_sl := as_sl st; as_pbtx := as_pbtx st |} ids'
                end
            end
          else Ret (st, Some e)
      end
  end.

(** [postingsAppend]: the skiplists, the page transaction and the
    error. *)
Definition postingsAppend (sls : skiplists) (pbtx : pagebuf.Tx) (key : N) (ids : list N)
  : outcome (skiplists * pagebuf.Tx * option error) :=
  match ids with
  | [] => Ret (sls, pbtx, None)
  | id0 :: ids' =>
      let '(sls, b) := CreateBucketIfNotExists sls (encodeUint64 key) in
      let sl := {| sl_k := key; sl_c := None; sl_bkt := b |} in
      '(sl, (_, pid, err)) ← postings_go.seek sl MaxUint64;
      let finish (r : outcome (appendState * option error))
        : outcome (skiplists * pagebuf.Tx * option error) :=
        '(st, err) ← r;
        match err with
        | Some e => Ret (<[encodeUint64 key := sl_bkt (as_sl st)]> sls, as_pbtx st, Some e)
        | None =>
            (* save the last page written to *)
            '(st, err) ← store_page st (as_lastID st);
            Ret (<[encodeUint64 key := sl_bkt (as_sl st)]> sls, as_pbtx st, err)
        end in
      match err with
      | Some e =>
          if is_EOF e then
            (* the postings list is new *)
            let '(pg, err) := createPage id0 in
            match err with
            | Some e => Ret (<[encodeUint64 key := sl_bkt sl]> sls, pbtx, Some e)
            | None =>
                finish (postingsAppend_loop
                          {| as_pg := pg; as_pid := pid; as_lastID := 0;
                             as_sl := sl; as_pbtx := pbtx |} ids')
            end
          else Ret (<[encodeUint64 key := sl_bkt sl]> sls, pbtx, Some e)
      | None =>
          (* load the most recent page *)
          let '(pdata, err) := pagebuf.Get pbtx pid in
          match pdata with
          | None => Ret (<[encodeUint64 key := sl_bkt sl]> sls, pbtx,
                         Some (errOther "error getting page for ID"))
          | Some pdata =>
              finish (postingsAppend_loop
                        {| as_pg := pdata; as_pid := pid; as_lastID := 0;
                           as_sl := sl; as_pbtx := pbtx |} ids)
          end
      end
  end.

(** The loop of [Append] over the batches, in the order in which
    [range] visits them. *)
Fixpoint apply_batches (sls : skiplists) (pbtx : pagebuf.Tx)
    (batches : list (N * list N))
  : outcome (skiplists * pagebuf.Tx * option error) :=
  match batches with
  | [] => Ret (sls, pbtx, None)
  | (k, ids) :: batches' =>
      '(sls, pbtx, err) ← postingsAppend sls pbtx k ids;
      match err with
      | Some e => Ret (sls, pbtx, Some e)
      | None => apply_batches sls pbtx batches'
      end
  end.
End postings.

(** The two persistence handles of a [postingsStore]: the committed state
    of each store and whether the handle is open.  The bucket [skiplist]
    of the key-value store may be missing. *)
Record bolt_DB : Type := mkBoltDB {
  db_skiplist : option skiplists;
  db_open : bool
}.

Record pagebuf_DB : Type := mkPagebufDB {
  pb_state : pagebuf.Tx;
  pb_open : bool
}.

Record postingsStore : Type := mkPostingsStore {
  db : bolt_DB;
  pb : pagebuf_DB
}.

(** [NewPostings] on an empty directory: both stores opened, the bucket
    [skiplist] created. *)
Definition NewPostings : postingsStore :=
  {| db := {| db_skiplist := Some ∅; db_open := true |};
     pb := {| pb_state := pagebuf.empty; pb_open := true |} |}.

(** [postingsStore.Close]. *)
Definition postingsStore_Close (p : postingsStore) : postingsStore * option error :=
  ({| db := {| db_skiplist := db_skiplist (db p); db_open := false |};
      pb := pb p |}, None).

(** What the stores do during [Append], in order. *)
Inductive store_name : Type := KV | Blob.

Inductive event : Type :=
| EvBegin (s : store_name)
| EvCommit (s : store_name)
| EvCommitFailed (s : store_name)
| EvRollback (s : store_name).

#[global] Instance store_name_eq_dec : EqDecision store_name.
Proof. solve_decision. Defined.

#[global] Instance event_eq_dec : EqDecision event.
Proof. solve_decision. Defined.

(** The failures of the stores that do not depend on the data: a
    transaction that cannot begin, a commit that cannot be written. *)
Record faults : Type := mkFaults {
  fail_pb_begin : bool;
  fail_db_begin : bool;
  fail_db_commit : bool;
  fail_pb_commit : bool
}.

Definition no_faults : faults :=
  {| fail_pb_begin := false; fail_db_begin := false;
     fail_db_commit := false; fail_pb_commit := false |}.

Section postings_store.
Variable pageDataSize : nat.

(** [postingsStore.Append]: the store, the error and the events.
    [db.Update] begins a write transaction, runs the function, rolls
    back on its error and commits otherwise. *)
Definition Append (p : postingsStore) (batches : list (N * list N)) (f : faults)
  : outcome (postingsStore * option error * list event) :=
  if (fail_pb_begin f || negb (pb_open (pb p)))%bool then
    Ret (p, Some (errOther "pagebuf: begin"), [])
  else if (fail_db_begin f || negb (db_open (db p)))%bool then
    Ret (p, Some (errOther "bolt: begin"), [EvBegin Blob; EvRollback Blob])
  else
    match db_skiplist (db p) with
    | None =>
        Ret (p, Some (errOther "Bucket missing"),
             [EvBegin Blob; EvBegin KV; EvRollback KV; EvRollback Blob])
    | Some sls =>
        '(sls', pbtx', err) ← apply_batches pageDataSize sls (pb_state (pb p)) batches;
        match err with
        | Some e =>
            Ret (p, Some e, [EvBegin Blob; EvBegin KV; EvRollback KV; EvRollback Blob])
        | None =>
            if fail_db_commit f then
              Ret (p, Some (errOther "bolt: commit"),
                   [EvBegin Blob; EvBegin KV; EvCommitFailed KV; EvRollback KV;
                    EvRollback Blob])
            else
              let p1 := {| db := {| db_skiplist := Some sls'; db_open := db_open (db p) |};
                           pb := pb p |} in
              if fail_pb_commit f then
                Ret (p1, Some (errOther "pagebuf: commit"),
                     [EvBegin Blob; EvBegin KV; EvCommit KV; EvCommitFailed Blob])
              else
                Ret ({| db := db p1;
                        pb := {| pb_state := pbtx'; pb_open := pb_open (pb p) |} |},
                     None,
                     [EvBegin Blob; EvBegin KV; EvCommit KV; EvCommit Blob])
        end
    end.
End postings_store.

(** The store that a run of [Append] leaves; the initial one when the run
    does not return. *)
Definition store_after (r : outcome (postingsStore * option error * list event))
  : postingsStore :=
  match r with
  | Ret (p, _, _) => p
  | _ => NewPostings
  end.

(** The IDs of the page filed under a page ID. *)
Definition page_ids_of (p : postingsStore) (pid : N) : option (list N) :=
  page.ids <$> pagebuf.pages (pb_state (pb p)) !! pid.


(** The skiplist entries of a postings key in the committed store, in key
    order. *)
Definition skiplist_of (p : postingsStore) (key : N) : list (list byte * list byte) :=
  match db_skiplist (db p) with
  | Some sls =>
      match sls !! encodeUint64 key with
      | Some b => bolt.entries b
      | None => []
      end
  | None => []
  end.

(** The invariant of section 3 on skiplist entries: each entry of each
    postings key refers to a stored page, and its key is the greatest ID
    of that page. *)
Definition skiplist_entries_carry_last_id (p : postingsStore) : Prop :=
  ∀ key d pid,
    (encodeUint64 d, encodeUint64 pid) ∈ skiplist_of p key →
    ∃ data, pagebuf.pages (pb_state (pb p)) !! pid = Some data
            ∧ last (page.ids data) = Some d.

(** Every bucket of the skiplists is a skiplist bucket. *)
Definition skiplists_wf (sls : skiplists) : Prop :=
  ∀ key b, sls !! key = Some b → skiplist_bucket b.

(** The IDs of the batches are [uint64] values. *)
Definition batches_uint64 (batches : list (N * list N)) : Prop :=
  Forall (λ kb : N * list N, Forall (λ id, id < 2 ^ 64) kb.2) batches.

(** ** [skippingIterator] *)

(** The interface [skiplistIterator]: [seek] and [next] on the state of
    the implementation. *)
Class skiplistIterator (SL : Type) : Type := {
  skiplist_seek : SL → N → outcome (SL * skipresult);
  skiplist_next : SL → outcome (SL * skipresult)
}.

#[global] Instance plainSkiplistIterator_skiplistIterator
  : skiplistIterator plainSkiplistIterator :=
  {| skiplist_seek := plainSkiplistIterator_seek;
     skiplist_next := plainSkiplistIterator_next |}.

#[global] Instance boltSkiplistCursor_skiplistIterator
  : skiplistIterator boltSkiplistCursor :=
  {| skiplist_seek := postings_go.seek;
     skiplist_next := postings_go.next |}.

(** The interface [iteratorStore] as [iteratorStoreFunc] implements it:
    [get] is a function from a pointer to an iterator or an error. *)
Definition iteratorStore : Type := N → Iterator + error.

(** [sk_close] is the result of the [close] function when one is set;
    [sk_cur] is [None] for the [nil] iterator of a fresh value. *)
Record skippingIterator (SL : Type) : Type := mkSkippingIterator {
  sk_skiplist : SL;
  sk_iterators : iteratorStore;
  sk_close : option (option error);
  sk_cur : option Iterator
}.

Arguments mkSkippingIterator {SL} _ _ _ _.
Arguments sk_skiplist {SL} _.
Arguments sk_iterators {SL} _.
Arguments sk_close {SL} _.
Arguments sk_cur {SL} _.

Section skipping.
Context {SL : Type} `{!skiplistIterator SL}.

Definition skippingIterator_Close (it : skippingIterator SL) : option error :=
  match sk_close it with
  | None => None
  | Some e => e
  end.

(** The tail that [Seek] and [Next] share: fetch the iterator behind
    [ptr], make it the current one and seek in it. *)
Definition skippingIterator_enter (fuel : nat) (it : skippingIterator SL) (sl : SL)
    (ptr id : N) : outcome (skippingIterator SL * result) :=
  match sk_iterators it ptr with
  | inr e =>
      Ret (mkSkippingIterator sl (sk_iterators it) (sk_close it) (sk_cur it), (0, Some e))
  | inl c =>
      '(c', r) ← Seek fuel c id;
      Ret (mkSkippingIterator sl (sk_iterators it) (sk_close it) (Some c'), r)
  end.

Definition skippingIterator_Seek (fuel : nat) (it : skippingIterator SL) (id : N)
  : outcome (skippingIterator SL * result) :=
  '(sl, (_, ptr, err)) ← skiplist_seek (sk_skiplist it) id;
  match err with
  | Some e =>
      Ret (mkSkippingIterator sl (sk_iterators it) (sk_close it) (sk_cur it), (0, Some e))
  | None => skippingIterator_enter fuel it sl ptr id
  end.

Definition skippingIterator_Next (fuel : nat) (it : skippingIterator SL)
  : outcome (skippingIterator SL * result) :=
  match sk_cur it with
  | None => skippingIterator_Seek fuel it 0
  | Some c =>
      '(c', (id, err)) ← Next fuel c;
      let it := mkSkippingIterator (sk_skiplist it) (sk_iterators it) (sk_close it) (Some c') in
      match err with
      | None => Ret (it, (id, None))
      | Some e =>
          if negb (is_EOF e) then Ret (it, (0, Some e))
          else
            (* the current iterator is exhausted: the next skiplist entry *)
            '(sl, (_, ptr, err)) ← skiplist_next (sk_skiplist it);
            match err with
            | Some e =>
                Ret (mkSkippingIterator sl (sk_iterators it) (sk_close it) (sk_cur it),
                     (0, Some e))
            | None => skippingIterator_enter fuel it sl ptr 0
            end
      end
  end.

(** [ExpandIterator] on a [skippingIterator]. *)
Fixpoint skippingIterator_Expand_loop (fuel : nat) (it : skippingIterator SL)
    (res : list N) (r : result) : outcome (list N * option error) :=
  match r with
  | (_, Some e) => Ret (res, if is_EOF e then None else Some e)
  | (v, None) =>
      match fuel with
      | O => OutOfFuel
      | S fuel' =>
          '(it', r') ← skippingIterator_Next fuel' it;
          skippingIterator_Expand_loop fuel' it' (res ++ [v]) r'
      end
  end.

Definition skippingIterator_Expand (fuel : nat) (it : skippingIterator SL)
  : outcome (list N * option error) :=
  '(it', r) ← skippingIterator_Seek fuel it 0;
  skippingIterator_Expand_loop fuel it' [] r.

End skipping.

(** The [skippingIterator] over an in-memory skiplist [m] whose pointers
    name the lists [pages]: a pointer without a list is [errNotFound]. *)
Definition plain_skippingIterator (m : gmap N N) (pages : gmap N (list N))
  : skippingIterator plainSkiplistIterator :=
  mkSkippingIterator (newPlainSkiplistIterator m)
    (λ ptr, match pages !! ptr with
            | Some l => inl (newPlainListIterator l)
            | None => inr errNotFound
            end)
    None None.

(** The list behind a skiplist key: the key has a pointer in [m], the
    pointer names a list in [pages], and the list is not empty. *)
Definition pages_of (m : gmap N N) (pages : gmap N (list N)) (k : N) (l : list N) : Prop :=
  ∃ ptr, m !! k = Some ptr ∧ pages !! ptr = Some l ∧ l ≠ [].

(** A state of [plain_skippingIterator m pages]: the skiplist at index
    [j] of its keys [ks], the current list [L] at position [p]. *)
Definition skipping_state (m : gmap N N) (pages : gmap N (list N)) (ks : list N)
    (j : nat) (L : list N) (p : nat) : skippingIterator plainSkiplistIterator :=
  mkSkippingIterator {| psi_m := m; psi_keys := ks; psi_pos := j |}
    (sk_iterators (plain_skippingIterator m pages)) None
    (Some (plainListIterator L p)).

(** [d] with pointer [p] is the entry that [seek k] is to return from
    the bucket [b]: the greatest key not above [k], or the least key
    when every key is above [k]. *)
Definition seek_target (b : bolt.Bucket) (k d p : N) : Prop :=
  bolt.kv b !! encodeUint64 d = Some (encodeUint64 p)
  ∧ d < 2 ^ 64 ∧ p < 2 ^ 64
  ∧ ((d ≤ k ∧ ∀ d' v, d' < 2 ^ 64 → bolt.kv b !! encodeUint64 d' = Some v →
                       d' ≤ k → d' ≤ d)
     ∨ (k < d ∧ ∀ d' v, d' < 2 ^ 64 → bolt.kv b !! encodeUint64 d' = Some v →
                         d ≤ d')).

(** ** File [bolt.go]: [labels] *)

(** [binary.BigEndian.Uint64]: the first 8 bytes of the slice as a
    big-endian number; a shorter slice panics. *)
Definition BigEndian_Uint64 (b : list byte) : outcome N :=
  if (length b <? 8)%nat then Panic else Ret (be_value (take 8 b)).

(** [bytes.HasPrefix]. *)
Definition bytes_HasPrefix (s prefix : list byte) : bool :=
  (length prefix <=? length s)%nat && bool_decide (take (length prefix) s = prefix).

(** Modelled from the spec: the interface [Matcher] is not part of the
    given sources; section 4.6 names its methods [key()] and
    [match(value)]. *)
Record Matcher : Type := mkMatcher {
  Key : string;
  Match : string → bool
}.

Section labels.
Variable seperator : byte.

(** The loop of [labels]: [e] is the pair the cursor returned last, two
    [nil] slices when the cursor is exhausted. *)
Fixpoint labels_loop (fuel : nat) (b : bolt.Bucket) (m : Matcher)
    (c : bolt.Cursor) (e : option (list byte * list byte)) (ids : list N)
  : outcome (list N * option error) :=
  let lbl := from_option fst [] e in
  let id := from_option snd [] e in
  if bytes_HasPrefix lbl (list_byte_of_string (Key m)) then
    match fuel with
    | O => OutOfFuel
    | S fuel' =>
        let p := bytes_Split lbl seperator in
        p1 ← index p 1;
        if negb (Match m (string_of_list_byte p1)) then
          let '(c', e') := bolt.Next b c in
          labels_loop fuel' b m c' e' ids
        else
          x ← BigEndian_Uint64 id;
          let '(c', e') := bolt.Next b c in
          labels_loop fuel' b m c' e' (ids ++ [x])
    end
  else Ret (ids, None).

Definition labels (fuel : nat) (s : boltSeriesTx) (m : Matcher)
  : outcome (list N * option error) :=
  let '(c, e) := bolt.Seek (labelToID s) (list_byte_of_string (Key m)) in
  labels_loop fuel (labelToID s) m c e [].

End labels.

(** Every ID stored in [labelToID] is shorter than 8 bytes. *)
Definition labelToID_short (s : boltSeriesTx) : Prop :=
  ∀ k v, bolt.kv (labelToID s) !! k = Some v → (length v < 8)%nat.

(** Every entry of the skiplist bucket [b] points to a page that the
    page transaction holds; [pages_present] says so of every postings
    key. *)
Definition bucket_pages_present (b : bolt.Bucket) (pbtx : pagebuf.Tx) : Prop :=
  ∀ d p, d < 2 ^ 64 → p < 2 ^ 64 →
    bolt.kv b !! encodeUint64 d = Some (encodeUint64 p) →
    is_Some (pagebuf.pages pbtx !! p).

Definition pages_present (sls : skiplists) (pbtx : pagebuf.Tx) : Prop :=
  ∀ key b, sls !! key = Some b → bucket_pages_present b pbtx.

(** The page transaction [pbtx'] holds every page ID that [pbtx] holds. *)
Definition pages_grow (pbtx pbtx' : pagebuf.Tx) : Prop :=
  ∀ p, is_Some (pagebuf.pages pbtx !! p) → is_Some (pagebuf.pages pbtx' !! p).

(** File [bolt.go]: [seek] and [next] of its own [boltSkiplistCursor].
    They answer [errNotFound] where those of [postings.go] answer
    [io.EOF], and [seek] gives up when no entry lies before the one it
    found. *)
Module bolt_go_cursor.

Definition next (s : boltSkiplistCursor) : outcome (boltSkiplistCursor * skipresult) :=
  let '(c, e) := bolt.Next (sl_bkt s) (sl_c s) in
  match e with
  | None => Ret (with_cursor s c, (0, 0, Some errNotFound))
  | Some (db, pb) =>
      d ← decodeUint64 db;
      p ← decodeUint64 pb;
      Ret (with_cursor s c, (d, p, None))
  end.

Definition seek (s : boltSkiplistCursor) (k : N) : outcome (boltSkiplistCursor * skipresult) :=
  let '(c, e) := bolt.Seek (sl_bkt s) (encodeUint64 k) in
  let '(c, e) := match e with
                 | None => bolt.Last (sl_bkt s)
                 | Some _ => (c, e)
                 end in
  match e with
  | None => Ret (with_cursor s c, (0, 0, Some errNotFound))
  | Some (db, pb) =>
      did ← decodeUint64 db;
      pid ← decodeUint64 pb;
      if k <? did then
        let '(c', e') := bolt.Prev (sl_bkt s) c in
        match e' with
        | None => Ret (with_cursor s c', (0, 0, Some errNotFound))
        | Some (dbp, pbp) =>
            did' ← decodeUint64 dbp;
            pid' ← decodeUint64 pbp;
            Ret (with_cursor s c', (did', pid', None))
        end
      else Ret (with_cursor s c, (did, pid, None))
  end.

End bolt_go_cursor.

(* ===================================================================== *)
(** * Part II: properties                                                  *)
(* ===================================================================== *)

(** ** The [outcome] monad and recursion budgets *)


Lemma returns_ext {A} (c c' : nat → outcome A) a :
  (∀ n, c n = c' n) → returns c a → returns c' a.
Proof. intros E [n Hn]. exists n. intros m Hm. rewrite <- E. auto. Qed.

Lemma returns_bind {A B} (c : nat → outcome A) (k : A → nat → outcome B) a b :
  returns c a → returns (k a) b → returns (λ n, x ← c n; k x n) b.
Proof.
  intros [n1 H1] [n2 H2]. exists (n1 `max` n2)%nat. intros m Hm.
  rewrite H1 by lia. simpl. apply H2. lia.
Qed.

Lemma returns_S {A} (c : nat → outcome A) a :
  returns c a → returns (λ n, match n with O => OutOfFuel | S n' => c n' end) a.
Proof.
  intros [n Hn]. exists (S n). intros [|m] Hm; [lia|]. apply Hn. lia.
Qed.

Lemma returns_det {A} (c : nat → outcome A) a b :
  returns c a → returns c b → a = b.
Proof.
  intros [n1 H1] [n2 H2].
  specialize (H1 (n1 `max` n2)%nat). specialize (H2 (n1 `max` n2)%nat).
  rewrite H1 in H2 by lia. by injection H2; [|lia].
Qed.


Lemma bind_Ret {A B} (a : A) (k : A → outcome B) : (Ret a ≫= k) = k a.
Proof. reflexivity. Qed.

(** ** [ExpandIterator] on an ascending iterator *)


Lemma ExpandIterator_loop_ascending V R L :
  AscendingSpec V R L →
  ∀ rest it r res,
    hd_result rest r → R it (tail rest) →
    returns (λ n, ExpandIterator_loop n it res r) (res ++ rest, None).
Proof.
  intros HS rest. induction rest as [|x rest IH]; intros it [v e] res Hr HR.
  - simpl in Hr. subst e. exists 0%nat. intros m _.
    destruct m; simpl; by rewrite app_nil_r.
  - simpl in Hr. injection Hr as -> ->. simpl in HR.
    destruct (asc_Next _ _ _ HS it rest HR) as (it' & r' & Hn & Hh & HR').
    specialize (IH it' r' (res ++ [x]) Hh HR').
    rewrite <- app_assoc in IH. simpl in IH.
    eapply returns_ext;
      [|apply returns_S,
          (returns_bind _ (λ p n, ExpandIterator_loop n p.1 (res ++ [x]) p.2) _ _ Hn), IH].
    intros [|n]; [reflexivity|]. simpl. by destruct (Next n it) as [[??]| |].
Qed.


(** ** Strictly ascending lists *)




Lemma sorted_lt_cons_inv (x : N) (l : list N) :
  StronglySorted N.lt (x :: l) → StronglySorted N.lt l ∧ ∀ y, y ∈ l → x < y.
Proof.
  intros H. apply StronglySorted_cons in H as [H1 H2].
  split; [done|]. by rewrite Forall_forall in H1.
Qed.

Lemma sorted_lt_tail (l : list N) :
  StronglySorted N.lt l → StronglySorted N.lt (tail l).
Proof. destruct l; [done|]. intros H. apply sorted_lt_cons_inv in H. tauto. Qed.










(** ** [intersectIterator] over two ascending iterators *)




Section intersect_correct.
Variables (V1 V2 : Iterator → Prop) (R1 R2 : Iterator → list N → Prop).
Variables (L1 L2 : list N).
Hypothesis (H1 : AscendingSpec V1 R1 L1) (H2 : AscendingSpec V2 R2 L2).


End intersect_correct.


(** ** [mergeIterator] over two ascending iterators *)












Section merge_correct.
Variables (V1 V2 : Iterator → Prop) (R1 R2 : Iterator → list N → Prop).
Variables (L1 L2 : list N).
Hypothesis (H1 : AscendingSpec V1 R1 L1) (H2 : AscendingSpec V2 R2 L2).


End merge_correct.


(** ** [sort.Search] *)

Lemma Search_loop_S fuel f i j :
  sort.Search_loop (S fuel) f i j =
  if (i <? j)%nat then
    b ← f ((i + j) / 2)%nat;
    if negb b then sort.Search_loop fuel f ((i + j) / 2 + 1)%nat j
    else sort.Search_loop fuel f i ((i + j) / 2)%nat
  else Ret i.
Proof. reflexivity. Qed.

(** On a closure that answers [p] without panic below [n], with [p]
    monotone, the binary search returns the least index satisfying [p]. *)
Lemma Search_loop_spec (n : nat) (f : nat → outcome bool) (p : nat → bool) :
  (∀ h, (h < n)%nat → f h = Ret (p h)) →
  (∀ h h', (h ≤ h')%nat → p h = true → p h' = true) →
  ∀ fuel i j,
    (i ≤ j ≤ n)%nat → (j - i ≤ fuel)%nat →
    (∀ k, (k < i)%nat → p k = false) →
    (∀ k, (j ≤ k)%nat → p k = true) →
    ∃ r, sort.Search_loop fuel f i j = Ret r
         ∧ (r ≤ n)%nat
         ∧ (∀ k, (k < r)%nat → p k = false)
         ∧ (∀ k, (r ≤ k)%nat → p k = true).
Proof.
  intros Hf Hmono. induction fuel as [|fuel IH]; intros i j Hij Hfuel Hlo Hhi.
  - simpl. destruct (Nat.ltb_spec i j); [lia|].
    exists i. split_and!; [done|lia|done|]. intros k Hk. apply Hhi. lia.
  - rewrite Search_loop_S. destruct (Nat.ltb_spec i j) as [Hlt|Hge].
    + pose proof (Nat.div_mod_eq (i + j) 2) as Hdiv.
      pose proof (Nat.mod_upper_bound (i + j) 2 ltac:(lia)) as Hmod.
      set (h := ((i + j) / 2)%nat) in *.
      assert (i ≤ h < j)%nat as Hh by lia.
      rewrite Hf by lia. rewrite bind_Ret.
      destruct (p h) eqn:Eh; simpl negb; cbv iota.
      * apply IH; [lia|lia|done|].
        intros k Hk. by apply (Hmono h).
      * apply IH; [lia|lia| |done].
        intros k Hk. destruct (p k) eqn:Ek; [|done].
        rewrite (Hmono k h) in Eh; [done|lia|done].
    + exists i. split_and!; [done|lia|done|]. intros k Hk. apply Hhi. lia.
Qed.

Lemma Search_spec (n : nat) (f : nat → outcome bool) (p : nat → bool) :
  (∀ h, (h < n)%nat → f h = Ret (p h)) →
  (∀ h h', (h ≤ h')%nat → p h = true → p h' = true) →
  (∀ k, (n ≤ k)%nat → p k = true) →
  ∃ r, sort.Search n f = Ret r
       ∧ (r ≤ n)%nat
       ∧ (∀ k, (k < r)%nat → p k = false)
       ∧ (∀ k, (r ≤ k)%nat → p k = true).
Proof.
  intros Hf Hmono Hhi. unfold sort.Search.
  apply (Search_loop_spec n f p Hf Hmono); [lia|lia| |done].
  intros k Hk. lia.
Qed.

Lemma sorted_lt_lookup (l : list N) (i j : nat) (x y : N) :
  StronglySorted N.lt l → l !! i = Some x → l !! j = Some y → (i < j)%nat → x < y.
Proof.
  intros Hl. revert i j. induction Hl as [|a l Hl IH Ha]; intros i j Hi Hj Hij.
  { by rewrite lookup_nil in Hi. }
  destruct j as [|j]; [lia|]. simpl in Hj.
  destruct i as [|i]; simpl in Hi.
  - injection Hi as ->. rewrite Forall_forall in Ha. apply Ha.
    by apply list_elem_of_lookup_2 in Hj.
  - apply (IH i j); [done|done|lia].
Qed.

(** The predicate searched for by [Seek] and [seek]: the key at index [h]
    is not below [id]; positions past the end count as satisfying it. *)
Lemma not_below_mono (l : list N) (id : N) :
  StronglySorted N.lt l →
  ∀ h h', (h ≤ h')%nat →
    from_option (N.leb id) true (l !! h) = true →
    from_option (N.leb id) true (l !! h') = true.
Proof.
  intros Hl h h' Hh.
  destruct (l !! h') as [y|] eqn:Ey; [|done].
  destruct (l !! h) as [x|] eqn:Ex.
  - simpl. intros Hx%N.leb_le. apply N.leb_le.
    destruct (decide (h = h')) as [->|]; [congruence|].
    pose proof (sorted_lt_lookup l h h' x y Hl Ex Ey). lia.
  - apply lookup_ge_None in Ex. apply lookup_lt_Some in Ey. lia.
Qed.

Lemma Search_keys (l : list N) (id : N) :
  StronglySorted N.lt l →
  ∃ r, sort.Search (length l) (λ i, x ← index l i; Ret (id <=? x)) = Ret r
       ∧ (r ≤ length l)%nat
       ∧ (∀ k x, (k < r)%nat → l !! k = Some x → x < id)
       ∧ (∀ k x, (r ≤ k)%nat → l !! k = Some x → id ≤ x).
Proof.
  intros Hl.
  destruct (Search_spec (length l) (λ i, x ← index l i; Ret (id <=? x))
              (λ h, from_option (N.leb id) true (l !! h)))
    as (r & Hr & Hle & Hlo & Hhi).
  - intros h Hh. unfold index.
    destruct (lookup_lt_is_Some_2 l h Hh) as [x ->]. done.
  - by apply not_below_mono.
  - intros k Hk. apply lookup_ge_None in Hk. by rewrite Hk.
  - exists r. split_and!; [done|done|..].
    + intros k x Hk Ex. specialize (Hlo k Hk). rewrite Ex in Hlo. simpl in Hlo.
      apply N.leb_gt in Hlo. lia.
    + intros k x Hk Ex. specialize (Hhi k Hk). rewrite Ex in Hhi. simpl in Hhi.
      by apply N.leb_le in Hhi.
Qed.

Lemma filter_all {A} (P : A → Prop) `{!∀ x, Decision (P x)} (l : list A) :
  Forall P l → filter P l = l.
Proof.
  induction 1 as [|x l Hx _ IH]; [done|].
  by rewrite filter_cons_True, IH.
Qed.

Lemma filter_none {A} (P : A → Prop) `{!∀ x, Decision (P x)} (l : list A) :
  Forall (λ x, ¬ P x) l → filter P l = [].
Proof.
  induction 1 as [|x l Hx _ IH]; [done|].
  by rewrite filter_cons_False, IH.
Qed.

Lemma drop_search (l : list N) (id : N) (r : nat) :
  (∀ k x, (k < r)%nat → l !! k = Some x → x < id) →
  (∀ k x, (r ≤ k)%nat → l !! k = Some x → id ≤ x) →
  drop r l = filter (N.le id) l.
Proof.
  intros Hlo Hhi.
  rewrite <- (take_drop r l) at 2. rewrite filter_app.
  rewrite filter_none, filter_all; [done|..].
  - apply Forall_lookup. intros i x Hi. rewrite lookup_drop in Hi.
    apply (Hhi (r + i)%nat); [lia|done].
  - apply Forall_forall. intros x (i & Hi & Hlt)%elem_of_take.
    specialize (Hlo i x Hlt Hi). lia.
Qed.

(** ** [plainListIterator] over a strictly ascending list *)

Lemma plainListIterator_Next_spec (L : list N) (pos : nat) :
  ∃ it' r, plainListIterator_Next L pos = Ret (it', r)
           ∧ hd_result (drop pos L) r
           ∧ R_plain L it' (tail (drop pos L)).
Proof.
  unfold plainListIterator_Next.
  destruct (Nat.leb_spec (length L) pos) as [Hge|Hlt].
  - rewrite drop_ge by done.
    exists (plainListIterator L pos), (0, Some EOF).
    split_and!; [done|done|]. exists pos. by rewrite drop_ge.
  - destruct (lookup_lt_is_Some_2 L pos Hlt) as [x Ex].
    unfold index. rewrite Ex. simpl.
    rewrite (drop_S L x pos Ex).
    exists (plainListIterator L (pos + 1)), (x, None).
    split_and!; [done|done|]. exists (pos + 1)%nat.
    by rewrite Nat.add_1_r.
Qed.

Lemma plain_AscendingSpec (L : list N) :
  StronglySorted N.lt L → AscendingSpec (V_plain L) (R_plain L) L.
Proof.
  intros HL. split.
  - done.
  - intros it rest (pos & -> & _). by exists pos.
  - intros it id [pos ->].
    destruct (Search_keys L id HL) as (r & Hr & _ & Hlo & Hhi).
    destruct (plainListIterator_Next_spec L r) as (it' & res & Hn & Hh & HR).
    rewrite (drop_search L id r Hlo Hhi) in Hh, HR.
    exists it', res. split; [|done].
    exists 0%nat. intros m _.
    destruct m; simpl; unfold plainListIterator_Seek; by rewrite Hr.
  - intros it rest (pos & -> & ->).
    destruct (plainListIterator_Next_spec L pos) as (it' & res & Hn & Hh & HR).
    exists it', res. split; [|done].
    exists 0%nat. intros m _. by destruct m.
Qed.




(** ** Claims on the set-algebra iterators *)

(** Scenarios 2 and 3 of the specification. *)
Example intersect_scenario :
  ExpandIterator 10 (Intersect [newPlainListIterator [1;2;3;5;8;13];
                                newPlainListIterator [2;3;5;7;11;13]])
  = Ret ([2;3;5;13], None).
Proof. vm_compute. reflexivity. Qed.

Example merge_scenario :
  ExpandIterator 10 (Merge [newPlainListIterator [1;2;3;5;8;13];
                            newPlainListIterator [2;3;5;7;11;13]])
  = Ret ([1;2;3;5;7;8;11;13], None).
Proof. vm_compute. reflexivity. Qed.





(** C10: called with no iterator, [Merge] and [Intersect] return the [nil]
    interface value, not an iterator reporting [io.EOF]; [Next], [Seek]
    and [Close] on that result panic (nil dereference), whatever the
    budget and the ID sought. *)
Theorem Merge_Intersect_empty_nil :
  Merge [] = nilIterator
  ∧ Intersect [] = nilIterator
  ∧ (∀ n, Next n (Merge []) = Panic ∧ Next n (Intersect []) = Panic)
  ∧ (∀ n id, Seek n (Merge []) id = Panic ∧ Seek n (Intersect []) id = Panic)
  ∧ Close (Merge []) = Panic ∧ Close (Intersect []) = Panic.
Proof.
  split_and!; try reflexivity.
  - intros [|n]; by split.
  - intros [|n] id; by split.
Qed.

(** ** [plainSkiplistIterator.seek] *)

Lemma newPlainSkiplistIterator_keys (m : gmap N N) (k : N) :
  k ∈ psi_keys (newPlainSkiplistIterator m) ↔ is_Some (m !! k).
Proof.
  simpl. unfold sort.Sort. rewrite merge_sort_Permutation.
  rewrite list_elem_of_fmap. split.
  - intros ([k' v] & -> & Hkv). apply elem_of_map_to_list in Hkv. by exists v.
  - intros [v Hv]. exists (k, v). split; [done|]. by apply elem_of_map_to_list.
Qed.

Lemma newPlainSkiplistIterator_keys_length (m : gmap N N) :
  length (psi_keys (newPlainSkiplistIterator m)) = size m.
Proof.
  simpl. unfold sort.Sort. rewrite merge_sort_Permutation.
  by rewrite length_fmap, length_map_to_list.
Qed.

Lemma sorted_le_NoDup_lt (l : list N) :
  StronglySorted N.le l → NoDup l → StronglySorted N.lt l.
Proof.
  induction 1 as [|x l _ IH Hx]; intros Hnd; [constructor|].
  apply NoDup_cons in Hnd as [Hnin Hnd].
  constructor; [by apply IH|].
  rewrite Forall_forall in *. intros y Hy.
  specialize (Hx y Hy). assert (x ≠ y) by (by intros ->). lia.
Qed.

Lemma newPlainSkiplistIterator_keys_sorted (m : gmap N N) :
  StronglySorted N.lt (psi_keys (newPlainSkiplistIterator m)).
Proof.
  simpl. unfold sort.Sort. apply sorted_le_NoDup_lt.
  - apply StronglySorted_merge_sort; apply _.
  - rewrite merge_sort_Permutation. apply NoDup_fst_map_to_list.
Qed.

(** Away from the failing case of C9, [seek] returns: on the empty map
    and whenever some key is not below [id]. *)
Lemma plainSkiplistIterator_seek_returns (m : gmap N N) (id : N) :
  m = ∅ ∨ (∃ k, is_Some (m !! k) ∧ id ≤ k) →
  ∃ it' r, plainSkiplistIterator_seek (newPlainSkiplistIterator m) id = Ret (it', r).
Proof.
  intros Hm.
  pose proof (newPlainSkiplistIterator_keys_sorted m) as Hs.
  pose proof (newPlainSkiplistIterator_keys m) as Hk.
  pose proof (newPlainSkiplistIterator_keys_length m) as Hlen.
  set (it := newPlainSkiplistIterator m) in *. clearbody it.
  destruct (Search_keys (psi_keys it) id Hs) as (r & Hr & Hle & Hlo & _).
  unfold plainSkiplistIterator_seek. rewrite Hr, bind_Ret.
  assert (Hr' : r = 0%nat ∨ (r < length (psi_keys it))%nat).
  { destruct Hm as [->|(k & Hin & Hge)].
    - rewrite map_size_empty in Hlen. lia.
    - apply Hk, list_elem_of_lookup in Hin as [j Hj].
      destruct (decide (j < r)%nat) as [Hjr|Hjr].
      + specialize (Hlo j k Hjr Hj). lia.
      + apply lookup_lt_Some in Hj. lia. }
  assert (Hnext : ∀ pos, (pos = 0 ∨ pos < length (psi_keys it))%nat →
            ∃ it' res, plainSkiplistIterator_next
                         {| psi_m := psi_m it; psi_keys := psi_keys it; psi_pos := pos |}
                       = Ret (it', res)).
  { intros pos Hpos. unfold plainSkiplistIterator_next. simpl.
    destruct (Nat.leb_spec (length (psi_keys it)) pos); [by eexists; eexists|].
    unfold index. destruct (lookup_lt_is_Some_2 (psi_keys it) pos) as [x ->]; [done|].
    simpl. by eexists; eexists. }
  destruct (Nat.ltb_spec 0 r) as [Hpos|Hzero].
  - destruct Hr' as [->|Hr']; [lia|].
    unfold index at 1.
    destruct (lookup_lt_is_Some_2 (psi_keys it) r Hr') as [x ->].
    rewrite bind_Ret, bind_Ret. apply Hnext. destruct (id <? x); lia.
  - rewrite bind_Ret. apply Hnext. lia.
Qed.

(** C9 fails on the code: on a non-empty map all of whose keys are below
    [id], the binary search of [seek] returns the number of keys, and the
    test [it.keys[pos] > id] then indexes the key list one past its end:
    [seek] panics. *)
Theorem plainSkiplistIterator_seek_past_last_panics (m : gmap N N) (id : N) :
  m ≠ ∅ →
  (∀ k, is_Some (m !! k) → k < id) →
  plainSkiplistIterator_seek (newPlainSkiplistIterator m) id = Panic.
Proof.
  intros Hne Hlt.
  set (it := newPlainSkiplistIterator m).
  assert (Hlen : (0 < length (psi_keys it))%nat).
  { unfold it. rewrite newPlainSkiplistIterator_keys_length.
    apply map_size_non_empty_iff in Hne. lia. }
  assert (Hkeys : ∀ h x, psi_keys it !! h = Some x → x < id).
  { intros h x Hx. apply Hlt, newPlainSkiplistIterator_keys.
    by apply list_elem_of_lookup_2 in Hx. }
  clearbody it.
  destruct (Search_spec (length (psi_keys it))
              (λ i, x ← index (psi_keys it) i; Ret (id <=? x))
              (λ h, negb (h <? length (psi_keys it))%nat))
    as (r & Hr & Hle & _ & Hhi).
  - intros h Hh. unfold index.
    destruct (lookup_lt_is_Some_2 _ h Hh) as [x Ex]. rewrite Ex. simpl.
    apply Hkeys in Ex.
    destruct (N.leb_spec id x); [lia|].
    by destruct (Nat.ltb_spec h (length (psi_keys it))); [|lia].
  - intros h h' Hh.
    destruct (Nat.ltb_spec h (length (psi_keys it))); [done|].
    by destruct (Nat.ltb_spec h' (length (psi_keys it))); [lia|].
  - intros k Hk. by destruct (Nat.ltb_spec k (length (psi_keys it))); [lia|].
  - assert (r = length (psi_keys it)) as ->.
    { specialize (Hhi r (Nat.le_refl r)).
      destruct (Nat.ltb_spec r (length (psi_keys it))); [done|lia]. }
    unfold plainSkiplistIterator_seek. rewrite Hr, bind_Ret.
    destruct (Nat.ltb_spec 0 (length (psi_keys it))); [|lia].
    unfold index. by rewrite (proj2 (lookup_ge_None _ _) (Nat.le_refl _)).
Qed.

Lemma plainSkiplistIterator_seek_past_last_panics_witness :
  ({[ 1 := 10 ]} : gmap N N) ≠ ∅
  ∧ (∀ k, is_Some (({[ 1 := 10 ]} : gmap N N) !! k) → k < 2)
  ∧ plainSkiplistIterator_seek (newPlainSkiplistIterator {[ 1 := 10 ]}) 2 = Panic.
Proof.
  assert (Hne : ({[ 1 := 10 ]} : gmap N N) ≠ ∅) by apply insert_non_empty.
  assert (Hk : ∀ k, is_Some (({[ 1 := 10 ]} : gmap N N) !! k) → k < 2).
  { intros k [v Hv]. apply lookup_singleton_Some in Hv as [<- _]. lia. }
  split; [exact Hne|]. split; [exact Hk|].
  exact (plainSkiplistIterator_seek_past_last_panics _ _ Hne Hk).
Defined.

(** The failing input of C9 evaluated: the map [{1: 10}] sought at 2. *)
Example plainSkiplistIterator_seek_panics :
  plainSkiplistIterator_seek (newPlainSkiplistIterator {[ 1 := 10 ]}) 2 = Panic.
Proof. vm_compute. reflexivity. Qed.

(** ** The label and series dictionary of [bolt.go] *)

Lemma bolt_Put_ok (b : bolt.Bucket) (k v : list byte) :
  (0 < length k)%nat → N.of_nat (length k) ≤ bolt.MaxKeySize →
  bolt.Put b k v = ({| bolt.kv := <[k := v]> (bolt.kv b);
                       bolt.sequence := bolt.sequence b |}, None).
Proof.
  intros H0 Hmax. unfold bolt.Put.
  destruct (Nat.eqb_spec (length k) 0); [lia|].
  by destruct (N.ltb_spec bolt.MaxKeySize (N.of_nat (length k))); [lia|].
Qed.

Lemma PutUvarint_loop_length (fuel : nat) (x : N) :
  (0 < length (binary.PutUvarint_loop fuel x) ≤ S fuel)%nat.
Proof.
  revert x. induction fuel as [|fuel IH]; intros x; simpl; [lia|].
  destruct (128 <=? x); simpl; [|lia].
  specialize (IH (N.shiftr x 7)). lia.
Qed.

Lemma PutUvarint_length (x : N) :
  (0 < length (binary.PutUvarint x) ≤ 11)%nat.
Proof. apply PutUvarint_loop_length. Qed.

Section series_store_facts.
Variable seperator : byte.
Variable skey_bytes : list N → list byte.

Lemma ensureLabel_known (s : boltSeriesTx) (key val : string) (k v : list byte) (id : N) :
  k = ensureLabel_key seperator key val →
  bolt.kv (labelToID s) !! k = Some v →
  id = (binary.Uvarint v).1 →
  ensureLabel seperator s key val = (s, id, None).
Proof. intros -> H ->. unfold ensureLabel, bolt.Get. by rewrite H. Qed.

Lemma ensureLabel_new (s : boltSeriesTx) (key val : string) (k buf : list byte) (id : N) :
  k = ensureLabel_key seperator key val →
  bolt.kv (labelToID s) !! k = None →
  N.of_nat (length k) ≤ bolt.MaxKeySize →
  id = (bolt.sequence (IDToLabel s) + 1) mod 2 ^ 64 →
  buf = binary.PutUvarint id →
  ensureLabel seperator s key val =
  ({| seriesToID := seriesToID s; IDToSeries := IDToSeries s;
      labelToID := {| bolt.kv := <[k := buf]> (bolt.kv (labelToID s));
                      bolt.sequence := bolt.sequence (labelToID s) |};
      IDToLabel := {| bolt.kv := <[buf := k]> (bolt.kv (IDToLabel s));
                      bolt.sequence := id |} |}, id, None).
Proof.
  intros -> H Hmax -> ->. unfold ensureLabel, bolt.Get. rewrite H.
  unfold bolt.NextSequence. cbv zeta. cbn [labelToID IDToLabel IDToSeries seriesToID].
  assert (0 < length (ensureLabel_key seperator key val))%nat.
  { unfold ensureLabel_key, copy_into.
    rewrite !length_app, !length_take, !length_drop, length_insert,
      !length_app, !length_take, !length_drop, !length_replicate. lia. }
  rewrite bolt_Put_ok by done.
  cbn [labelToID IDToLabel IDToSeries seriesToID].
  pose proof (PutUvarint_length ((bolt.sequence (IDToLabel s) + 1) mod 2 ^ 64)).
  rewrite bolt_Put_ok; [done|lia|].
  unfold bolt.MaxKeySize. lia.
Qed.

Lemma ensureSeries_known (s s' : boltSeriesTx) (desc : list (string * string))
    (skey0 skey : list N) (sidb : list byte) (sid : N) :
  ensureLabels seperator s desc [] = (s', skey0, None) →
  skey = sort.Sort skey0 →
  bolt.kv (IDToSeries s') !! skey_bytes skey = Some sidb →
  sid = (binary.Uvarint sidb).1 →
  ensureSeries seperator skey_bytes s desc = (s', (sid, skey, None)).
Proof. intros HL -> H ->. unfold ensureSeries, bolt.Get. by rewrite HL, H. Qed.

Lemma ensureSeries_new (s s' : boltSeriesTx) (desc : list (string * string))
    (skey0 skey : list N) (buf : list byte) (sid : N) :
  ensureLabels seperator s desc [] = (s', skey0, None) →
  skey = sort.Sort skey0 →
  bolt.kv (IDToSeries s') !! skey_bytes skey = None →
  sid = (bolt.sequence (IDToSeries s') + 1) mod 2 ^ 64 →
  buf = binary.PutUvarint sid →
  ensureSeries seperator skey_bytes s desc =
  ({| seriesToID := seriesToID s';
      IDToSeries := {| bolt.kv := <[buf := skey_bytes skey]> (bolt.kv (IDToSeries s'));
                       bolt.sequence := sid |};
      labelToID := labelToID s'; IDToLabel := IDToLabel s' |},
   (sid, skey, None)).
Proof.
  intros HL -> H -> ->. unfold ensureSeries, bolt.Get. rewrite HL, H.
  unfold bolt.NextSequence. cbv zeta. cbn [labelToID IDToLabel IDToSeries seriesToID].
  pose proof (PutUvarint_length ((bolt.sequence (IDToSeries s') + 1) mod 2 ^ 64)).
  rewrite bolt_Put_ok; [done|lia|].
  unfold bolt.MaxKeySize. lia.
Qed.
End series_store_facts.

Ltac series_cbn :=
  cbn [labelToID IDToLabel IDToSeries seriesToID bolt.kv bolt.sequence
       emptySeriesTx bolt.empty].

Ltac label_lookup :=
  series_cbn;
  repeat first
    [ rewrite lookup_empty
    | rewrite lookup_insert_eq
    | rewrite lookup_insert_ne by (by intros [=]) ];
  reflexivity.

Ltac ensure_label_step :=
  first
    [ erewrite ensureLabel_known;
      [ | cbv; reflexivity | label_lookup | cbv; reflexivity ]
    | erewrite ensureLabel_new;
      [ | cbv; reflexivity | label_lookup | cbv; by intros [=]
        | cbv; reflexivity | cbv; reflexivity ] ];
  series_cbn.

(** C1 fails on the code: [ensureSeries] looks the series key up in the
    bucket [IDToSeries], which is keyed by series IDs, and files nothing in
    [seriesToID].  On the empty store, ensuring the label set
    [{a: 1, b: 2}] twice, in whatever orders [range] visits the two labels,
    gives the series ID 1 and then the new series ID 2, for every separator
    and every serialization of series keys that does not map the key
    [1, 2] to the single byte [0x01]. *)
Theorem ensureSeries_allocates_twice (seperator : byte)
    (skey_bytes : list N → list byte) (d1 d2 : list (string * string)) :
  skey_bytes [1; 2] ≠ ["001"%byte] →
  d1 ≡ₚ [("a", "1"); ("b", "2")]%string →
  d2 ≡ₚ [("a", "1"); ("b", "2")]%string →
  ∃ s1 s2,
    ensureSeries seperator skey_bytes emptySeriesTx d1 = (s1, (1, [1; 2], None))
    ∧ ensureSeries seperator skey_bytes s1 d2 = (s2, (2, [1; 2], None)).
Proof.
  intros Hb P1 P2.
  symmetry in P1, P2.
  apply Permutation_length_2_inv in P1, P2.
  destruct P1 as [-> | ->], P2 as [-> | ->]; eexists; eexists; (split;
    [ erewrite ensureSeries_new;
        [
        | cbn [ensureLabels]; do 2 ensure_label_step; reflexivity
        | cbv; reflexivity
        | label_lookup
        | cbv; reflexivity
        | cbv; reflexivity ]; reflexivity
    | erewrite ensureSeries_new;
        [
        | cbn [ensureLabels]; do 2 ensure_label_step; reflexivity
        | cbv; reflexivity
        | series_cbn; by rewrite lookup_insert_ne, lookup_empty
        | cbv; reflexivity
        | cbv; reflexivity ]; reflexivity ]).
Qed.

Lemma ensureSeries_allocates_twice_witness :
  seriesKey_bytes [1; 2] ≠ ["001"%byte]
  ∧ [("a", "1"); ("b", "2")]%string ≡ₚ [("a", "1"); ("b", "2")]%string
  ∧ ∃ s1 s2,
      ensureSeries seperator_0 seriesKey_bytes emptySeriesTx
        [("a", "1"); ("b", "2")]%string = (s1, (1, [1; 2], None))
      ∧ ensureSeries seperator_0 seriesKey_bytes s1
          [("a", "1"); ("b", "2")]%string = (s2, (2, [1; 2], None)).
Proof.
  assert (H : seriesKey_bytes [1; 2] ≠ ["001"%byte]) by (by intros [=]).
  split; [exact H|]. split; [reflexivity|].
  exact (ensureSeries_allocates_twice seperator_0 seriesKey_bytes _ _ H
           (reflexivity _) (reflexivity _)).
Defined.

(** The failing input of C1 evaluated with the separator and the series
    key serialization of the specification. *)
Example ensureSeries_twice :
  let r1 := ensureSeries seperator_0 seriesKey_bytes emptySeriesTx
              [("a", "1"); ("b", "2")]%string in
  let r2 := ensureSeries seperator_0 seriesKey_bytes r1.1
              [("a", "1"); ("b", "2")]%string in
  r1.2 = (1, [1; 2], None) ∧ r2.2 = (2, [1; 2], None).
Proof. vm_compute. done. Qed.

Section roundtrip.
Variable seperator : byte.
Variable skey_bytes : list N → list byte.

Lemma label_never_a (id : N) (k v : string) (err : option error) :
  label seperator (seriesTx_a1 seperator skey_bytes) id = Ret (k, v, err) → err = None → k ≠ "a"%string.
Proof.
  unfold label, bolt.Get. cbn [IDToLabel bolt.kv seriesTx_a1].
  destruct (decide (binary.PutUvarint id = ["001"%byte])) as [->|Hne].
  - rewrite lookup_singleton_eq. unfold bytes_Split. simpl.
    destruct (decide ("1"%byte = seperator)) as [<-|Hs]; simpl.
    + by intros [= <- _ _].
    + destruct (decide (seperator = seperator)); [|done]. simpl.
      by intros [= <- _ _].
  - rewrite lookup_singleton_ne by done. by intros [= _ _ <-].
Qed.

Lemma series_labels_never_a (ids : list N) (m m' : gmap string string) :
  m !! "a"%string = None →
  series_labels seperator (seriesTx_a1 seperator skey_bytes) ids m = Ret (m', None) →
  m' !! "a"%string = None.
Proof.
  revert m. induction ids as [|id ids IH]; intros m Hm; simpl.
  - by intros [= <-].
  - destruct (label seperator (seriesTx_a1 seperator skey_bytes) id) as [[[k v] err]| |] eqn:El; simpl; [|done..].
    destruct err as [e|]; [done|].
    apply IH. rewrite lookup_insert_ne; [done|].
    by apply (label_never_a id k v None).
Qed.

Lemma series_roundtrip_a1 :
  ensureSeries seperator skey_bytes emptySeriesTx [("a", "1")]%string
  = ((seriesTx_a1 seperator skey_bytes), (1, [1], None))
  ∧ series seperator (seriesTx_a1 seperator skey_bytes) 1 ≠ Ret ({[ "a"%string := "1"%string ]}, None).
Proof.
  split.
  - erewrite ensureSeries_new;
      [
      | cbn [ensureLabels]; ensure_label_step; reflexivity
      | cbv; reflexivity
      | label_lookup
      | cbv; reflexivity
      | cbv; reflexivity ]; reflexivity.
  - unfold series, bolt.Get. cbn [IDToSeries bolt.kv seriesTx_a1].
    change (binary.PutUvarint 1) with ["001"%byte].
    rewrite lookup_singleton_eq.
    destruct (read_ids _ _ _) as [ids [e|]]; [done|].
    intros H. apply series_labels_never_a in H; [|done].
    by rewrite lookup_singleton_eq in H.
Qed.
End roundtrip.

(** C2 fails on the code: [ensureLabel] copies the value where the key
    belongs, so the label [("a", "1")] is filed under the bytes of ["1"],
    the separator, ["1"] and not under those of ["a"], the separator,
    ["1"].  For every separator and every serialization of series keys,
    after [ensureSeries] of the label set [{a: 1}] on the empty store has
    returned the series ID 1, no label ID resolves to a label with key
    ["a"] and [series] of 1 does not return [{a: 1}]. *)
Theorem series_roundtrip_fails (seperator : byte) (skey_bytes : list N → list byte) :
  ensureLabel_key seperator "a" "1" = ["1"%byte; seperator; "1"%byte]
  ∧ ensureLabel_key seperator "a" "1"
    ≠ list_byte_of_string "a" ++ [seperator] ++ list_byte_of_string "1"
  ∧ ∃ s,
      ensureSeries seperator skey_bytes emptySeriesTx [("a", "1")]%string
      = (s, (1, [1], None))
      ∧ (∀ id k v, label seperator s id = Ret (k, v, None) → k ≠ "a"%string)
      ∧ series seperator s 1 ≠ Ret ({[ "a"%string := "1"%string ]}, None).
Proof.
  split; [reflexivity|]. split; [by intros [=]|].
  destruct (series_roundtrip_a1 seperator skey_bytes) as [H1 H2].
  eexists. split; [exact H1|]. split; [|exact H2].
  intros id k v Hl. by apply (label_never_a seperator skey_bytes id k v None).
Qed.

(** The failing input of C2 evaluated with the separator and the series
    key serialization of the specification: the label comes back as
    [("1", "1")] and the series lookup fails. *)
Example series_roundtrip_a1_evaluated :
  let s := (ensureSeries seperator_0 seriesKey_bytes emptySeriesTx [("a", "1")]%string).1 in
  label seperator_0 s 1 = Ret ("1"%string, "1"%string, None)
  ∧ series seperator_0 s 1 = Ret (∅, Some (errOther "label for ID not found")).
Proof. vm_compute. done. Qed.

(** ** Byte strings: order and big-endian encoding *)

Lemma to_N_byte_of_N (n : N) : Byte.to_N (byte_of_N n) = n mod 256.
Proof.
  unfold byte_of_N.
  destruct (Byte.of_N (n mod 256)) as [b|] eqn:E.
  - by apply Byte.to_of_N in E.
  - apply Byte.of_N_None_iff in E.
    pose proof (N.mod_upper_bound n 256 ltac:(lia)). lia.
Qed.

Lemma to_N_inj (x y : byte) : Byte.to_N x = Byte.to_N y → x = y.
Proof.
  intros H. pose proof (Byte.of_to_N x) as Hx. rewrite H, Byte.of_to_N in Hx.
  congruence.
Qed.

Lemma bytes_compare_refl (a : list byte) : bytes_compare a a = Eq.
Proof. induction a as [|x a IH]; [done|]. simpl. by rewrite N.compare_refl. Qed.

Lemma bytes_compare_eq (a b : list byte) : bytes_compare a b = Eq → a = b.
Proof.
  revert b. induction a as [|x a IH]; intros [|y b]; simpl; try done.
  destruct (N.compare_spec (Byte.to_N x) (Byte.to_N y)) as [E| |]; try done.
  intros H. apply to_N_inj in E. f_equal; auto.
Qed.

Lemma bytes_compare_antisym (a b : list byte) :
  bytes_compare b a = CompOpp (bytes_compare a b).
Proof.
  revert b. induction a as [|x a IH]; intros [|y b]; simpl; try done.
  rewrite (N.compare_antisym (Byte.to_N x) (Byte.to_N y)).
  destruct (Byte.to_N x ?= Byte.to_N y); simpl; auto.
Qed.

Lemma bytes_compare_lt_trans (a b c : list byte) :
  bytes_compare a b = Lt → bytes_compare b c = Lt → bytes_compare a c = Lt.
Proof.
  revert b c. induction a as [|x a IH]; intros [|y b] [|z c]; simpl; try done.
  destruct (N.compare_spec (Byte.to_N x) (Byte.to_N y)) as [E|L|G];
    destruct (N.compare_spec (Byte.to_N y) (Byte.to_N z)) as [E'|L'|G']; try done.
  - rewrite E, E', N.compare_refl. apply IH.
  - intros _ _. rewrite E. by apply N.compare_lt_iff in L' as ->.
  - intros _ _. rewrite <- E'. by apply N.compare_lt_iff in L as ->.
  - intros _ _. assert (Byte.to_N x < Byte.to_N z) as ->%N.compare_lt_iff by lia. done.
Qed.

#[global] Instance bytes_le_refl : Reflexive bytes_le.
Proof. intros a. unfold bytes_le. by rewrite bytes_compare_refl. Qed.

#[global] Instance bytes_le_trans : Transitive bytes_le.
Proof.
  intros a b c. unfold bytes_le.
  destruct (bytes_compare a b) eqn:E1; [| |done].
  - apply bytes_compare_eq in E1 as ->. done.
  - destruct (bytes_compare b c) eqn:E2; [| |done].
    + apply bytes_compare_eq in E2 as ->. by rewrite E1.
    + by rewrite (bytes_compare_lt_trans a b c E1 E2).
Qed.

#[global] Instance bytes_le_total : Total bytes_le.
Proof.
  intros a b. unfold bytes_le. rewrite (bytes_compare_antisym a b).
  destruct (bytes_compare a b); simpl; auto.
Qed.

Lemma bytes_le_antisym (a b : list byte) : bytes_le a b → bytes_le b a → a = b.
Proof.
  unfold bytes_le. rewrite (bytes_compare_antisym a b).
  destruct (bytes_compare a b) eqn:E; simpl; try done.
  intros _ _. by apply bytes_compare_eq.
Qed.

Lemma be_bytes_length (n : nat) (x : N) : length (be_bytes n x) = n.
Proof. induction n as [|n IH]; simpl; [done|]. by rewrite IH. Qed.

(** The lexicographic order of big-endian encodings is the numeric order
    of the encoded numbers. *)
Lemma be_bytes_compare (n : nat) (a b : N) :
  bytes_compare (be_bytes n a) (be_bytes n b)
  = (a mod 256 ^ N.of_nat n ?= b mod 256 ^ N.of_nat n).
Proof.
  induction n as [|n IH].
  { simpl. by rewrite !N.mod_1_r. }
  cbn [be_bytes bytes_compare]. rewrite !to_N_byte_of_N, IH.
  rewrite Nat2N.inj_succ, N.pow_succ_r'.
  set (M := 256 ^ N.of_nat n).
  assert (0 < M) by (pose proof (N.pow_nonzero 256 (N.of_nat n) ltac:(lia)); lia).
  clearbody M.
  rewrite !(N.mul_comm 256 M), !N.Div0.mod_mul_r.
  pose proof (N.mod_upper_bound a M ltac:(lia)).
  pose proof (N.mod_upper_bound b M ltac:(lia)).
  pose proof (N.mod_upper_bound (a / M) 256 ltac:(lia)).
  pose proof (N.mod_upper_bound (b / M) 256 ltac:(lia)).
  set (ha := (a / M) mod 256) in *. set (hb := (b / M) mod 256) in *.
  set (la := a mod M) in *. set (lb := b mod M) in *.
  clearbody ha hb la lb.
  destruct (N.compare_spec ha hb) as [E|L|G].
  - rewrite E. symmetry.
    destruct (N.compare_spec la lb).
    + apply N.compare_eq_iff. lia.
    + apply N.compare_lt_iff. lia.
    + apply N.compare_gt_iff. lia.
  - symmetry. apply N.compare_lt_iff. nia.
  - symmetry. apply N.compare_gt_iff. nia.
Qed.

Lemma encodeUint64_le (a b : N) :
  a < 2 ^ 64 → b < 2 ^ 64 →
  bytes_le (encodeUint64 a) (encodeUint64 b) ↔ a ≤ b.
Proof.
  intros Ha Hb. unfold bytes_le, encodeUint64. rewrite be_bytes_compare.
  change (256 ^ N.of_nat 8) with (2 ^ 64).
  rewrite !N.mod_small by done. by rewrite <- N.compare_le_iff.
Qed.

Lemma be_value_foldl (n : nat) (acc x : N) :
  foldl (λ acc b, acc * 256 + Byte.to_N b) acc (be_bytes n x)
  = acc * 256 ^ N.of_nat n + x mod 256 ^ N.of_nat n.
Proof.
  revert acc. induction n as [|n IH]; intros acc.
  { simpl. rewrite N.mod_1_r. lia. }
  cbn [be_bytes foldl]. rewrite IH, to_N_byte_of_N.
  rewrite Nat2N.inj_succ, N.pow_succ_r'.
  set (M := 256 ^ N.of_nat n).
  assert (0 < M) by (pose proof (N.pow_nonzero 256 (N.of_nat n) ltac:(lia)); lia).
  clearbody M.
  rewrite (N.mul_comm 256 M), N.Div0.mod_mul_r.
  generalize ((x / M) mod 256) (x mod M). intros. lia.
Qed.

Lemma decodeUint64_encodeUint64 (x : N) :
  x < 2 ^ 64 → decodeUint64 (encodeUint64 x) = Ret x.
Proof.
  intros Hx. unfold decodeUint64, encodeUint64.
  rewrite be_bytes_length. simpl Nat.ltb. cbv iota.
  rewrite take_ge by (by rewrite be_bytes_length).
  unfold be_value. rewrite be_value_foldl.
  change (256 ^ N.of_nat 8) with (2 ^ 64).
  rewrite N.mod_small by done. f_equal.
Qed.

(** ** Buckets in key order *)

Lemma entries_Permutation (b : bolt.Bucket) :
  bolt.entries b ≡ₚ map_to_list (bolt.kv b).
Proof. apply merge_sort_Permutation. Qed.

Lemma elem_of_entries (b : bolt.Bucket) (k v : list byte) :
  (k, v) ∈ bolt.entries b ↔ bolt.kv b !! k = Some v.
Proof. rewrite entries_Permutation. apply elem_of_map_to_list. Qed.

Lemma entries_sorted (b : bolt.Bucket) :
  StronglySorted (λ e1 e2 : list byte * list byte, bytes_le e1.1 e2.1) (bolt.entries b).
Proof.
  apply StronglySorted_merge_sort.
  - intros x y z. apply bytes_le_trans.
  - intros x y. apply bytes_le_total.
Qed.

(** [Last] finds nothing in an empty bucket and otherwise the entry with
    the greatest key. *)
Lemma bolt_Last_spec (b : bolt.Bucket) :
  match (bolt.Last b).2 with
  | None => bolt.kv b = ∅
  | Some (k, v) =>
      bolt.kv b !! k = Some v
      ∧ ∀ k' v', bolt.kv b !! k' = Some v' → bytes_le k' k
  end.
Proof.
  unfold bolt.Last, bolt.at_entry. simpl.
  pose proof (entries_sorted b) as Hs.
  pose proof (elem_of_entries b) as He.
  destruct (last (bolt.entries b)) as [[k v]|] eqn:El.
  - apply last_Some in El as [l' El]. rewrite El in Hs, He. split.
    + apply He. apply elem_of_app. right. left.
    + intros k' v' Hk'. apply He in Hk'.
      apply elem_of_app in Hk' as [Hin|Hin].
      * apply (StronglySorted_app_1_elem_of _ _ _ (k', v') (k, v) Hs Hin). left.
      * apply list_elem_of_singleton in Hin. injection Hin as -> ->. done.
  - apply last_None in El. rewrite El in He.
    apply map_empty. intros k.
    destruct (bolt.kv b !! k) as [v|] eqn:E; [|done].
    apply He in E. by apply elem_of_nil in E.
Qed.

(** ** The skiplist cursor of [postings.go] *)

(** C7: on a skiplist bucket, [append (last_id, page_id)] returns; it
    fails with [errOutOfOrder] exactly when some entry of the bucket has a
    key not below [last_id], although it inspects the greatest key only;
    the bucket is then unchanged; otherwise there is no error and the
    bucket has gained the mapping of the encoded [last_id] to the encoded
    [page_id]. *)
Theorem skiplist_append_out_of_order_iff (s : boltSkiplistCursor) (d p : N) :
  skiplist_bucket (sl_bkt s) → d < 2 ^ 64 →
  ∃ s' err,
    postings_go.append s d p = Ret (s', err)
    ∧ (err = Some errOutOfOrder ↔
       ∃ d' v, d' < 2 ^ 64 ∧ bolt.kv (sl_bkt s) !! encodeUint64 d' = Some v ∧ d ≤ d')
    ∧ (err = Some errOutOfOrder → sl_bkt s' = sl_bkt s)
    ∧ (err ≠ Some errOutOfOrder →
       err = None
       ∧ bolt.kv (sl_bkt s') = <[encodeUint64 d := encodeUint64 p]> (bolt.kv (sl_bkt s))
       ∧ bolt.sequence (sl_bkt s') = bolt.sequence (sl_bkt s)).
Proof.
  intros Hwf Hd. unfold postings_go.append.
  pose proof (bolt_Last_spec (sl_bkt s)) as HL.
  destruct (bolt.Last (sl_bkt s)) as [c [[k v]|]]; simpl in HL.
  - destruct HL as [Hk Hmax].
    destruct (Hwf k v Hk) as [(dk & Hdk & ->) _].
    rewrite decodeUint64_encodeUint64 by done. simpl.
    destruct (N.leb_spec d dk) as [Hle|Hgt].
    + exists (with_cursor s c), (Some errOutOfOrder).
      split_and!; [done| |done|done].
      split; [|done]. intros _. by exists dk, v.
    + eexists. exists None. split_and!; [done| |done|done].
      split; [done|]. intros (d' & v' & Hd' & Hin & Hle).
      apply Hmax in Hin. apply encodeUint64_le in Hin; [lia|done|done].
  - simpl.
    eexists. exists None. split_and!; [done| |done|done].
    split; [done|]. intros (d' & v' & Hd' & Hin & Hle).
    rewrite HL in Hin. by rewrite lookup_empty in Hin.
Qed.

Lemma skiplist_append_out_of_order_iff_witness :
  skiplist_bucket {| bolt.kv := {[ encodeUint64 5 := encodeUint64 1 ]}; bolt.sequence := 0 |}
  ∧ 5 < 2 ^ 64
  ∧ ∃ s' err,
      postings_go.append
        {| sl_k := 7; sl_c := None;
           sl_bkt := {| bolt.kv := {[ encodeUint64 5 := encodeUint64 1 ]};
                        bolt.sequence := 0 |} |} 5 2 = Ret (s', err)
      ∧ err = Some errOutOfOrder.
Proof.
  assert (Hwf : skiplist_bucket
                  {| bolt.kv := {[ encodeUint64 5 := encodeUint64 1 ]};
                     bolt.sequence := 0 |}).
  { intros k v Hkv. simpl in Hkv.
    apply lookup_singleton_Some in Hkv as [<- <-].
    split; [exists 5|exists 1]; split; (lia || reflexivity). }
  assert (Hd : 5 < 2 ^ 64) by lia.
  split; [exact Hwf|]. split; [exact Hd|].
  destruct (skiplist_append_out_of_order_iff
              {| sl_k := 7; sl_c := None;
                 sl_bkt := {| bolt.kv := {[ encodeUint64 5 := encodeUint64 1 ]};
                              bolt.sequence := 0 |} |} 5 2 Hwf Hd)
    as (s' & err & Happ & Hiff & _).
  exists s', err. split; [exact Happ|].
  apply Hiff. exists 5, (encodeUint64 1).
  split; [lia|]. split; [apply lookup_singleton_eq|lia].
Defined.

(** ** The postings store of [postings.go] *)

(** C8 fails on the code: [Close] closes the key-value store only; the
    paged blob store, opened by [NewPostings] and owned by the store, is
    left as it was. *)
Theorem Close_leaves_blob_store_open (p : postingsStore) :
  db_open (db (postingsStore_Close p).1) = false
  ∧ pb (postingsStore_Close p).1 = pb p
  ∧ pb_open (pb (postingsStore_Close NewPostings).1) = true.
Proof. by split_and!. Qed.

Lemma entry_not_last_id (p : postingsStore) (key d pid : N) (l : list N) :
  (encodeUint64 d, encodeUint64 pid) ∈ skiplist_of p key →
  page_ids_of p pid = Some l →
  last l ≠ Some d →
  ¬ skiplist_entries_carry_last_id p.
Proof.
  intros Hin Hl Hne Hinv.
  destruct (Hinv key d pid Hin) as (data & Hd & Hlast).
  unfold page_ids_of in Hl. rewrite Hd in Hl. simpl in Hl.
  injection Hl as <-. done.
Qed.

(** C5 fails on the code, with pages of 64 data bytes, on three inputs.
    (1) Appending the single ID 5 to a new postings list files the page
    [5] under the skiplist key 0: [lastID] is set in the loop over the
    remaining IDs only.  (2) Appending 1 to 60 to a new postings list
    fills the first page with 1 to 57 and files it under the key 58, the
    ID that did not fit.  (3) Appending 3 to the list holding 1 and 2
    rewrites the page to 1, 2, 3 and leaves its skiplist key at 2.  Every
    one of these runs of [Append] succeeds and leaves an entry whose key
    is not the greatest ID of its page.  The [append] of [bolt.go], at
    last, files under the page ID instead of the last ID. *)
Theorem Append_skiplist_key_not_last_id :
  (let r := Append 64 NewPostings [(7, [5])] no_faults in
   (∃ tr, r = Ret (store_after r, None, tr))
   ∧ skiplist_of (store_after r) 7 = [(encodeUint64 0, encodeUint64 1)]
   ∧ page_ids_of (store_after r) 1 = Some [5]
   ∧ ¬ skiplist_entries_carry_last_id (store_after r))
  ∧ (let r := Append 64 NewPostings [(7, N.of_nat <$> seq 1 60)] no_faults in
     (∃ tr, r = Ret (store_after r, None, tr))
     ∧ skiplist_of (store_after r) 7
       = [(encodeUint64 58, encodeUint64 1); (encodeUint64 60, encodeUint64 2)]
     ∧ page_ids_of (store_after r) 1 = Some (N.of_nat <$> seq 1 57)
     ∧ page_ids_of (store_after r) 2 = Some [58; 59; 60]
     ∧ ¬ skiplist_entries_carry_last_id (store_after r))
  ∧ (let r1 := Append 64 NewPostings [(7, [1; 2])] no_faults in
     let r := Append 64 (store_after r1) [(7, [3])] no_faults in
     (∃ tr, r1 = Ret (store_after r1, None, tr))
     ∧ skiplist_of (store_after r1) 7 = [(encodeUint64 2, encodeUint64 1)]
     ∧ page_ids_of (store_after r1) 1 = Some [1; 2]
     ∧ (∃ tr, r = Ret (store_after r, None, tr))
     ∧ skiplist_of (store_after r) 7 = [(encodeUint64 2, encodeUint64 1)]
     ∧ page_ids_of (store_after r) 1 = Some [1; 2; 3]
     ∧ ¬ skiplist_entries_carry_last_id (store_after r))
  ∧ (∃ s, bolt_go.append {| sl_k := 7; sl_c := None; sl_bkt := bolt.empty |} 5 1
          = Ret (s, None)
          ∧ bolt.entries (sl_bkt s) = [(encodeUint64 1, encodeUint64 1)]).
Proof.
  cbv zeta. split_and!.
  - eexists. vm_compute. reflexivity.
  - vm_compute. reflexivity.
  - vm_compute. reflexivity.
  - apply (entry_not_last_id _ 7 0 1 [5]).
    + assert (skiplist_of (store_after (Append 64 NewPostings [(7, [5])] no_faults)) 7
              = [(encodeUint64 0, encodeUint64 1)]) as -> by (vm_compute; reflexivity).
      left.
    + vm_compute. reflexivity.
    + by intros [=].
  - eexists. vm_compute. reflexivity.
  - vm_compute. reflexivity.
  - vm_compute. reflexivity.
  - vm_compute. reflexivity.
  - apply (entry_not_last_id _ 7 58 1 (N.of_nat <$> seq 1 57)).
    + assert (skiplist_of
                (store_after (Append 64 NewPostings [(7, N.of_nat <$> seq 1 60)] no_faults)) 7
              = [(encodeUint64 58, encodeUint64 1); (encodeUint64 60, encodeUint64 2)])
        as -> by (vm_compute; reflexivity).
      left.
    + vm_compute. reflexivity.
    + vm_compute. by intros [=].
  - eexists. vm_compute. reflexivity.
  - vm_compute. reflexivity.
  - vm_compute. reflexivity.
  - eexists. vm_compute. reflexivity.
  - vm_compute. reflexivity.
  - vm_compute. reflexivity.
  - apply (entry_not_last_id _ 7 2 1 [1; 2; 3]).
    + assert (skiplist_of
                (store_after
                   (Append 64 (store_after (Append 64 NewPostings [(7, [1; 2])] no_faults))
                      [(7, [3])] no_faults)) 7
              = [(encodeUint64 2, encodeUint64 1)]) as -> by (vm_compute; reflexivity).
      left.
    + vm_compute. reflexivity.
    + by intros [=].
  - eexists. split; vm_compute; reflexivity.
Qed.



(** ** [Append] returns on well-formed stores *)

Lemma skiplist_bucket_decode (b : bolt.Bucket) (k v : list byte) :
  skiplist_bucket b → bolt.kv b !! k = Some v →
  ∃ d p, decodeUint64 k = Ret d ∧ decodeUint64 v = Ret p.
Proof.
  intros Hwf Hkv. destruct (Hwf k v Hkv) as [(d & Hd & ->) (p & Hp & ->)].
  exists d, p. by rewrite !decodeUint64_encodeUint64.
Qed.

Lemma skiplist_bucket_empty : skiplist_bucket bolt.empty.
Proof. intros k v Hkv. simpl in Hkv. by rewrite lookup_empty in Hkv. Qed.

Lemma skiplist_bucket_insert (b : bolt.Bucket) (d p : N) :
  skiplist_bucket b → d < 2 ^ 64 → p < 2 ^ 64 →
  skiplist_bucket {| bolt.kv := <[encodeUint64 d := encodeUint64 p]> (bolt.kv b);
                     bolt.sequence := bolt.sequence b |}.
Proof.
  intros Hwf Hd Hp k v Hkv. simpl in Hkv.
  apply lookup_insert_Some in Hkv as [[<- <-]|[_ Hkv]]; [|by apply Hwf].
  split; [by exists d|by exists p].
Qed.

Lemma at_entry_elem (b : bolt.Bucket) (o : option (list byte * list byte))
    (k v : list byte) :
  (∀ e, o = Some e → e ∈ bolt.entries b) →
  (bolt.at_entry o).2 = Some (k, v) → bolt.kv b !! k = Some v.
Proof. intros Ho H. simpl in H. by apply elem_of_entries, Ho. Qed.

Lemma bolt_Seek_elem (b : bolt.Bucket) (key k v : list byte) :
  (bolt.Seek b key).2 = Some (k, v) → bolt.kv b !! k = Some v.
Proof.
  apply at_entry_elem. intros e He%head_Some_elem_of.
  by apply list_elem_of_filter in He as [_ He].
Qed.

Lemma bolt_Last_elem (b : bolt.Bucket) (k v : list byte) :
  (bolt.Last b).2 = Some (k, v) → bolt.kv b !! k = Some v.
Proof. apply at_entry_elem. intros e He. by apply last_Some_elem_of. Qed.

Lemma bolt_Prev_elem (b : bolt.Bucket) (c : bolt.Cursor) (k v : list byte) :
  (bolt.Prev b c).2 = Some (k, v) → bolt.kv b !! k = Some v.
Proof.
  destruct c as [k0|]; [|done]. apply at_entry_elem.
  intros e He%last_Some_elem_of.
  by apply list_elem_of_filter in He as [_ He].
Qed.

Lemma seek_returns (s : boltSkiplistCursor) (k : N) :
  skiplist_bucket (sl_bkt s) →
  ∃ s' r, postings_go.seek s k = Ret (s', r) ∧ sl_bkt s' = sl_bkt s.
Proof.
  intros Hwf. unfold postings_go.seek.
  pose proof (bolt_Seek_elem (sl_bkt s) (encodeUint64 k)) as HS.
  destruct (bolt.Seek (sl_bkt s) (encodeUint64 k)) as [c e].
  assert (He : ∃ c1 e1,
             match e with
             | Some _ => (c, e)
             | None => bolt.Last (sl_bkt s)
             end = (c1, e1)
             ∧ ∀ k1 v1, e1 = Some (k1, v1) → bolt.kv (sl_bkt s) !! k1 = Some v1).
  { destruct e as [[k1 v1]|].
    - exists c, (Some (k1, v1)). split; [done|]. intros ? ? [= <- <-]. by apply HS.
    - pose proof (bolt_Last_elem (sl_bkt s)) as HL.
      destruct (bolt.Last (sl_bkt s)) as [c1 e1]. exists c1, e1. split; [done|].
      intros ? ? ->. by apply HL. }
  destruct He as (c1 & e1 & -> & He1).
  destruct e1 as [[db pb]|]; [|by eexists; eexists].
  destruct (skiplist_bucket_decode _ db pb Hwf (He1 _ _ eq_refl)) as (did & pid & -> & ->).
  simpl. destruct (k <? did); [|by eexists; eexists].
  pose proof (bolt_Prev_elem (sl_bkt s) c1) as HP.
  destruct (bolt.Prev (sl_bkt s) c1) as [c' [[dbp pbp]|]].
  - destruct (skiplist_bucket_decode _ dbp pbp Hwf (HP _ _ eq_refl)) as (d' & p' & -> & ->).
    simpl. by eexists; eexists.
  - destruct (bolt.First (sl_bkt s)) as [c'' ?]. by eexists; eexists.
Qed.

Lemma append_returns (s : boltSkiplistCursor) (d p : N) :
  skiplist_bucket (sl_bkt s) → d < 2 ^ 64 → p < 2 ^ 64 →
  ∃ s' err, postings_go.append s d p = Ret (s', err) ∧ skiplist_bucket (sl_bkt s').
Proof.
  intros Hwf Hd Hp. unfold postings_go.append.
  pose proof (bolt_Last_elem (sl_bkt s)) as HL.
  destruct (bolt.Last (sl_bkt s)) as [c [[k v]|]].
  - destruct (skiplist_bucket_decode _ k v Hwf (HL _ _ eq_refl)) as (dk & pk & -> & _).
    simpl. destruct (d <=? dk); [by eexists; eexists|].
    eexists; eexists. split; [done|]. by apply skiplist_bucket_insert.
  - simpl. eexists; eexists. split; [done|]. by apply skiplist_bucket_insert.
Qed.

Section append_returns.
Variable pageDataSize : nat.

Lemma store_page_returns (st : appendState) (d : N) :
  skiplist_bucket (sl_bkt (as_sl st)) → d < 2 ^ 64 →
  ∃ st' err, store_page st d = Ret (st', err)
             ∧ skiplist_bucket (sl_bkt (as_sl st'))
             ∧ as_lastID st' = as_lastID st.
Proof.
  intros Hwf Hd. unfold store_page.
  destruct (as_pid st =? 0).
  - simpl.
    destruct (append_returns (as_sl st) d ((pagebuf.last_id (as_pbtx st) + 1) mod 2 ^ 64))
      as (sl' & err & -> & Hwf'); [done|done|by apply N.mod_upper_bound|].
    simpl. by eexists; eexists.
  - destruct (pagebuf.Set_ (as_pbtx st) (as_pid st) (as_pg st)) as [pbtx err].
    by eexists; eexists.
Qed.

Lemma postingsAppend_loop_returns (ids : list N) (st : appendState) :
  skiplist_bucket (sl_bkt (as_sl st)) → Forall (λ id, id < 2 ^ 64) ids →
  as_lastID st < 2 ^ 64 →
  ∃ st' err, postingsAppend_loop pageDataSize st ids = Ret (st', err)
             ∧ skiplist_bucket (sl_bkt (as_sl st'))
             ∧ as_lastID st' < 2 ^ 64.
Proof.
  revert st. induction ids as [|id ids IH]; intros st Hwf Hids Hlast.
  { by eexists; eexists. }
  apply Forall_cons in Hids as [Hid Hids].
  cbn [postingsAppend_loop as_pg as_pid as_lastID as_sl as_pbtx].
  destruct (page.append (as_pg st) id) as [pg [e|]].
  - destruct (is_errPageFull e); [|by eexists; eexists].
    destruct (store_page_returns
                {| as_pg := as_pg st; as_pid := as_pid st; as_lastID := id;
                   as_sl := as_sl st; as_pbtx := as_pbtx st |} id)
      as (st1 & [e1|] & -> & Hwf1 & Hl1); [done|done| |].
    + simpl. eexists; eexists. split; [done|]. split; [done|].
      by rewrite Hl1.
    + simpl. destruct (createPage pageDataSize id) as [pg' [e2|]].
      * eexists; eexists. split; [done|]. split; [done|]. simpl. by rewrite Hl1.
      * apply IH; [done|done|]. simpl. by rewrite Hl1.
  - apply IH; [done|done|done].
Qed.

Lemma skiplists_wf_insert (sls : skiplists) (key : list byte) (b : bolt.Bucket) :
  skiplists_wf sls → skiplist_bucket b → skiplists_wf (<[key := b]> sls).
Proof.
  intros Hwf Hb key' b' Hl.
  apply lookup_insert_Some in Hl as [[_ <-]|[_ Hl]]; [done|by apply (Hwf key')].
Qed.

Lemma CreateBucketIfNotExists_wf (sls : skiplists) (key : list byte) :
  skiplists_wf sls →
  skiplists_wf (CreateBucketIfNotExists sls key).1
  ∧ skiplist_bucket (CreateBucketIfNotExists sls key).2.
Proof.
  intros Hwf. unfold CreateBucketIfNotExists.
  destruct (sls !! key) as [b|] eqn:E; simpl.
  - split; [done|]. by apply (Hwf key).
  - split; [|apply skiplist_bucket_empty].
    apply skiplists_wf_insert; [done|apply skiplist_bucket_empty].
Qed.

Lemma finish_returns (sls : skiplists) (key : N)
    (r : outcome (appendState * option error)) :
  skiplists_wf sls →
  (∃ st err, r = Ret (st, err) ∧ skiplist_bucket (sl_bkt (as_sl st))
             ∧ as_lastID st < 2 ^ 64) →
  ∃ sls' pbtx' err',
    ('(st, err) ← r;
     match err with
     | Some e => Ret (<[encodeUint64 key := sl_bkt (as_sl st)]> sls, as_pbtx st, Some e)
     | None =>
         '(st, err) ← store_page st (as_lastID st);
         Ret (<[encodeUint64 key := sl_bkt (as_sl st)]> sls, as_pbtx st, err)
     end) = Ret (sls', pbtx', err')
    ∧ skiplists_wf sls'.
Proof.
  intros Hwf (st & err & -> & Hb & Hl). simpl.
  destruct err as [e|].
  - eexists; eexists; eexists. split; [done|]. by apply skiplists_wf_insert.
  - destruct (store_page_returns st (as_lastID st) Hb Hl) as (st' & err' & -> & Hb' & _).
    simpl. eexists; eexists; eexists. split; [done|]. by apply skiplists_wf_insert.
Qed.

Lemma postingsAppend_returns (sls : skiplists) (pbtx : pagebuf.Tx) (key : N)
    (ids : list N) :
  skiplists_wf sls → Forall (λ id, id < 2 ^ 64) ids →
  ∃ sls' pbtx' err,
    postingsAppend pageDataSize sls pbtx key ids = Ret (sls', pbtx', err)
    ∧ skiplists_wf sls'.
Proof.
  intros Hwf Hids. unfold postingsAppend.
  destruct ids as [|id0 ids']; [by eexists; eexists; eexists|].
  apply Forall_cons in Hids as Hids'. destruct Hids' as [Hid0 Hids'].
  destruct (CreateBucketIfNotExists_wf sls (encodeUint64 key) Hwf) as [Hwf1 Hb].
  destruct (CreateBucketIfNotExists sls (encodeUint64 key)) as [sls1 b].
  simpl in Hwf1, Hb.
  destruct (seek_returns {| sl_k := key; sl_c := None; sl_bkt := b |} MaxUint64 Hb)
    as (sl & [[v pid] err] & -> & Hsl).
  simpl in Hsl. cbn [mbind outcome_mbind outcome_bind].
  assert (Hb' : skiplist_bucket (sl_bkt sl)) by (by rewrite Hsl).
  destruct err as [e|].
  - destruct (is_EOF e).
    + destruct (createPage pageDataSize id0) as [pg [e'|]].
      * eexists; eexists; eexists. split; [done|]. by apply skiplists_wf_insert.
      * apply (finish_returns sls1 key); [done|].
        apply postingsAppend_loop_returns; [done|done|simpl; lia].
    + eexists; eexists; eexists. split; [done|]. by apply skiplists_wf_insert.
  - destruct (pagebuf.Get pbtx pid) as [[pdata|] err'].
    + apply (finish_returns sls1 key); [done|].
      apply postingsAppend_loop_returns; [done|done|simpl; lia].
    + eexists; eexists; eexists. split; [done|]. by apply skiplists_wf_insert.
Qed.

Lemma apply_batches_returns (batches : list (N * list N)) (sls : skiplists)
    (pbtx : pagebuf.Tx) :
  skiplists_wf sls → batches_uint64 batches →
  ∃ sls' pbtx' err,
    apply_batches pageDataSize sls pbtx batches = Ret (sls', pbtx', err)
    ∧ skiplists_wf sls'.
Proof.
  revert sls pbtx. induction batches as [|[k ids] batches IH]; intros sls pbtx Hwf Hb.
  { by eexists; eexists; eexists. }
  apply Forall_cons in Hb as [Hids Hb]. simpl in Hids.
  cbn [apply_batches].
  destruct (postingsAppend_returns sls pbtx k ids Hwf Hids)
    as (sls1 & pbtx1 & [e|] & -> & Hwf1); simpl.
  - by eexists; eexists; eexists.
  - by apply IH.
Qed.

End append_returns.



(* ===================================================================== *)
(** * Part III: further properties of the code                             *)
(* ===================================================================== *)

(** ** Set-algebra iterators over any number of children *)












(** ** [plainListIterator] on arbitrary lists *)

Lemma Next_plain (n : nat) (l : list N) (pos : nat) :
  Next n (plainListIterator l pos) = plainListIterator_Next l pos.
Proof. by destruct n. Qed.

Lemma Seek_plain (n : nat) (l : list N) (pos : nat) (id : N) :
  Seek n (plainListIterator l pos) id = plainListIterator_Seek l id.
Proof. by destruct n. Qed.

Lemma ExpandIterator_loop_plain (L : list N) :
  ∀ rest it r res,
    hd_result rest r → R_plain L it (tail rest) →
    returns (λ n, ExpandIterator_loop n it res r) (res ++ rest, None).
Proof.
  intros rest. induction rest as [|x rest IH]; intros it [v e] res Hr HR.
  - simpl in Hr. subst e. exists 0%nat. intros m _.
    destruct m; simpl; by rewrite app_nil_r.
  - simpl in Hr. injection Hr as -> ->. simpl in HR.
    destruct HR as (pos & -> & Hrest).
    destruct (plainListIterator_Next_spec L pos) as (it' & r' & Hn & Hh & HR').
    rewrite <- Hrest in Hh, HR'.
    destruct (IH it' r' (res ++ [x]) Hh HR') as [k Hk].
    rewrite <- app_assoc in Hk. simpl in Hk.
    exists (S k). intros m Hm. destruct m as [|m]; [lia|].
    cbn [ExpandIterator_loop]. rewrite Next_plain, Hn, bind_Ret.
    apply Hk. lia.
Qed.

(** X4: on any list, sorted or not and with or without duplicates,
    [ExpandIterator] over [newPlainListIterator] returns without error
    the sorted list: ascending and a permutation of the input, duplicates
    kept. *)
Theorem newPlainListIterator_expand_sorts (l : list N) :
  returns (λ n, ExpandIterator n (newPlainListIterator l)) (sort.Sort l, None)
  ∧ StronglySorted N.le (sort.Sort l)
  ∧ sort.Sort l ≡ₚ l.
Proof.
  split_and!.
  - unfold ExpandIterator, newPlainListIterator.
    destruct (Search_spec (length (sort.Sort l))
                (λ i, x ← index (sort.Sort l) i; Ret (0 <=? x)) (λ _, true))
      as (r & Hr & _ & Hlo & _).
    { intros h Hh. unfold index.
      destruct (lookup_lt_is_Some_2 _ h Hh) as [x ->]. simpl.
      by destruct (N.leb_spec 0 x); [|lia]. }
    { done. }
    { done. }
    assert (r = 0%nat) as ->.
    { destruct r as [|r]; [done|]. by specialize (Hlo 0%nat ltac:(lia)). }
    destruct (plainListIterator_Next_spec (sort.Sort l) 0) as (it & res & Hn & Hh & HR).
    rewrite drop_0 in Hh, HR.
    destruct (ExpandIterator_loop_plain (sort.Sort l) (sort.Sort l) it res [] Hh HR)
      as [k Hk].
    exists k. intros n Hn'.
    rewrite Seek_plain. unfold plainListIterator_Seek.
    rewrite Hr, bind_Ret, Hn, bind_Ret. cbn iota beta.
    by apply Hk.
  - apply StronglySorted_merge_sort; apply _.
  - apply merge_sort_Permutation.
Qed.

(** X5: on a strictly ascending list, [Seek] of [plainListIterator]
    returns, from whatever position, the least ID not below the target,
    or [io.EOF] when every ID is below it; the calls to [Next] after it
    return the IDs that follow. *)
Theorem plainListIterator_Seek_least (l : list N) (pos : nat) (id : N) (n : nat) :
  StronglySorted N.lt l →
  ∃ it' r,
    Seek n (plainListIterator l pos) id = Ret (it', r)
    ∧ hd_result (filter (N.le id) l) r
    ∧ returns (λ m, ExpandIterator_loop m it' [] r) (filter (N.le id) l, None).
Proof.
  intros Hl.
  pose proof (plain_AscendingSpec l Hl) as HS.
  destruct (asc_Seek _ _ _ HS (plainListIterator l pos) id) as (it' & r & Hr & Hh & HR).
  { by exists pos. }
  exists it', r. split_and!; [|done|].
  - destruct Hr as [k Hk]. specialize (Hk k ltac:(lia)).
    by rewrite Seek_plain in *.
  - apply (ExpandIterator_loop_ascending _ _ _ HS _ it' r [] Hh HR).
Qed.

Lemma plainListIterator_Seek_least_witness :
  StronglySorted N.lt [1; 4; 9]
  ∧ ∃ it' r, Seek 0 (plainListIterator [1; 4; 9] 3) 2 = Ret (it', r) ∧ r = (4, None).
Proof.
  assert (H : StronglySorted N.lt [1; 4; 9]) by (repeat constructor; lia).
  split; [exact H|].
  destruct (plainListIterator_Seek_least [1; 4; 9] 3 2 0 H) as (it' & r & Hs & Hh & _).
  exists it', r. split; [exact Hs|exact Hh].
Defined.

(** ** [plainSkiplistIterator.seek]: the entry it returns *)

Lemma plainSkiplistIterator_next_at (m : gmap N N) (ks : list N) (j : nat) (k : N) :
  ks !! j = Some k →
  plainSkiplistIterator_next {| psi_m := m; psi_keys := ks; psi_pos := j |}
  = Ret ({| psi_m := m; psi_keys := ks; psi_pos := S j |}, (k, default 0 (m !! k), None)).
Proof.
  intros Hj. unfold plainSkiplistIterator_next. simpl.
  pose proof (lookup_lt_Some _ _ _ Hj).
  destruct (Nat.leb_spec (length ks) j); [lia|].
  unfold index. rewrite Hj. simpl. by rewrite Nat.add_1_r.
Qed.

Lemma plainSkiplistIterator_seek_at (m : gmap N N) (ks : list N) (p j : nat) (id k : N) :
  StronglySorted N.lt ks →
  ks !! j = Some k →
  (k ≤ id ∧ (∀ x, ks !! S j = Some x → id < x) ∧ (k < id → is_Some (ks !! S j)))
  ∨ (j = 0%nat ∧ id < k) →
  plainSkiplistIterator_seek {| psi_m := m; psi_keys := ks; psi_pos := p |} id
  = Ret ({| psi_m := m; psi_keys := ks; psi_pos := S j |}, (k, default 0 (m !! k), None)).
Proof.
  intros Hs Hj Hcase.
  destruct (Search_keys ks id Hs) as (r & Hr & Hle & Hlo & Hhi).
  unfold plainSkiplistIterator_seek. cbn [psi_keys psi_m psi_pos]. rewrite Hr, bind_Ret.
  destruct Hcase as [(Hk & Hnext & Hex)|[-> Hk]].
  - destruct (decide (k = id)) as [->|Hne].
    + assert (r = j) as ->.
      { destruct (decide (r ≤ j)%nat) as [Hrj|Hrj].
        - destruct (decide (r = j)) as [|Hne]; [done|].
          destruct (lookup_lt_is_Some_2 ks r) as [x Hx].
          { apply lookup_lt_Some in Hj. lia. }
          pose proof (Hhi r x ltac:(lia) Hx).
          pose proof (sorted_lt_lookup ks r j x id Hs Hx Hj ltac:(lia)). lia.
        - pose proof (Hlo j id ltac:(lia) Hj). lia. }
      destruct (Nat.ltb_spec 0 j).
      * unfold index. rewrite Hj. simpl. rewrite N.ltb_irrefl.
        by apply plainSkiplistIterator_next_at.
      * simpl. by apply plainSkiplistIterator_next_at.
    + destruct (Hex ltac:(lia)) as [x Hx].
      pose proof (Hnext x Hx) as Hxid.
      assert (r = S j) as ->.
      { destruct (decide (r ≤ S j)%nat) as [Hrj|Hrj].
        - destruct (decide (r = S j)) as [|Hne']; [done|].
          pose proof (Hhi j k ltac:(lia) Hj). lia.
        - pose proof (Hlo (S j) x ltac:(lia) Hx). lia. }
      destruct (Nat.ltb_spec 0 (S j)); [|lia].
      unfold index. rewrite Hx. simpl.
      destruct (N.ltb_spec id x); [|lia].
      rewrite ?Nat.sub_0_r.
      by apply plainSkiplistIterator_next_at.
  - assert (r = 0%nat) as ->.
    { destruct r as [|r]; [done|].
      pose proof (Hlo 0%nat k ltac:(lia) Hj). lia. }
    simpl. by apply plainSkiplistIterator_next_at.
Qed.

(** X6: away from the panic of C9, [seek] on a map returns the entry of
    the greatest key not above the sought ID, with the pointer stored
    for it; when every key is above the ID it returns the entry of the
    least key. *)
Theorem plainSkiplistIterator_seek_floor (m : gmap N N) (id k v : N) :
  m !! k = Some v →
  (k ≤ id
   ∧ (∀ k', is_Some (m !! k') → k' ≤ id → k' ≤ k)
   ∧ (∃ k', is_Some (m !! k') ∧ id ≤ k'))
  ∨ (id < k ∧ ∀ k', is_Some (m !! k') → k ≤ k') →
  ∃ it', plainSkiplistIterator_seek (newPlainSkiplistIterator m) id
         = Ret (it', (k, v, None)).
Proof.
  intros Hkv Hcase.
  pose proof (newPlainSkiplistIterator_keys_sorted m) as Hs.
  pose proof (newPlainSkiplistIterator_keys m) as Hk.
  unfold newPlainSkiplistIterator in *. cbn [psi_keys] in *.
  set (ks := sort.Sort (map_to_list m).*1) in *. clearbody ks.
  assert (Hin : k ∈ ks) by (apply Hk; by exists v).
  apply list_elem_of_lookup in Hin as [j Hj].
  eexists.
  rewrite (plainSkiplistIterator_seek_at m ks 0 j id k Hs Hj).
  { by rewrite Hkv. }
  destruct Hcase as [(Hle & Hmax & (k' & Hk' & Hge))|[Hlt Hmin]].
  - left. split_and!; [done| |].
    + intros x Hx.
      destruct (decide (id < x)) as [|Hnlt]; [done|].
      assert (x ≤ k).
      { apply Hmax; [|lia]. apply Hk. by apply list_elem_of_lookup_2 in Hx. }
      pose proof (sorted_lt_lookup ks j (S j) k x Hs Hj Hx ltac:(lia)). lia.
    + intros Hklt.
      apply Hk, list_elem_of_lookup in Hk' as [i Hi].
      apply lookup_lt_is_Some_2.
      destruct (decide (j < i)%nat) as [|Hji].
      { apply lookup_lt_Some in Hi. lia. }
      destruct (decide (i = j)) as [->|]; [rewrite Hj in Hi; injection Hi as <-; lia|].
      pose proof (sorted_lt_lookup ks i j k' k Hs Hi Hj ltac:(lia)). lia.
  - right. split; [|done].
    destruct j as [|j]; [done|].
    destruct (lookup_lt_is_Some_2 ks 0) as [x Hx].
    { apply lookup_lt_Some in Hj. lia. }
    assert (k ≤ x).
    { apply Hmin, Hk. by apply list_elem_of_lookup_2 in Hx. }
    pose proof (sorted_lt_lookup ks 0 (S j) x k Hs Hx Hj ltac:(lia)). lia.
Qed.

Lemma plainSkiplistIterator_seek_floor_witness :
  ∃ it', plainSkiplistIterator_seek
           (newPlainSkiplistIterator (<[ 10 := 2 ]> {[ 1 := 1 ]})) 5
         = Ret (it', (1, 1, None)).
Proof.
  apply (plainSkiplistIterator_seek_floor (<[ 10 := 2 ]> {[ 1 := 1 ]}) 5 1 1).
  - reflexivity.
  - left. split_and!; [lia| |].
    + intros k' [v Hv] Hle.
      apply lookup_insert_Some in Hv as [[<- _]|[_ Hv]]; [lia|].
      apply lookup_singleton_Some in Hv as [<- _]. lia.
    + exists 10. split; [by exists 2|lia].
Defined.

(** ** [skippingIterator] over an in-memory skiplist *)

Lemma plainListIterator_Seek_0 (L : list N) :
  plainListIterator_Seek L 0 = plainListIterator_Next L 0.
Proof.
  unfold plainListIterator_Seek.
  destruct (Search_spec (length L) (λ i, x ← index L i; Ret (0 <=? x)) (λ _, true))
    as (r & Hr & _ & Hlo & _).
  - intros h Hh. unfold index.
    destruct (lookup_lt_is_Some_2 _ h Hh) as [x ->]. simpl.
    by destruct (N.leb_spec 0 x); [|lia].
  - done.
  - done.
  - assert (r = 0%nat) as ->.
    { destruct r as [|r]; [done|]. by specialize (Hlo 0%nat ltac:(lia)). }
    by rewrite Hr.
Qed.

Lemma plainListIterator_Seek_all_below (L : list N) (id : N) :
  Forall (λ x, x < id) L →
  plainListIterator_Seek L id = Ret (plainListIterator L (length L), (0, Some EOF)).
Proof.
  intros HL. unfold plainListIterator_Seek.
  destruct (Search_spec (length L) (λ i, x ← index L i; Ret (id <=? x))
              (λ h, (length L <=? h)%nat))
    as (r & Hr & Hle & _ & Hhi).
  - intros h Hh. unfold index.
    destruct (lookup_lt_is_Some_2 _ h Hh) as [x Hx]. rewrite Hx. simpl.
    rewrite Forall_lookup in HL. specialize (HL h x Hx).
    destruct (N.leb_spec id x); [lia|].
    by destruct (Nat.leb_spec (length L) h); [lia|].
  - intros h h' Hh Hp. apply Nat.leb_le in Hp. apply Nat.leb_le. lia.
  - intros k Hk. by apply Nat.leb_le.
  - assert (r = length L) as ->.
    { destruct (decide (r = length L)) as [|Hne]; [done|].
      specialize (Hhi r ltac:(lia)). apply Nat.leb_le in Hhi. lia. }
    rewrite Hr, bind_Ret. unfold plainListIterator_Next.
    by rewrite Nat.leb_refl.
Qed.

Lemma plainSkiplistIterator_next_end (m : gmap N N) (ks : list N) (j : nat) :
  (length ks ≤ j)%nat →
  plainSkiplistIterator_next {| psi_m := m; psi_keys := ks; psi_pos := j |}
  = Ret ({| psi_m := m; psi_keys := ks; psi_pos := j |}, (0, 0, Some EOF)).
Proof.
  intros Hj. unfold plainSkiplistIterator_next. simpl.
  by destruct (Nat.leb_spec (length ks) j); [|lia].
Qed.

Lemma sort_nonempty (l : list N) : l ≠ [] → ∃ x r, sort.Sort l = x :: r.
Proof.
  intros Hl. destruct (sort.Sort l) as [|x r] eqn:E; [|by eauto].
  exfalso. apply Hl. apply Permutation_nil_r.
  rewrite <- E. unfold sort.Sort. by rewrite merge_sort_Permutation.
Qed.

Section plain_skipping.
Variables (m : gmap N N) (pages : gmap N (list N)) (ks : list N).

Lemma skipping_Next_more (j : nat) (L : list N) (p : nat) (x : N) (n : nat) :
  L !! p = Some x →
  skippingIterator_Next n (skipping_state m pages ks j L p)
  = Ret (skipping_state m pages ks j L (S p), (x, None)).
Proof.
  intros Hx. unfold skippingIterator_Next, skipping_state.
  cbn [sk_cur sk_skiplist sk_iterators sk_close].
  rewrite Next_plain. unfold plainListIterator_Next.
  pose proof (lookup_lt_Some _ _ _ Hx).
  destruct (Nat.leb_spec (length L) p); [lia|].
  unfold index. rewrite Hx, !bind_Ret. by rewrite Nat.add_1_r.
Qed.

Lemma skipping_Next_end (j : nat) (L : list N) (p : nat) (n : nat) :
  (length L ≤ p)%nat → (length ks ≤ j)%nat →
  skippingIterator_Next n (skipping_state m pages ks j L p)
  = Ret (skipping_state m pages ks j L p, (0, Some EOF)).
Proof.
  intros Hp Hj. unfold skippingIterator_Next, skipping_state.
  cbn [sk_cur sk_skiplist sk_iterators sk_close].
  rewrite Next_plain. unfold plainListIterator_Next.
  destruct (Nat.leb_spec (length L) p); [|lia].
  rewrite bind_Ret. cbn [is_EOF negb].
  cbn [skiplist_next plainSkiplistIterator_skiplistIterator].
  rewrite plainSkiplistIterator_next_end by lia. by rewrite bind_Ret.
Qed.

(** Entering the non-empty list behind [ptr] at its start. *)
Lemma skipping_enter_0 (c : option Iterator) (j : nat) (ptr : N) (l : list N)
    (x : N) (r : list N) (n : nat) :
  pages !! ptr = Some l → sort.Sort l = x :: r →
  skippingIterator_enter n
    (mkSkippingIterator {| psi_m := m; psi_keys := ks; psi_pos := j |}
       (sk_iterators (plain_skippingIterator m pages)) None c)
    {| psi_m := m; psi_keys := ks; psi_pos := S j |} ptr 0
  = Ret (skipping_state m pages ks (S j) (sort.Sort l) 1, (x, None)).
Proof.
  intros Hp Hs. unfold skippingIterator_enter.
  cbn [plain_skippingIterator sk_iterators sk_close sk_cur]. rewrite Hp.
  unfold newPlainListIterator. rewrite Seek_plain, plainListIterator_Seek_0.
  unfold plainListIterator_Next. rewrite Hs. by cbn.
Qed.

Lemma skipping_Next_page (j : nat) (L : list N) (p : nat) (k : N) (l : list N)
    (x : N) (r : list N) (n : nat) :
  (length L ≤ p)%nat → ks !! j = Some k → pages_of m pages k l →
  sort.Sort l = x :: r →
  skippingIterator_Next n (skipping_state m pages ks j L p)
  = Ret (skipping_state m pages ks (S j) (sort.Sort l) 1, (x, None)).
Proof.
  intros Hp Hk (ptr & Hm & Hpg & _) Hs.
  unfold skippingIterator_Next, skipping_state.
  cbn [sk_cur sk_skiplist sk_iterators sk_close].
  rewrite Next_plain. unfold plainListIterator_Next.
  destruct (Nat.leb_spec (length L) p); [|lia].
  rewrite bind_Ret. cbn [is_EOF negb].
  cbn [skiplist_next plainSkiplistIterator_skiplistIterator].
  rewrite (plainSkiplistIterator_next_at m ks j k Hk), bind_Ret.
  rewrite Hm. cbn [default from_option].
  by apply (skipping_enter_0 _ j ptr l x r n).
Qed.

Lemma plain_skipping_Expand_loop (ls : list (list N)) :
  Forall2 (pages_of m pages) ks ls →
  ∀ (d : nat) (j : nat), (length ks - j ≤ d)%nat →
  ∀ (e : nat) (L : list N) (p : nat), (length L - p ≤ e)%nat →
  ∀ (v : N) (res : list N),
    returns (λ n, skippingIterator_Expand_loop n (skipping_state m pages ks j L p)
                    res (v, None))
            (res ++ [v] ++ drop p L ++ concat (sort.Sort <$> drop j ls), None).
Proof.
  intros HF. pose proof (Forall2_length _ _ _ HF) as Hlen.
  assert (Hmore : ∀ j L p v res x,
    L !! p = Some x →
    returns (λ n, skippingIterator_Expand_loop n (skipping_state m pages ks j L (S p))
                    (res ++ [v]) (x, None))
            ((res ++ [v]) ++ [x] ++ drop (S p) L ++ concat (sort.Sort <$> drop j ls), None) →
    returns (λ n, skippingIterator_Expand_loop n (skipping_state m pages ks j L p)
                    res (v, None))
            (res ++ [v] ++ drop p L ++ concat (sort.Sort <$> drop j ls), None)).
  { intros j L p v res x Hx [n0 Hn0].
    exists (S n0). intros n Hn. destruct n as [|n]; [lia|].
    cbn [skippingIterator_Expand_loop].
    rewrite (skipping_Next_more j L p x n Hx), bind_Ret. cbn iota beta.
    rewrite (Hn0 n ltac:(lia)).
    rewrite (drop_S L x p Hx). by rewrite <- !app_assoc. }
  assert (Hend : ∀ j L p v res,
    (length L ≤ p)%nat → (length ks ≤ j)%nat →
    returns (λ n, skippingIterator_Expand_loop n (skipping_state m pages ks j L p)
                    res (v, None))
            (res ++ [v] ++ drop p L ++ concat (sort.Sort <$> drop j ls), None)).
  { intros j L p v res Hp Hj.
    exists 1%nat. intros n Hn. destruct n as [|n]; [lia|].
    cbn [skippingIterator_Expand_loop].
    rewrite (skipping_Next_end j L p n Hp Hj), bind_Ret. cbn iota beta.
    destruct n; cbn [skippingIterator_Expand_loop is_EOF];
      rewrite drop_ge by lia; rewrite (drop_ge ls) by lia;
      simpl; by rewrite ?app_nil_r. }
  induction d as [|d IHd]; intros j Hd e;
    (induction e as [|e IHe]; intros L p He v res).
  - apply Hend; lia.
  - destruct (decide (length L ≤ p)%nat) as [Hp|Hp]; [apply Hend; lia|].
    destruct (lookup_lt_is_Some_2 L p ltac:(lia)) as [x Hx].
    apply (Hmore j L p v res x Hx). apply IHe. lia.
  - destruct (decide (length ks ≤ j)%nat) as [Hj|Hj]; [apply Hend; lia|].
    destruct (lookup_lt_is_Some_2 ks j ltac:(lia)) as [k Hk].
    destruct (lookup_lt_is_Some_2 ls j ltac:(lia)) as [l Hl].
    pose proof (Forall2_lookup_lr _ _ _ _ _ _ HF Hk Hl) as Hpg.
    pose proof Hpg as (ptr & _ & _ & Hne).
    destruct (sort_nonempty l Hne) as (x & r & Hs).
    destruct (IHd (S j) ltac:(lia) (length r) (sort.Sort l) 1%nat
                ltac:(rewrite Hs; simpl; lia) x (res ++ [v])) as [n0 Hn0].
    exists (S n0). intros n Hn. destruct n as [|n]; [lia|].
    cbn [skippingIterator_Expand_loop].
    rewrite (skipping_Next_page j L p k l x r n ltac:(lia) Hk Hpg Hs), bind_Ret.
    cbn iota beta.
    rewrite (Hn0 n ltac:(lia)).
    rewrite (drop_ge L) by lia.
    rewrite (drop_S ls l j Hl). rewrite fmap_cons. cbn [concat].
    rewrite Hs. cbn [drop]. rewrite drop_0.
    by rewrite <- !app_assoc.
  - destruct (decide (length L ≤ p)%nat) as [Hp|Hp].
    { apply (IHe L p). lia. }
    destruct (lookup_lt_is_Some_2 L p ltac:(lia)) as [x Hx].
    apply (Hmore j L p v res x Hx). apply IHe. lia.
Qed.

End plain_skipping.

(** X7: when every key of the in-memory skiplist points to a non-empty
    list, [ExpandIterator] over the [skippingIterator] returns without
    error the lists in ascending order of their keys, each one sorted,
    one after the other. *)
Theorem skippingIterator_expand_concat (m : gmap N N) (pages : gmap N (list N))
    (ls : list (list N)) :
  Forall2 (pages_of m pages) (psi_keys (newPlainSkiplistIterator m)) ls →
  returns (λ n, skippingIterator_Expand n (plain_skippingIterator m pages))
          (concat (sort.Sort <$> ls), None).
Proof.
  intros HF.
  pose proof (newPlainSkiplistIterator_keys_sorted m) as Hsort.
  unfold newPlainSkiplistIterator in *. cbn [psi_keys] in *.
  set (ks := sort.Sort (map_to_list m).*1) in *.
  assert (Hks : sort.Sort (map_to_list m).*1 = ks) by done.
  clearbody ks.
  unfold skippingIterator_Expand, skippingIterator_Seek, plain_skippingIterator.
  cbn [sk_skiplist sk_iterators sk_close sk_cur].
  cbn [skiplist_seek plainSkiplistIterator_skiplistIterator].
  unfold newPlainSkiplistIterator. rewrite Hks.
  destruct HF as [|k l ks' ls' Hkl HF'].
  - (* the empty skiplist *)
    exists 0%nat. intros n _.
    unfold plainSkiplistIterator_seek. cbn [psi_keys psi_m psi_pos length].
    unfold sort.Search. destruct n; by cbn.
  - pose proof Hkl as (ptr & Hm & Hp & Hne).
    destruct (sort_nonempty l Hne) as (x & r & Hs).
    assert (HF : Forall2 (pages_of m pages) (k :: ks') (l :: ls')) by by constructor.
    destruct (plain_skipping_Expand_loop m pages (k :: ks') (l :: ls') HF
                (length ks') 1%nat ltac:(simpl; lia) (length r) (sort.Sort l) 1%nat
                ltac:(rewrite Hs; simpl; lia) x []) as [n0 Hn0].
    exists n0. intros n Hn.
    rewrite (plainSkiplistIterator_seek_at m (k :: ks') 0 0 0 k Hsort eq_refl).
    2:{ destruct (decide (k = 0)) as [->|Hk0]; [|right; split; [done|lia]].
        left. split_and!; [lia| |lia].
        intros y Hy. apply StronglySorted_inv in Hsort as [_ Hall].
        rewrite Forall_forall in Hall. apply Hall.
        simpl in Hy. by apply list_elem_of_lookup_2 in Hy. }
    rewrite bind_Ret. rewrite Hm. cbn [default from_option]. unfold Datatypes.id.
    pose proof (skipping_enter_0 m pages (k :: ks') None 0 ptr l x r n Hp Hs) as He.
    cbn [plain_skippingIterator sk_iterators] in He. rewrite He, bind_Ret.
    cbn iota beta.
    rewrite (Hn0 n Hn). rewrite Hs. cbn [drop fmap list_fmap concat app].
    rewrite drop_0, Hs. done.
Qed.

Lemma skippingIterator_expand_concat_witness :
  returns (λ n, skippingIterator_Expand n
                  (plain_skippingIterator (<[ 10 := 2 ]> {[ 1 := 1 ]})
                     (<[ 2 := [11; 10] ]> {[ 1 := [3; 1; 2] ]})))
          ([1; 2; 3; 10; 11], None).
Proof.
  apply (skippingIterator_expand_concat (<[ 10 := 2 ]> {[ 1 := 1 ]})
           (<[ 2 := [11; 10] ]> {[ 1 := [3; 1; 2] ]}) [[3; 1; 2]; [11; 10]]).
  change (psi_keys (newPlainSkiplistIterator (<[ 10 := 2 ]> {[ 1 := 1 ]})))
    with [1; 10].
  repeat constructor.
  - exists 1. split_and!; [reflexivity|reflexivity|discriminate].
  - exists 2. split_and!; [reflexivity|reflexivity|discriminate].
Defined.

(** X8: when the sought ID lies between two adjacent keys of the
    in-memory skiplist and the list of the lower key holds only smaller
    IDs, [Seek] returns [io.EOF]; the list of the upper key is not
    looked at, and the call to [Next] after it returns that list's least
    ID. *)
Theorem skippingIterator_Seek_gap (m : gmap N N) (pages : gmap N (list N))
    (id k ptr k2 : N) (l l2 : list N) (n : nat) :
  m !! k = Some ptr → pages !! ptr = Some l →
  Forall (λ x, x < id) l →
  pages_of m pages k2 l2 →
  k ≤ id < k2 →
  (∀ k', is_Some (m !! k') → k' ≤ k ∨ k2 ≤ k') →
  ∃ it' it'' v,
    skippingIterator_Seek n (plain_skippingIterator m pages) id
    = Ret (it', (0, Some EOF))
    ∧ skippingIterator_Next n it' = Ret (it'', (v, None))
    ∧ head (sort.Sort l2) = Some v.
Proof.
  intros Hm Hp Hl Hpg2 [Hle Hlt] Hadj.
  pose proof (newPlainSkiplistIterator_keys_sorted m) as Hsort.
  pose proof (newPlainSkiplistIterator_keys m) as Hkeys.
  unfold skippingIterator_Seek, plain_skippingIterator.
  cbn [sk_skiplist sk_iterators sk_close sk_cur].
  cbn [skiplist_seek plainSkiplistIterator_skiplistIterator].
  unfold newPlainSkiplistIterator in *. cbn [psi_keys] in *.
  set (ks := sort.Sort (map_to_list m).*1) in *. clearbody ks.
  pose proof Hpg2 as (ptr2 & Hm2 & Hp2 & Hne2).
  destruct (sort_nonempty l2 Hne2) as (x & r & Hs2).
  assert (Hin : k ∈ ks) by (apply Hkeys; by exists ptr).
  apply list_elem_of_lookup in Hin as [j Hj].
  assert (Hin2 : k2 ∈ ks) by (apply Hkeys; by exists ptr2).
  apply list_elem_of_lookup in Hin2 as [i Hi].
  assert (Hji : (j < i)%nat).
  { destruct (decide (j < i)%nat) as [|Hn]; [done|].
    destruct (decide (i = j)) as [->|]; [rewrite Hj in Hi; injection Hi as <-; lia|].
    pose proof (sorted_lt_lookup ks i j k2 k Hsort Hi Hj ltac:(lia)). lia. }
  assert (Hj2 : ks !! S j = Some k2).
  { destruct (lookup_lt_is_Some_2 ks (S j)) as [y Hy].
    { apply lookup_lt_Some in Hi. lia. }
    pose proof (sorted_lt_lookup ks j (S j) k y Hsort Hj Hy ltac:(lia)).
    destruct (Hadj y) as [?|Hge]; [|lia|].
    { apply Hkeys. by apply list_elem_of_lookup_2 in Hy. }
    destruct (decide (S j = i)) as [<-|]; [done|].
    pose proof (sorted_lt_lookup ks (S j) i y k2 Hsort Hy Hi ltac:(lia)). lia. }
  exists (skipping_state m pages ks (S j) (sort.Sort l) (length (sort.Sort l))),
         (skipping_state m pages ks (S (S j)) (sort.Sort l2) 1), x.
  split_and!.
  - rewrite (plainSkiplistIterator_seek_at m ks 0 j id k Hsort Hj).
    2:{ left. split_and!; [done| |by rewrite Hj2].
        intros y Hy. rewrite Hj2 in Hy. injection Hy as <-. lia. }
    rewrite bind_Ret, Hm. cbn [default from_option]. unfold Datatypes.id.
    unfold skippingIterator_enter. cbn [sk_iterators sk_close sk_cur]. rewrite Hp.
    unfold newPlainListIterator. rewrite Seek_plain.
    rewrite plainListIterator_Seek_all_below; [done|].
    unfold sort.Sort. by rewrite merge_sort_Permutation.
  - apply (skipping_Next_page m pages ks (S j) _ _ k2 l2 x r n); [lia|done..].
  - by rewrite Hs2.
Qed.

Lemma skippingIterator_Seek_gap_witness :
  ∃ it' it'' v,
    skippingIterator_Seek 0
      (plain_skippingIterator (<[ 10 := 2 ]> {[ 1 := 1 ]})
         (<[ 2 := [10; 11] ]> {[ 1 := [1; 2; 3] ]})) 5
    = Ret (it', (0, Some EOF))
    ∧ skippingIterator_Next 0 it' = Ret (it'', (v, None))
    ∧ head (sort.Sort [10; 11]) = Some v.
Proof.
  apply (skippingIterator_Seek_gap (<[ 10 := 2 ]> {[ 1 := 1 ]})
           (<[ 2 := [10; 11] ]> {[ 1 := [1; 2; 3] ]}) 5 1 1 10 [1; 2; 3] [10; 11] 0).
  - reflexivity.
  - reflexivity.
  - repeat constructor.
  - exists 2. split_and!; [reflexivity|reflexivity|discriminate].
  - lia.
  - intros k' [v Hv].
    apply lookup_insert_Some in Hv as [[<- _]|[_ Hv]]; [right; lia|].
    apply lookup_singleton_Some in Hv as [<- _]. left. lia.
Defined.

(** ** The skiplist cursor of [postings.go]: [seek] and [next] *)

Lemma entries_head_filter (b : bolt.Bucket)
    (P : list byte * list byte → Prop) `{!∀ e, Decision (P e)} :
  match head (filter P (bolt.entries b)) with
  | None => ∀ k v, bolt.kv b !! k = Some v → ¬ P (k, v)
  | Some (k, v) =>
      bolt.kv b !! k = Some v ∧ P (k, v)
      ∧ ∀ k' v', bolt.kv b !! k' = Some v' → P (k', v') → bytes_le k k'
  end.
Proof.
  pose proof (entries_sorted b) as Hs.
  pose proof (elem_of_entries b) as He.
  destruct (head (filter P (bolt.entries b))) as [[k v]|] eqn:Eh.
  - pose proof (head_Some_elem_of _ _ Eh) as Hin.
    apply list_elem_of_filter in Hin as [HP Hin].
    apply head_filter_Some in Eh as (l1 & l2 & El & Hl1).
    rewrite El in Hs, He. split_and!; [by apply elem_of_entries|done|].
    intros k' v' Hk' HP'. apply He in Hk'.
    apply elem_of_app in Hk' as [Hin'|Hin'].
    + rewrite Forall_forall in Hl1. by destruct (Hl1 _ Hin').
    + apply elem_of_cons in Hin' as [Heq|Hin'].
      * injection Heq as -> ->. apply bytes_le_refl.
      * apply StronglySorted_app_1_r, StronglySorted_inv in Hs as [_ Hall].
        rewrite Forall_forall in Hall. apply (Hall _ Hin').
  - apply head_None in Eh. intros k v Hkv HP.
    apply He in Hkv.
    assert (Hin : (k, v) ∈ filter P (bolt.entries b)) by by apply list_elem_of_filter.
    rewrite Eh in Hin. by apply elem_of_nil in Hin.
Qed.

Lemma entries_last_filter (b : bolt.Bucket)
    (P : list byte * list byte → Prop) `{!∀ e, Decision (P e)} :
  match last (filter P (bolt.entries b)) with
  | None => ∀ k v, bolt.kv b !! k = Some v → ¬ P (k, v)
  | Some (k, v) =>
      bolt.kv b !! k = Some v ∧ P (k, v)
      ∧ ∀ k' v', bolt.kv b !! k' = Some v' → P (k', v') → bytes_le k' k
  end.
Proof.
  pose proof (entries_sorted b) as Hs.
  pose proof (elem_of_entries b) as He.
  destruct (last (filter P (bolt.entries b))) as [[k v]|] eqn:Eh.
  - pose proof (last_Some_elem_of _ _ Eh) as Hin.
    apply list_elem_of_filter in Hin as [HP Hin].
    apply last_filter_Some in Eh as (l1 & l2 & El & Hl2).
    rewrite El in Hs, He. split_and!; [by apply elem_of_entries|done|].
    intros k' v' Hk' HP'. apply He in Hk'.
    apply elem_of_app in Hk' as [Hin'|Hin'].
    + apply (StronglySorted_app_1_elem_of _ _ _ (k', v') (k, v) Hs Hin'). left.
    + apply elem_of_cons in Hin' as [Heq|Hin'].
      * injection Heq as -> ->. apply bytes_le_refl.
      * rewrite Forall_forall in Hl2. by destruct (Hl2 _ Hin').
  - apply last_None in Eh. intros k v Hkv HP.
    apply He in Hkv.
    assert (Hin : (k, v) ∈ filter P (bolt.entries b)) by by apply list_elem_of_filter.
    rewrite Eh in Hin. by apply elem_of_nil in Hin.
Qed.

(** A skiplist bucket read through the encoding: the entry of [d], and
    the order of two keys. *)
Lemma skiplist_bucket_entry (b : bolt.Bucket) (k v : list byte) :
  skiplist_bucket b → bolt.kv b !! k = Some v →
  ∃ d p, d < 2 ^ 64 ∧ p < 2 ^ 64 ∧ k = encodeUint64 d ∧ v = encodeUint64 p
         ∧ decodeUint64 k = Ret d ∧ decodeUint64 v = Ret p.
Proof.
  intros Hwf Hkv. destruct (Hwf k v Hkv) as [(d & Hd & ->) (p & Hp & ->)].
  exists d, p. by rewrite !decodeUint64_encodeUint64.
Qed.

Lemma encodeUint64_inj (a b : N) :
  a < 2 ^ 64 → b < 2 ^ 64 → encodeUint64 a = encodeUint64 b → a = b.
Proof.
  intros Ha Hb E.
  assert (H1 : a ≤ b) by (apply encodeUint64_le; [done..|]; by rewrite E).
  assert (H2 : b ≤ a) by (apply encodeUint64_le; [done..|]; by rewrite E).
  lia.
Qed.

Lemma seek_at_target (s : boltSkiplistCursor) (k d p : N) :
  skiplist_bucket (sl_bkt s) → k < 2 ^ 64 →
  seek_target (sl_bkt s) k d p →
  postings_go.seek s k
  = Ret (with_cursor s (Some (encodeUint64 d)), (d, p, None)).
Proof.
  intros Hwf Hk (Hdp & Hd & Hp & Hcase).
  unfold postings_go.seek.
  pose proof (entries_head_filter (sl_bkt s) (λ e, bytes_le (encodeUint64 k) e.1)) as HS.
  pose proof (bolt_Last_spec (sl_bkt s)) as HL.
  unfold bolt.Seek, bolt.Last, bolt.at_entry in *. cbn [fst snd] in *.
  assert (Hfin : ∀ d1 p1, d1 < 2 ^ 64 → p1 < 2 ^ 64 →
            bolt.kv (sl_bkt s) !! encodeUint64 d1 = Some (encodeUint64 p1) →
            d1 = d →
            Ret (with_cursor s (Some (encodeUint64 d1)), (d1, p1, None))
            = (Ret (with_cursor s (Some (encodeUint64 d)), (d, p, None))
               : outcome (boltSkiplistCursor * skipresult))).
  { intros d1 p1 Hd1 Hp1 Hkv ->. rewrite Hdp in Hkv.
    assert (Hpp : encodeUint64 p = encodeUint64 p1) by congruence.
    apply encodeUint64_inj in Hpp; [|done..]. by subst. }
  destruct (head (filter _ (bolt.entries (sl_bkt s)))) as [[k1 v1]|] eqn:Eh.
  - (* an entry at or after [k] *)
    destruct HS as (Hkv1 & Hge1 & Hmin1). cbn [fst] in Hge1.
    destruct (skiplist_bucket_entry _ _ _ Hwf Hkv1)
      as (d1 & p1 & Hd1 & Hp1 & -> & -> & Ed1 & Ep1).
    apply encodeUint64_le in Hge1; [|done..].
    cbn [fmap option_fmap option_map fst]. rewrite Ed1, Ep1, !bind_Ret.
    destruct (N.ltb_spec k d1) as [Hlt|Hnlt].
    + pose proof (entries_last_filter (sl_bkt s)
                    (λ e, ¬ bytes_le (encodeUint64 d1) e.1)) as HP.
      unfold bolt.Prev, bolt.at_entry.
      destruct (last (filter _ (bolt.entries (sl_bkt s)))) as [[k0 v0]|] eqn:El.
      * destruct HP as (Hkv0 & Hlt0 & Hmax0). cbn [fst] in Hlt0.
        destruct (skiplist_bucket_entry _ _ _ Hwf Hkv0)
          as (d0 & p0 & Hd0 & Hp0 & -> & -> & Ed0 & Ep0).
        rewrite encodeUint64_le in Hlt0 by done.
        cbn [fmap option_fmap option_map fst]. rewrite Ed0, Ep0, !bind_Ret.
        apply Hfin; [done..|].
        assert (Hd0k : d0 < k).
        { destruct (decide (d0 < k)) as [|Hn]; [done|].
          specialize (Hmin1 _ _ Hkv0). cbn [fst] in Hmin1.
          rewrite !encodeUint64_le in Hmin1 by done. lia. }
        destruct Hcase as [[Hle Hmax]|[Hlt' Hmin]].
        -- pose proof (Hmax d0 _ Hd0 Hkv0 ltac:(lia)).
           specialize (Hmax0 _ _ Hdp). cbn [fst] in Hmax0.
           rewrite !encodeUint64_le in Hmax0 by done. lia.
        -- pose proof (Hmin d0 _ Hd0 Hkv0). lia.
      * cbn [fmap option_fmap option_map].
        pose proof (entries_head_filter (sl_bkt s) (λ _, True)) as HF.
        unfold bolt.First, bolt.at_entry.
        assert (Hhd : head (bolt.entries (sl_bkt s))
                      = Some (encodeUint64 d1, encodeUint64 p1)).
        { rewrite filter_all in HF by (by apply Forall_forall).
          destruct (head (bolt.entries (sl_bkt s))) as [[kf vf]|] eqn:Ehd.
          - destruct HF as (Hkvf & _ & Hminf).
            destruct (skiplist_bucket_entry _ _ _ Hwf Hkvf)
              as (df & pf & Hdf & Hpf & -> & -> & _).
            specialize (HP _ _ Hkvf). cbn [fst] in HP.
            assert (Hle1 : bytes_le (encodeUint64 d1) (encodeUint64 df)).
            { destruct (decide (bytes_le (encodeUint64 d1) (encodeUint64 df)));
                [done|by destruct HP]. }
            specialize (Hminf _ _ Hkv1 I).
            pose proof (bytes_le_antisym _ _ Hle1 Hminf) as Heq.
            rewrite <- Heq in Hkvf |- *. rewrite Hkv1 in Hkvf. congruence.
          - by destruct (HF _ _ Hkv1). }
        rewrite Hhd. cbn [fmap option_fmap option_map fst].
        apply Hfin; [done..|].
        destruct Hcase as [[Hle Hmax]|[Hlt' Hmin]].
        -- specialize (HP _ _ Hdp). cbn [fst] in HP.
           rewrite encodeUint64_le in HP by done. lia.
        -- pose proof (Hmin d1 _ Hd1 Hkv1).
           specialize (HP _ _ Hdp). cbn [fst] in HP.
           rewrite encodeUint64_le in HP by done. lia.
    + apply Hfin; [done..|].
      assert (d1 = k) as -> by lia.
      destruct Hcase as [[Hle Hmax]|[Hlt' Hmin]].
      * pose proof (Hmax k _ Hk Hkv1 ltac:(lia)). lia.
      * pose proof (Hmin k _ Hk Hkv1). lia.
  - (* every key is below [k]: the last entry *)
    assert (Hbelow : ∀ d' v, d' < 2 ^ 64 →
              bolt.kv (sl_bkt s) !! encodeUint64 d' = Some v → d' < k).
    { intros d' v Hd' Hkv. specialize (HS _ _ Hkv). cbn [fst] in HS.
      rewrite encodeUint64_le in HS by done. lia. }
    destruct (last (bolt.entries (sl_bkt s))) as [[k1 v1]|] eqn:El.
    + destruct HL as (Hkv1 & Hmax1).
      destruct (skiplist_bucket_entry _ _ _ Hwf Hkv1)
        as (d1 & p1 & Hd1 & Hp1 & -> & -> & Ed1 & Ep1).
      cbn [fmap option_fmap option_map fst]. rewrite Ed1, Ep1, !bind_Ret.
      pose proof (Hbelow d1 _ Hd1 Hkv1).
      destruct (N.ltb_spec k d1); [lia|].
      apply Hfin; [done..|].
      pose proof (Hbelow d _ Hd Hdp).
      destruct Hcase as [[Hle Hmax]|[Hlt' Hmin]]; [|lia].
      pose proof (Hmax d1 _ Hd1 Hkv1 ltac:(lia)).
      specialize (Hmax1 _ _ Hdp). rewrite encodeUint64_le in Hmax1 by done. lia.
    + rewrite HL in Hdp. by rewrite lookup_empty in Hdp.
Qed.

Lemma entries_empty (b : bolt.Bucket) : bolt.kv b = ∅ → bolt.entries b = [].
Proof.
  intros Hb. apply Permutation_nil_r. rewrite entries_Permutation, Hb.
  by rewrite map_to_list_empty.
Qed.

Lemma seek_empty (s : boltSkiplistCursor) (k : N) :
  bolt.kv (sl_bkt s) = ∅ →
  postings_go.seek s k = Ret (with_cursor s None, (0, 0, Some EOF)).
Proof.
  intros Hb. unfold postings_go.seek, bolt.Seek, bolt.Last.
  by rewrite (entries_empty _ Hb).
Qed.

(** X9: on a skiplist bucket, [seek k] of the bolt-backed cursor returns
    [io.EOF] when the bucket is empty; otherwise it returns the entry
    with the greatest key not above [k], or the entry with the least key
    when every key is above [k], and leaves the cursor on that entry.
    It does not fail when [k] is above every key. *)
Theorem boltSkiplistCursor_seek_floor (s : boltSkiplistCursor) (k : N) :
  skiplist_bucket (sl_bkt s) → k < 2 ^ 64 →
  (bolt.kv (sl_bkt s) = ∅ →
   postings_go.seek s k = Ret (with_cursor s None, (0, 0, Some EOF)))
  ∧ (∀ d p, seek_target (sl_bkt s) k d p →
       postings_go.seek s k
       = Ret (with_cursor s (Some (encodeUint64 d)), (d, p, None))).
Proof.
  intros Hwf Hk. split.
  - apply seek_empty.
  - intros d p. by apply seek_at_target.
Qed.

Lemma boltSkiplistCursor_seek_floor_witness :
  postings_go.seek
    {| sl_k := 7; sl_c := None;
       sl_bkt := {| bolt.kv := <[encodeUint64 5 := encodeUint64 11]>
                                 (<[encodeUint64 1 := encodeUint64 10]> ∅);
                    bolt.sequence := 0 |} |} 9
  = Ret ({| sl_k := 7; sl_c := Some (encodeUint64 5);
            sl_bkt := {| bolt.kv := <[encodeUint64 5 := encodeUint64 11]>
                                      (<[encodeUint64 1 := encodeUint64 10]> ∅);
                         bolt.sequence := 0 |} |}, (5, 11, None)).
Proof.
  refine (proj2 (boltSkiplistCursor_seek_floor
            {| sl_k := 7; sl_c := None;
               sl_bkt := {| bolt.kv := <[encodeUint64 5 := encodeUint64 11]>
                                         (<[encodeUint64 1 := encodeUint64 10]> ∅);
                            bolt.sequence := 0 |} |} 9 _ _) 5 11 _).
  - cbn [sl_bkt].
    exact (skiplist_bucket_insert _ 5 11
             (skiplist_bucket_insert bolt.empty 1 10 skiplist_bucket_empty
                eq_refl eq_refl) eq_refl eq_refl).
  - reflexivity.
  - split_and!; [reflexivity..|].
    left. split; [lia|].
    intros d' v Hd' Hv _. cbn [sl_bkt bolt.kv] in Hv.
    apply lookup_insert_Some in Hv as [[Heq _]|[_ Hv]].
    { apply encodeUint64_inj in Heq; [lia|reflexivity|done]. }
    apply lookup_insert_Some in Hv as [[Heq _]|[_ Hv]].
    { apply encodeUint64_inj in Heq; [lia|reflexivity|done]. }
    by rewrite lookup_empty in Hv.
Defined.

(** X10: an entry appended without error is the one [seek] finds
    afterwards for every ID not below its key: the new key is the
    greatest of the bucket, and the cursor is left on it. *)
Theorem append_then_seek (s s' : boltSkiplistCursor) (d p k : N) :
  skiplist_bucket (sl_bkt s) → d < 2 ^ 64 → p < 2 ^ 64 → k < 2 ^ 64 →
  d ≤ k →
  postings_go.append s d p = Ret (s', None) →
  postings_go.seek s' k = Ret (with_cursor s' (Some (encodeUint64 d)), (d, p, None)).
Proof.
  intros Hwf Hd Hp Hk Hdk Happ.
  unfold postings_go.append in Happ.
  pose proof (bolt_Last_spec (sl_bkt s)) as HL.
  destruct (bolt.Last (sl_bkt s)) as [c e]. cbn [snd] in HL.
  assert (Hbelow : ∀ d' v, d' < 2 ^ 64 →
            bolt.kv (sl_bkt s) !! encodeUint64 d' = Some v → d' < d).
  { destruct e as [[k1 v1]|].
    - destruct HL as [Hkv1 Hmax].
      destruct (skiplist_bucket_entry _ _ _ Hwf Hkv1)
        as (d1 & p1 & Hd1 & Hp1 & -> & -> & Ed1 & _).
      rewrite Ed1 in Happ. simpl in Happ.
      destruct (N.leb_spec d d1); [done|].
      intros d' v Hd' Hkv. specialize (Hmax _ _ Hkv).
      rewrite encodeUint64_le in Hmax by done. lia.
    - intros d' v _ Hkv. rewrite HL in Hkv. by rewrite lookup_empty in Hkv. }
  assert (Hs' : sl_bkt s' = {| bolt.kv := <[encodeUint64 d := encodeUint64 p]>
                                            (bolt.kv (sl_bkt s));
                               bolt.sequence := bolt.sequence (sl_bkt s) |}).
  { destruct (match e with
              | Some (k0, _) => decodeUint64 k0 ≫= λ dk, Ret (d <=? dk)
              | None => Ret false
              end) as [[|]| |]; simpl in Happ; [done| |done..].
    by injection Happ as <-. }
  apply seek_at_target; [|done|].
  - rewrite Hs'. by apply skiplist_bucket_insert.
  - rewrite Hs'. unfold seek_target. cbn [bolt.kv].
    split_and!; [by apply lookup_insert_Some; left|done|done|].
    left. split; [done|]. intros d' v Hd' Hkv _.
    apply lookup_insert_Some in Hkv as [[Heq _]|[_ Hkv]].
    + apply encodeUint64_inj in Heq; [lia|done..].
    + pose proof (Hbelow d' v Hd' Hkv). lia.
Qed.

Lemma append_then_seek_witness :
  ∃ s', postings_go.append {| sl_k := 7; sl_c := None; sl_bkt := bolt.empty |} 5 11
        = Ret (s', None)
        ∧ postings_go.seek s' 9
          = Ret (with_cursor s' (Some (encodeUint64 5)), (5, 11, None)).
Proof.
  eexists. split; [reflexivity|].
  apply (append_then_seek {| sl_k := 7; sl_c := None; sl_bkt := bolt.empty |} _ 5 11 9);
    [apply skiplist_bucket_empty|reflexivity..|lia|reflexivity].
Defined.

(** X11: [next] of the bolt-backed cursor, from the entry the cursor
    sits on, returns the entry with the least greater key and moves the
    cursor onto it; when no key is greater it returns [io.EOF]. *)
Theorem boltSkiplistCursor_next_succ (s : boltSkiplistCursor) (d : N) :
  skiplist_bucket (sl_bkt s) → d < 2 ^ 64 →
  sl_c s = Some (encodeUint64 d) →
  ((∀ d' v, d' < 2 ^ 64 → bolt.kv (sl_bkt s) !! encodeUint64 d' = Some v → d' ≤ d) →
   postings_go.next s = Ret (with_cursor s None, (0, 0, Some EOF)))
  ∧ (∀ d2 p2, d2 < 2 ^ 64 → p2 < 2 ^ 64 →
       bolt.kv (sl_bkt s) !! encodeUint64 d2 = Some (encodeUint64 p2) →
       d < d2 →
       (∀ d' v, d' < 2 ^ 64 → bolt.kv (sl_bkt s) !! encodeUint64 d' = Some v →
                d' ≤ d ∨ d2 ≤ d') →
       postings_go.next s
       = Ret (with_cursor s (Some (encodeUint64 d2)), (d2, p2, None))).
Proof.
  intros Hwf Hd Hc.
  pose proof (entries_head_filter (sl_bkt s) (λ e, ¬ bytes_le e.1 (encodeUint64 d))) as HN.
  unfold postings_go.next, bolt.Next, bolt.at_entry. rewrite Hc.
  destruct (head (filter _ (bolt.entries (sl_bkt s)))) as [[k1 v1]|] eqn:Eh.
  - destruct HN as (Hkv1 & Hgt1 & Hmin1). cbn [fst] in Hgt1.
    destruct (skiplist_bucket_entry _ _ _ Hwf Hkv1)
      as (d1 & p1 & Hd1 & Hp1 & -> & -> & Ed1 & Ep1).
    rewrite encodeUint64_le in Hgt1 by done.
    cbn [fmap option_fmap option_map fst]. rewrite Ed1, Ep1, !bind_Ret.
    split.
    + intros Hall. pose proof (Hall d1 _ Hd1 Hkv1). lia.
    + intros d2 p2 Hd2 Hp2 Hkv2 Hlt Hadj.
      assert (d1 = d2) as ->.
      { destruct (Hadj d1 _ Hd1 Hkv1) as [|Hge]; [lia|].
        specialize (Hmin1 _ _ Hkv2). cbn [fst] in Hmin1.
        rewrite !encodeUint64_le in Hmin1 by done.
        specialize (Hmin1 ltac:(lia)). lia. }
      rewrite Hkv1 in Hkv2.
      assert (Hpp : encodeUint64 p1 = encodeUint64 p2) by congruence.
      apply encodeUint64_inj in Hpp; [|done..]. by subst.
  - split; [done|].
    intros d2 p2 Hd2 Hp2 Hkv2 Hlt _.
    specialize (HN _ _ Hkv2). cbn [fst] in HN.
    rewrite encodeUint64_le in HN by done. destruct HN. lia.
Qed.

Lemma boltSkiplistCursor_next_succ_witness :
  postings_go.next
    {| sl_k := 7; sl_c := Some (encodeUint64 1);
       sl_bkt := {| bolt.kv := <[encodeUint64 5 := encodeUint64 11]>
                                 (<[encodeUint64 1 := encodeUint64 10]> ∅);
                    bolt.sequence := 0 |} |}
  = Ret ({| sl_k := 7; sl_c := Some (encodeUint64 5);
            sl_bkt := {| bolt.kv := <[encodeUint64 5 := encodeUint64 11]>
                                      (<[encodeUint64 1 := encodeUint64 10]> ∅);
                         bolt.sequence := 0 |} |}, (5, 11, None)).
Proof.
  refine (proj2 (boltSkiplistCursor_next_succ
            {| sl_k := 7; sl_c := Some (encodeUint64 1);
               sl_bkt := {| bolt.kv := <[encodeUint64 5 := encodeUint64 11]>
                                         (<[encodeUint64 1 := encodeUint64 10]> ∅);
                            bolt.sequence := 0 |} |} 1 _ _ _) 5 11 _ _ _ _ _).
  - cbn [sl_bkt].
    exact (skiplist_bucket_insert _ 5 11
             (skiplist_bucket_insert bolt.empty 1 10 skiplist_bucket_empty
                eq_refl eq_refl) eq_refl eq_refl).
  - reflexivity.
  - reflexivity.
  - reflexivity.
  - reflexivity.
  - reflexivity.
  - lia.
  - intros d' v Hd' Hv. cbn [sl_bkt bolt.kv] in Hv.
    apply lookup_insert_Some in Hv as [[Heq _]|[_ Hv]].
    { apply encodeUint64_inj in Heq; [right; lia|reflexivity|done]. }
    apply lookup_insert_Some in Hv as [[Heq _]|[_ Hv]].
    { apply encodeUint64_inj in Heq; [left; lia|reflexivity|done]. }
    by rewrite lookup_empty in Hv.
Defined.

(** ** The label dictionary of [bolt.go]: keys and round trips *)




(** ** [binary.PutUvarint] and [binary.Uvarint] *)

Lemma land_low_high (acc y s : N) : acc < 2 ^ s → N.land acc (y * 2 ^ s) = 0.
Proof.
  intros Hacc. apply N.bits_inj_0. intros n. rewrite N.land_spec.
  destruct (N.lt_ge_cases n s) as [Hn|Hn].
  - rewrite N.mul_pow2_bits_low by done. apply andb_false_r.
  - destruct (decide (acc = 0)) as [->|Hne]; [by rewrite N.bits_0|].
    rewrite (N.bits_above_log2 acc n); [done|].
    apply N.lt_le_trans with s; [|done].
    apply N.log2_lt_pow2; lia.
Qed.

Lemma lor_shiftl_add (acc y s : N) :
  acc < 2 ^ s → N.lor acc (N.shiftl y s) = acc + y * 2 ^ s.
Proof.
  intros Hacc. rewrite N.shiftl_mul_pow2.
  pose proof (land_low_high acc y s Hacc) as Hl.
  rewrite <- N.lxor_lor by done. by rewrite N.add_nocarry_lxor.
Qed.

Lemma byte_bits (y : N) :
  y < 256 →
  N.lor y 128 = y mod 128 + 128 ∧ N.land (y mod 128 + 128) 127 = y mod 128.
Proof.
  intros Hy.
  assert (H : forallb (λ i, let y := N.of_nat i in
                        (N.lor y 128 =? y mod 128 + 128)
                        && (N.land (y mod 128 + 128) 127 =? y mod 128))
                (seq 0 256) = true) by (vm_compute; reflexivity).
  rewrite forallb_forall in H. specialize (H (N.to_nat y)).
  rewrite N2Nat.id in H. cbv zeta in H.
  apply andb_true_iff in H as [H1 H2].
  - by apply N.eqb_eq in H1, H2.
  - apply in_seq. lia.
Qed.

Lemma mod_256_128 (x : N) : (x mod 256) mod 128 = x mod 128.
Proof.
  pose proof (N.div_mod x 256 ltac:(lia)) as H.
  rewrite H at 2.
  replace (256 * (x `div` 256) + x mod 256)
    with (x mod 256 + (2 * (x `div` 256)) * 128) by lia.
  by rewrite N.Div0.mod_add.
Qed.

Lemma continuation_byte (x : N) :
  Byte.to_N (byte_of_N (N.lor (N.land x 255) 128)) = x mod 128 + 128
  ∧ N.land (x mod 128 + 128) 127 = x mod 128.
Proof.
  change 255 with (N.ones 8). rewrite N.land_ones. change (2 ^ 8) with 256.
  pose proof (N.mod_upper_bound x 256 ltac:(lia)) as Hy.
  destruct (byte_bits (x mod 256) Hy) as [H1 H2].
  rewrite mod_256_128 in H1, H2. split; [|done].
  rewrite to_N_byte_of_N, H1.
  pose proof (N.mod_upper_bound x 128 ltac:(lia)).
  apply N.mod_small. lia.
Qed.

Lemma Uvarint_PutUvarint_loop (fuel : nat) :
  ∀ (x : N) (i : nat) (acc : N),
    (i + fuel = 10)%nat → (0 < fuel)%nat →
    acc < 2 ^ (7 * N.of_nat i) →
    acc + x * 2 ^ (7 * N.of_nat i) < 2 ^ 64 →
    binary.Uvarint_loop (binary.PutUvarint_loop fuel x) i acc (7 * N.of_nat i)
    = (acc + x * 2 ^ (7 * N.of_nat i),
       Z.of_nat (i + length (binary.PutUvarint_loop fuel x))).
Proof.
  induction fuel as [|fuel IH]; intros x i acc Hi Hf Hacc Hv; [lia|].
  cbn [binary.PutUvarint_loop].
  assert (Hi9 : (i =? binary.MaxVarintLen64)%nat = false).
  { apply Nat.eqb_neq. unfold binary.MaxVarintLen64. lia. }
  pose proof (N.pow_nonzero 2 (7 * N.of_nat i) ltac:(lia)) as HP.
  destruct (N.leb_spec 128 x) as [Hx|Hx].
  - destruct (continuation_byte x) as [Hb Hm].
    cbn [binary.Uvarint_loop]. rewrite Hi9, Hb.
    pose proof (N.mod_upper_bound x 128 ltac:(lia)) as Hr.
    destruct (N.ltb_spec (x mod 128 + 128) 128); [lia|].
    rewrite Hm, lor_shiftl_add by done.
    rewrite N.shiftr_div_pow2. change (2 ^ 7) with 128.
    pose proof (N.div_mod x 128 ltac:(lia)) as Hdm.
    assert (Hpow : 2 ^ (7 * N.of_nat (S i)) = 128 * 2 ^ (7 * N.of_nat i)).
    { replace (7 * N.of_nat (S i)) with (7 + 7 * N.of_nat i) by lia.
      by rewrite N.pow_add_r. }
    assert (Hfuel : (0 < fuel)%nat).
    { destruct fuel; [|lia]. exfalso.
      assert (i = 9%nat) as -> by lia.
      change (7 * N.of_nat 9) with 63 in Hv.
      change (2 ^ 63) with 9223372036854775808 in Hv.
      change (2 ^ 64) with 18446744073709551616 in Hv. lia. }
    set (P := 2 ^ (7 * N.of_nat i)) in *. clearbody P.
    assert (Hval : acc + x mod 128 * P + x `div` 128 * (128 * P) = acc + x * P) by nia.
    rewrite N.mod_small by nia.
    replace (7 * N.of_nat i + 7) with (7 * N.of_nat (S i)) by lia.
    rewrite (IH (x `div` 128) (S i) (acc + x mod 128 * P)); [| lia | done | | ].
    + rewrite Hpow, Hval. f_equal. cbn [length]. lia.
    + rewrite Hpow. nia.
    + rewrite Hpow, Hval. done.
  - cbn [binary.Uvarint_loop]. rewrite Hi9, to_N_byte_of_N.
    rewrite (N.mod_small x 256) by lia.
    destruct (N.ltb_spec x 128); [|lia].
    assert (Hov : ((i =? binary.MaxVarintLen64 - 1)%nat && (1 <? x))%bool = false).
    { destruct (Nat.eqb_spec i (binary.MaxVarintLen64 - 1)) as [->|]; [|done].
      simpl andb. apply N.ltb_ge.
      change (7 * N.of_nat (binary.MaxVarintLen64 - 1)) with 63 in Hv.
      change (2 ^ 63) with 9223372036854775808 in Hv.
      change (2 ^ 64) with 18446744073709551616 in Hv. lia. }
    rewrite Hov, lor_shiftl_add by done.
    rewrite N.mod_small by done. f_equal. cbn [length]. lia.
Qed.

Lemma Uvarint_PutUvarint (x : N) :
  x < 2 ^ 64 →
  binary.Uvarint (binary.PutUvarint x)
  = (x, Z.of_nat (length (binary.PutUvarint x))).
Proof.
  intros Hx. unfold binary.Uvarint, binary.PutUvarint.
  pose proof (Uvarint_PutUvarint_loop binary.MaxVarintLen64 x 0 0) as H.
  change (7 * N.of_nat 0) with 0 in H. change (2 ^ 0) with 1 in H.
  rewrite N.mul_1_r, N.add_0_l in H.
  apply H; [done|unfold binary.MaxVarintLen64; lia|lia|done].
Qed.
Section label_dictionary.
Variable seperator : byte.


(** X13: the ID of a label depends on the length of its key and on its
    value only.  After [ensureLabel] has returned an ID for a label,
    [ensureLabel] returns the same ID, and changes nothing, for every
    label with the same value and a key of the same length: for the same
    label again, and for a different key as well. *)
Theorem ensureLabel_same_length_same_id (s s' : boltSeriesTx)
    (key1 key2 val : string) (id : N) :
  length (list_byte_of_string key1) = length (list_byte_of_string key2) →
  ensureLabel seperator s key1 val = (s', id, None) →
  ensureLabel seperator s' key2 val = (s', id, None).
Proof.
  intros Hlen H1.
  assert (Hk : ensureLabel_key seperator key2 val = ensureLabel_key seperator key1 val).
  { unfold ensureLabel_key. by rewrite Hlen. }
  unfold ensureLabel in *. rewrite Hk.
  set (k := ensureLabel_key seperator key1 val) in *. clearbody k.
  unfold bolt.Get in *.
  destruct (bolt.kv (labelToID s) !! k) as [v|] eqn:Ev.
  - injection H1 as <- <-. by rewrite Ev.
  - unfold bolt.NextSequence in H1. cbv zeta in H1.
    cbn [labelToID IDToLabel IDToSeries seriesToID] in H1.
    set (id1 := (bolt.sequence (IDToLabel s) + 1) mod 2 ^ 64) in *.
    assert (Hid1 : id1 < 2 ^ 64) by (apply N.mod_upper_bound; lia).
    clearbody id1.
    unfold bolt.Put in H1.
    destruct (length k =? 0)%nat; [done|].
    destruct (bolt.MaxKeySize <? N.of_nat (length k)); [done|].
    cbn [labelToID IDToLabel IDToSeries seriesToID bolt.kv bolt.sequence] in H1.
    destruct (length (binary.PutUvarint id1) =? 0)%nat; [done|].
    destruct (bolt.MaxKeySize <? N.of_nat (length (binary.PutUvarint id1))); [done|].
    injection H1 as <- <-.
    cbn [labelToID bolt.kv]. rewrite lookup_insert_eq.
    by rewrite Uvarint_PutUvarint.
Qed.

End label_dictionary.


Lemma ensureLabel_same_length_same_id_witness :
  ∃ s' id,
    ensureLabel x00 emptySeriesTx "host" "web-1" = (s', id, None)
    ∧ ensureLabel x00 s' "zone" "web-1" = (s', id, None).
Proof.
  eexists. eexists. split; [reflexivity|].
  apply (ensureLabel_same_length_same_id x00 emptySeriesTx _ "host" "zone" "web-1" _);
    reflexivity.
Defined.

(** ** [ensureSeries] and the order of [range] *)

Lemma Sort_Permutation (l1 l2 : list N) : l1 ≡ₚ l2 → sort.Sort l1 = sort.Sort l2.
Proof.
  intros HP. unfold sort.Sort.
  apply (StronglySorted_unique N.le).
  - apply StronglySorted_merge_sort; apply _.
  - apply StronglySorted_merge_sort; apply _.
  - by rewrite !merge_sort_Permutation.
Qed.

Section series_order.
Variable seperator : byte.
Variable skey_bytes : list N → list byte.

Lemma ensureLabels_known (s : boltSeriesTx) (desc : list (string * string)) :
  Forall (λ kv, is_Some (bolt.kv (labelToID s) !! ensureLabel_key seperator kv.1 kv.2))
    desc →
  ∀ skey,
    ensureLabels seperator s desc skey
    = (s, skey ++ ((λ kv, (binary.Uvarint
                             (default [] (bolt.kv (labelToID s)
                                            !! ensureLabel_key seperator kv.1 kv.2))).1)
                   <$> desc), None).
Proof.
  induction 1 as [|[k v] desc [b Hb] _ IH]; intros skey.
  { simpl. by rewrite app_nil_r. }
  cbn [ensureLabels]. cbn [fst snd] in Hb.
  rewrite (ensureLabel_known seperator s k v _ b _ eq_refl Hb eq_refl).
  rewrite IH. rewrite fmap_cons. cbn [fst snd]. rewrite Hb. cbn [default from_option].
  by rewrite <- app_assoc.
Qed.

(** X14: for a label set whose labels are all filed already, the result
    of [ensureSeries] does not depend on the order in which [range]
    visits the map: any two orders of the same entries give the same
    series ID, the same series key and the same store. *)
Theorem ensureSeries_order_independent (s : boltSeriesTx)
    (d1 d2 : list (string * string)) :
  d1 ≡ₚ d2 →
  Forall (λ kv, is_Some (bolt.kv (labelToID s) !! ensureLabel_key seperator kv.1 kv.2))
    d1 →
  ensureSeries seperator skey_bytes s d1 = ensureSeries seperator skey_bytes s d2.
Proof.
  intros HP H1.
  assert (H2 : Forall (λ kv, is_Some (bolt.kv (labelToID s)
                                        !! ensureLabel_key seperator kv.1 kv.2)) d2)
    by by rewrite <- HP.
  unfold ensureSeries.
  rewrite (ensureLabels_known s d1 H1), (ensureLabels_known s d2 H2).
  rewrite !app_nil_l.
  by rewrite (Sort_Permutation _ _ (fmap_Permutation _ _ _ HP)).
Qed.

End series_order.

Lemma ensureSeries_order_independent_witness :
  ∃ s,
    (ensureSeries x00 seriesKey_bytes emptySeriesTx [("a", "1"); ("b", "2")]%string).1 = s
    ∧ ensureSeries x00 seriesKey_bytes s [("a", "1"); ("b", "2")]%string
      = ensureSeries x00 seriesKey_bytes s [("b", "2"); ("a", "1")]%string.
Proof.
  eexists. split; [reflexivity|].
  apply ensureSeries_order_independent.
  - apply perm_swap.
  - repeat constructor; by eexists.
Defined.

(** ** [labels] of [bolt.go] *)

Lemma filter_length_strict {A} (P Q : A → Prop) `{!∀ x, Decision (P x)}
    `{!∀ x, Decision (Q x)} (l : list A) (x : A) :
  (∀ y, P y → Q y) → x ∈ l → Q x → ¬ P x →
  (length (filter P l) < length (filter Q l))%nat.
Proof.
  intros HPQ Hx HQ HnP.
  assert (E : filter P l = filter P (filter Q l)).
  { rewrite list_filter_filter. apply list_filter_iff. intros y. split; [by auto|by intros [? _]]. }
  rewrite E. apply (length_filter_lt _ _ x); [|done].
  by apply list_elem_of_filter.
Qed.

Lemma bolt_Next_spec (b : bolt.Bucket) (k : list byte) :
  match bolt.Next b (Some k) with
  | (c, None) => c = None ∧ ∀ k' v', bolt.kv b !! k' = Some v' → bytes_le k' k
  | (c, Some (k1, v1)) =>
      c = Some k1 ∧ bolt.kv b !! k1 = Some v1 ∧ ¬ bytes_le k1 k
      ∧ (∀ k' v', bolt.kv b !! k' = Some v' → ¬ bytes_le k' k → bytes_le k1 k')
      ∧ (length (filter (λ e, ¬ bytes_le e.1 k1) (bolt.entries b))
         < length (filter (λ e, ¬ bytes_le e.1 k) (bolt.entries b)))%nat
  end.
Proof.
  unfold bolt.Next, bolt.at_entry.
  pose proof (entries_head_filter b (λ e, ¬ bytes_le e.1 k)) as H.
  destruct (head (filter _ (bolt.entries b))) as [[k1 v1]|]; cbn [fmap option_fmap option_map fst].
  - destruct H as (Hkv & Hgt & Hmin). cbn [fst] in Hgt.
    split_and!; [done..| |].
    + intros k' v' Hk' Hgt'. by apply (Hmin k' v').
    + apply (filter_length_strict _ _ _ (k1, v1)).
      * intros [k' v'] Hgt' Hle. cbn [fst] in *. apply Hgt'.
        etrans; [exact Hle|].
        destruct (bytes_le_total k k1); [done|by destruct Hgt].
      * by apply elem_of_entries.
      * done.
      * intros Hn. by apply Hn.
  - split; [done|]. intros k' v' Hk'.
    destruct (decide (bytes_le k' k)) as [|Hn]; [done|].
    by destruct (H k' v' Hk').
Qed.

Section labels_facts.
Variable seperator : byte.

Lemma bytes_HasPrefix_nil (s : list byte) : bytes_HasPrefix s [] = true.
Proof. unfold bytes_HasPrefix. simpl. rewrite ?take_0. by rewrite ?bool_decide_eq_true_2. Qed.

Lemma labels_loop_exhausted (fuel : nat) (b : bolt.Bucket) (m : Matcher)
    (c : bolt.Cursor) (ids : list N) :
  Key m = ""%string →
  labels_loop seperator (S fuel) b m c None ids = Panic.
Proof.
  intros Hk. cbn [labels_loop]. rewrite Hk. cbn [from_option list_byte_of_string].
  by rewrite bytes_HasPrefix_nil.
Qed.

Lemma labels_loop_empty_key (b : bolt.Bucket) (m : Matcher) :
  Key m = ""%string →
  ∀ (n : nat) (k v : list byte) (ids : list N) (fuel : nat),
    (length (filter (λ e, ¬ bytes_le e.1 k) (bolt.entries b)) < n)%nat →
    (S n ≤ fuel)%nat →
    labels_loop seperator fuel b m (Some k) (Some (k, v)) ids = Panic.
Proof.
  intros Hk. induction n as [|n IH]; intros k v ids fuel Hn Hfuel; [lia|].
  destruct fuel as [|fuel]; [lia|].
  cbn [labels_loop]. rewrite Hk. cbn [from_option list_byte_of_string fst snd].
  rewrite bytes_HasPrefix_nil.
  unfold index. destruct (bytes_Split k seperator !! 1%nat) as [p1|]; [|done].
  rewrite bind_Ret.
  pose proof (bolt_Next_spec b k) as HN.
  assert (Hstep : ∀ ids',
            (let '(c', e') := bolt.Next b (Some k) in
             labels_loop seperator fuel b m c' e' ids') = Panic).
  { intros ids'. destruct (bolt.Next b (Some k)) as [c' [[k1 v1]|]].
    - destruct HN as (-> & _ & _ & _ & Hlt). apply IH; lia.
    - destruct fuel as [|fuel]; [lia|]. by apply labels_loop_exhausted. }
  destruct (negb (Match m (string_of_list_byte p1))); [apply Hstep|].
  unfold BigEndian_Uint64. destruct (length v <? 8)%nat; [done|].
  rewrite bind_Ret. apply Hstep.
Qed.

(** X15: [labels] with a matcher whose key is the empty string never
    returns: whatever the store holds, the scan runs past the last label
    (or stops before) and panics. *)
Theorem labels_empty_key_panics (s : boltSeriesTx) (m : Matcher) :
  Key m = ""%string →
  ∃ n, ∀ fuel, (n ≤ fuel)%nat → labels seperator fuel s m = Panic.
Proof.
  intros Hk.
  exists (S (S (length (bolt.entries (labelToID s))))). intros fuel Hfuel.
  unfold labels. rewrite Hk. cbn [list_byte_of_string].
  pose proof (entries_head_filter (labelToID s) (λ e, bytes_le [] e.1)) as HS.
  unfold bolt.Seek, bolt.at_entry.
  destruct (head (filter _ (bolt.entries (labelToID s)))) as [[k v]|];
    cbn [fmap option_fmap option_map fst].
  - apply (labels_loop_empty_key _ m Hk (S (length (bolt.entries (labelToID s))))); [|lia].
    pose proof (length_filter (λ e : list byte * list byte, ¬ bytes_le e.1 k)
                  (bolt.entries (labelToID s))). lia.
  - destruct fuel as [|fuel]; [lia|]. by apply labels_loop_exhausted.
Qed.

End labels_facts.

Lemma labels_empty_key_panics_witness :
  ∃ n, ∀ fuel, (n ≤ fuel)%nat →
    labels x00 fuel (ensureLabel x00 emptySeriesTx "a" "1").1.1
      {| Key := ""; Match := λ _, false |} = Panic.
Proof.
  apply (labels_empty_key_panics x00 _ {| Key := ""; Match := λ _, false |}).
  reflexivity.
Defined.

Lemma bytes_HasPrefix_spec (s p : list byte) :
  bytes_HasPrefix s p = true ↔ ∃ t, s = p ++ t.
Proof.
  unfold bytes_HasPrefix. rewrite andb_true_iff, bool_decide_eq_true, Nat.leb_le.
  split.
  - intros [_ Ht]. exists (drop (length p) s).
    rewrite <- Ht at 1. by rewrite take_drop.
  - intros [t ->]. rewrite length_app, take_app_length. split; [lia|done].
Qed.

Lemma bytes_le_prefix (p t : list byte) : bytes_le p (p ++ t).
Proof.
  unfold bytes_le. induction p as [|x p IH]; simpl.
  - by destruct t.
  - by rewrite N.compare_refl.
Qed.

Lemma bytes_prefix_between (p k t : list byte) :
  bytes_le p k → bytes_le k (p ++ t) → ∃ t', k = p ++ t'.
Proof.
  unfold bytes_le. revert k. induction p as [|x p IH]; intros k H1 H2.
  { by exists k. }
  destruct k as [|y k]; [done|]. simpl in H1, H2.
  rewrite (N.compare_antisym (Byte.to_N x) (Byte.to_N y)) in H2.
  destruct (Byte.to_N x ?= Byte.to_N y) eqn:E; simpl in H2; [|done..].
  apply N.compare_eq, to_N_inj in E. subst y.
  destruct (IH k H1 H2) as [t' ->]. by exists t'.
Qed.

Section labels_short.
Variable seperator : byte.

Lemma labels_loop_short (b : bolt.Bucket) (m : Matcher) :
  (∀ k v, bolt.kv b !! k = Some v → (length v < 8)%nat) →
  ∀ (fuel : nat) (c : bolt.Cursor) (e : option (list byte * list byte))
    (res : list N * option error),
    (∀ k v, e = Some (k, v) → c = Some k ∧ bolt.kv b !! k = Some v) →
    labels_loop seperator fuel b m c e [] = Ret res → res = ([], None).
Proof.
  intros Hshort. induction fuel as [|fuel IH]; intros c e res He Hres.
  - cbn [labels_loop] in Hres.
    destruct (bytes_HasPrefix _ _); [done|]. by injection Hres as <-.
  - cbn [labels_loop] in Hres.
    destruct (bytes_HasPrefix _ _); [|by injection Hres as <-].
    unfold index in Hres.
    destruct (bytes_Split _ seperator !! 1%nat) as [p1|]; [|done].
    rewrite bind_Ret in Hres.
    destruct (negb (Match m (string_of_list_byte p1))).
    + assert (Hnext : ∀ c0, match bolt.Next b c0 with
                             | (c', e') => ∀ k v, e' = Some (k, v) →
                                             c' = Some k ∧ bolt.kv b !! k = Some v
                             end).
      { intros [k0|]; [|done].
        pose proof (bolt_Next_spec b k0) as HN.
        destruct (bolt.Next b (Some k0)) as [c' [[k1 v1]|]]; [|done].
        destruct HN as (-> & Hkv1 & _). by intros k' v' [= <- <-]. }
      specialize (Hnext c).
      destruct (bolt.Next b c) as [c' e'].
      by apply (IH c' e' res Hnext).
    + exfalso. unfold BigEndian_Uint64 in Hres.
      destruct e as [[k v]|]; cbn [from_option snd] in Hres.
      * destruct (He k v eq_refl) as [_ Hkv]. pose proof (Hshort k v Hkv).
        by destruct (Nat.ltb_spec (length v) 8); [|lia].
      * done.
Qed.

Lemma labels_loop_match_panics (b : bolt.Bucket) (m : Matcher)
    (k0 v0 p0 : list byte) :
  (∀ k v, bolt.kv b !! k = Some v → (length v < 8)%nat) →
  bolt.kv b !! k0 = Some v0 →
  bytes_HasPrefix k0 (list_byte_of_string (Key m)) = true →
  bytes_Split k0 seperator !! 1%nat = Some p0 →
  Match m (string_of_list_byte p0) = true →
  ∀ (n : nat) (k v : list byte) (ids : list N) (fuel : nat),
    (length (filter (λ e, ¬ bytes_le e.1 k) (bolt.entries b)) < n)%nat →
    (n ≤ fuel)%nat →
    bolt.kv b !! k = Some v →
    bytes_le (list_byte_of_string (Key m)) k → bytes_le k k0 →
    labels_loop seperator fuel b m (Some k) (Some (k, v)) ids = Panic.
Proof.
  intros Hshort Hkv0 Hpre0 Hsp0 Hm0.
  apply bytes_HasPrefix_spec in Hpre0 as [t0 Hk0].
  induction n as [|n IH]; intros k v ids fuel Hn Hfuel Hkv Hge Hle; [lia|].
  destruct fuel as [|fuel]; [lia|].
  cbn [labels_loop from_option fst snd].
  assert (Hpre : bytes_HasPrefix k (list_byte_of_string (Key m)) = true).
  { apply bytes_HasPrefix_spec. rewrite Hk0 in Hle.
    by apply (bytes_prefix_between _ _ t0). }
  rewrite Hpre. unfold index.
  destruct (bytes_Split k seperator !! 1%nat) as [p1|] eqn:Esp; [|done].
  rewrite bind_Ret.
  destruct (Match m (string_of_list_byte p1)) eqn:Em; cbn [negb].
  - unfold BigEndian_Uint64. pose proof (Hshort k v Hkv).
    by destruct (Nat.ltb_spec (length v) 8); [|lia].
  - assert (Hne : k ≠ k0).
    { intros ->. rewrite Hsp0 in Esp. injection Esp as <-. congruence. }
    assert (Hlt : ¬ bytes_le k0 k).
    { intros Hle'. apply Hne. by apply bytes_le_antisym. }
    pose proof (bolt_Next_spec b k) as HN.
    destruct (bolt.Next b (Some k)) as [c' [[k1 v1]|]].
    + destruct HN as (-> & Hkv1 & Hgt1 & Hmin1 & Hdec).
      apply IH; [lia|lia|done| |by apply (Hmin1 k0 v0)].
      etrans; [exact Hge|].
      destruct (bytes_le_total k k1); [done|by destruct Hgt1].
    + destruct HN as [_ Hall]. by destruct Hlt; apply (Hall k0 v0).
Qed.

(** X16: in a store whose label IDs are filed in fewer than 8 bytes,
    [labels] never returns an ID: whenever it returns, the list is empty;
    and whenever a filed label has the matcher's key as a prefix and
    its value matches, [labels] panics, since it reads the ID of a
    matching label as 8 big-endian bytes. *)
Theorem labels_short_ids (s : boltSeriesTx) (m : Matcher) :
  labelToID_short s →
  (∀ fuel res, labels seperator fuel s m = Ret res → res = ([], None))
  ∧ (∀ k v p1,
       bolt.kv (labelToID s) !! k = Some v →
       bytes_HasPrefix k (list_byte_of_string (Key m)) = true →
       bytes_Split k seperator !! 1%nat = Some p1 →
       Match m (string_of_list_byte p1) = true →
       ∃ n, ∀ fuel, (n ≤ fuel)%nat → labels seperator fuel s m = Panic).
Proof.
  intros Hshort. split.
  - intros fuel res Hres. unfold labels in Hres.
    pose proof (entries_head_filter (labelToID s)
                  (λ e, bytes_le (list_byte_of_string (Key m)) e.1)) as HS.
    unfold bolt.Seek, bolt.at_entry in Hres.
    eapply (labels_loop_short (labelToID s) m Hshort); [|exact Hres].
    intros k v Hhd. rewrite Hhd in HS |- *. by destruct HS as (Hkv & _).
  - intros k0 v0 p0 Hkv0 Hpre0 Hsp0 Hm0.
    exists (S (length (bolt.entries (labelToID s)))). intros fuel Hfuel.
    unfold labels.
    pose proof (entries_head_filter (labelToID s)
                  (λ e, bytes_le (list_byte_of_string (Key m)) e.1)) as HS.
    unfold bolt.Seek, bolt.at_entry.
    assert (Hge0 : bytes_le (list_byte_of_string (Key m)) k0).
    { apply bytes_HasPrefix_spec in Hpre0 as [t0 ->]. apply bytes_le_prefix. }
    destruct (head (filter _ (bolt.entries (labelToID s)))) as [[k v]|];
      cbn [fmap option_fmap option_map fst].
    + destruct HS as (Hkv & Hge & Hmin). cbn [fst] in Hge.
      apply (labels_loop_match_panics (labelToID s) m k0 v0 p0 Hshort Hkv0 Hpre0 Hsp0 Hm0
               (S (length (bolt.entries (labelToID s))))); [|done..|by apply (Hmin k0 v0)].
      pose proof (length_filter (λ e : list byte * list byte, ¬ bytes_le e.1 k)
                    (bolt.entries (labelToID s))). lia.
    + by destruct (HS k0 v0 Hkv0).
Qed.

End labels_short.

Lemma labels_short_ids_witness :
  ∃ n, ∀ fuel, (n ≤ fuel)%nat →
    labels x00 fuel (seriesTx_a1 x00 seriesKey_bytes)
      {| Key := "1"; Match := λ v, true |} = Panic.
Proof.
  refine (proj2 (labels_short_ids x00 (seriesTx_a1 x00 seriesKey_bytes)
                   {| Key := "1"; Match := λ v, true |} _)
            ["1"%byte; x00; "1"%byte] ["001"%byte] ["1"%byte] _ _ _ _).
  - intros k v Hkv. cbn [seriesTx_a1 labelToID bolt.kv] in Hkv.
    apply lookup_singleton_Some in Hkv as [_ <-]. simpl. lia.
  - reflexivity.
  - reflexivity.
  - reflexivity.
  - reflexivity.
Defined.

Lemma PutUvarint_loop_short (fuel : nat) :
  ∀ (n : nat) (x : N),
    (0 < n)%nat → x < 2 ^ (7 * N.of_nat n) →
    (length (binary.PutUvarint_loop fuel x) ≤ n)%nat.
Proof.
  induction fuel as [|fuel IH]; intros n x Hn Hx; cbn [binary.PutUvarint_loop].
  { simpl. lia. }
  destruct (N.leb_spec 128 x) as [H128|H128]; [|simpl; lia].
  cbn [length].
  destruct n as [|[|n]]; [lia| |].
  { change (2 ^ (7 * N.of_nat 1)) with 128 in Hx. lia. }
  apply le_n_S. apply IH; [lia|].
  rewrite N.shiftr_div_pow2. change (2 ^ 7) with 128.
  apply N.Div0.div_lt_upper_bound.
  replace (7 * N.of_nat (S (S n))) with (7 + 7 * N.of_nat (S n)) in Hx by lia.
  rewrite N.pow_add_r in Hx. by change (2 ^ 7) with 128 in Hx.
Qed.

(** X17: [ensureLabel] keeps the label IDs of the store shorter than 8
    bytes as long as the next ID is below [2^49]: it files the ID as an
    unsigned varint, not as the 8 big-endian bytes that [labels] reads. *)
Theorem ensureLabel_keeps_short (seperator : byte) (s : boltSeriesTx)
    (key val : string) :
  labelToID_short s →
  bolt.sequence (IDToLabel s) + 1 < 2 ^ 49 →
  labelToID_short (ensureLabel seperator s key val).1.1.
Proof.
  intros Hshort Hseq. unfold ensureLabel, bolt.Get.
  destruct (bolt.kv (labelToID s) !! ensureLabel_key seperator key val); [done|].
  unfold bolt.NextSequence. cbv zeta.
  cbn [labelToID IDToLabel IDToSeries seriesToID].
  rewrite (N.mod_small (bolt.sequence (IDToLabel s) + 1)) by lia.
  set (id := bolt.sequence (IDToLabel s) + 1) in *.
  unfold bolt.Put.
  destruct (length (ensureLabel_key seperator key val) =? 0)%nat; [done|].
  destruct (bolt.MaxKeySize <? N.of_nat (length (ensureLabel_key seperator key val)));
    [done|].
  cbn [labelToID IDToLabel IDToSeries seriesToID bolt.kv bolt.sequence].
  assert (Hnew : labelToID_short
            {| seriesToID := seriesToID s; IDToSeries := IDToSeries s;
               labelToID := {| bolt.kv := <[ensureLabel_key seperator key val
                                             := binary.PutUvarint id]>
                                            (bolt.kv (labelToID s));
                               bolt.sequence := bolt.sequence (labelToID s) |};
               IDToLabel := {| bolt.kv := bolt.kv (IDToLabel s);
                               bolt.sequence := id |} |}).
  { intros k v Hkv. cbn [labelToID bolt.kv] in Hkv.
    apply lookup_insert_Some in Hkv as [[_ <-]|[_ Hkv]]; [|by apply (Hshort k v)].
    pose proof (PutUvarint_loop_short binary.MaxVarintLen64 7 id ltac:(lia)) as Hl.
    change (7 * N.of_nat 7) with 49 in Hl. specialize (Hl Hseq).
    unfold binary.PutUvarint. lia. }
  destruct (length (binary.PutUvarint id) =? 0)%nat; [exact Hnew|].
  destruct (bolt.MaxKeySize <? N.of_nat (length (binary.PutUvarint id))); exact Hnew.
Qed.

Lemma ensureLabel_keeps_short_witness :
  labelToID_short (ensureLabel x00 emptySeriesTx "a" "1").1.1.
Proof.
  apply ensureLabel_keeps_short.
  - intros k v Hkv. cbn [emptySeriesTx labelToID bolt.empty bolt.kv] in Hkv.
    by apply lookup_empty_Some in Hkv.
  - reflexivity.
Defined.

(** ** [postingsStore.Append]: empty batches, and a page that fills up
    at the last ID *)

Section append_facts.
Variable pageDataSize : nat.

Lemma apply_batches_empty (batches : list (N * list N)) (sls : skiplists)
    (pbtx : pagebuf.Tx) :
  Forall (λ kb : N * list N, kb.2 = []) batches →
  apply_batches pageDataSize sls pbtx batches = Ret (sls, pbtx, None).
Proof.
  induction 1 as [|[k ids] batches Hk _ IH]; [done|].
  simpl in Hk. subst ids. cbn [apply_batches postingsAppend]. by rewrite bind_Ret.
Qed.

(** X18: [Append] of batches that hold no ID (none at all, or keys with
    empty lists) returns without error and leaves the store as it was:
    no skiplist bucket is created for the keys, and both transactions
    are committed. *)
Theorem Append_empty_batches (p : postingsStore) (batches : list (N * list N)) :
  Forall (λ kb : N * list N, kb.2 = []) batches →
  db_open (db p) = true → pb_open (pb p) = true →
  is_Some (db_skiplist (db p)) →
  Append pageDataSize p batches no_faults
  = Ret (p, None, [EvBegin Blob; EvBegin KV; EvCommit KV; EvCommit Blob]).
Proof.
  intros Hb Hdb Hpb [sls Hsls]. unfold Append.
  rewrite Hdb, Hpb, Hsls. cbn [no_faults fail_pb_begin fail_db_begin negb orb].
  rewrite (apply_batches_empty batches sls _ Hb), bind_Ret.
  cbn [fail_db_commit fail_pb_commit db pb db_open pb_open db_skiplist pb_state].
  destruct p as [[sk o1] [st o2]]. simpl in *. by subst.
Qed.

Lemma createPage_ok (id : N) :
  ∃ pg, createPage pageDataSize id = (pg, None).
Proof.
  unfold createPage, page.init.
  assert (H : forallb (λ b, Byte.to_N b =? 0) (replicate pageDataSize x00) = true).
  { apply forallb_forall. intros b Hb. apply list_elem_of_In in Hb.
    by apply elem_of_replicate in Hb as [-> _]. }
  rewrite H. by eexists.
Qed.

Lemma postingsAppend_loop_app (ids1 ids2 : list N) (st : appendState) :
  postingsAppend_loop pageDataSize st (ids1 ++ ids2)
  = match postingsAppend_loop pageDataSize st ids1 with
    | Ret (st', None) => postingsAppend_loop pageDataSize st' ids2
    | r => r
    end.
Proof.
  revert st. induction ids1 as [|id ids1 IH]; intros st; [done|].
  cbn [app postingsAppend_loop].
  destruct (page.append _ id) as [pg [e|]]; [|apply IH].
  destruct (is_errPageFull e); [|done].
  destruct (store_page _ id) as [[st1 [e1|]]| |]; [done| |done..].
  rewrite !bind_Ret. cbn iota beta.
  destruct (createPage pageDataSize id) as [pg' [e2|]]; [done|apply IH].
Qed.

Lemma postingsAppend_loop_new_page (ids : list N) (st st' : appendState) :
  as_pid st = 0 →
  postingsAppend_loop pageDataSize st ids = Ret (st', None) →
  as_pid st' = 0.
Proof.
  revert st. induction ids as [|id ids IH]; intros st Hpid Hloop.
  { by injection Hloop as <-. }
  cbn [postingsAppend_loop] in Hloop.
  destruct (page.append _ id) as [pg [e|]];
    [|eapply IH; [|exact Hloop]; exact Hpid].
  destruct (is_errPageFull e); [|done].
  destruct (store_page _ id) as [[st1 [e1|]]| |]; [done| |done..].
  rewrite bind_Ret in Hloop. cbn iota beta in Hloop.
  destruct (createPage pageDataSize id) as [pg' [e2|]]; [done|].
  eapply IH; [|exact Hloop]. reflexivity.
Qed.

(** [append] on a skiplist bucket: out of order, or the entry added. *)
Lemma append_cases (s : boltSkiplistCursor) (d p : N) :
  skiplist_bucket (sl_bkt s) → d < 2 ^ 64 → p < 2 ^ 64 →
  (∃ s', postings_go.append s d p = Ret (s', Some errOutOfOrder)
         ∧ sl_bkt s' = sl_bkt s)
  ∨ (∃ s', postings_go.append s d p = Ret (s', None)
           ∧ skiplist_bucket (sl_bkt s')
           ∧ bolt.kv (sl_bkt s') !! encodeUint64 d = Some (encodeUint64 p)).
Proof.
  intros Hwf Hd Hp. unfold postings_go.append.
  pose proof (bolt_Last_elem (sl_bkt s)) as HL.
  destruct (bolt.Last (sl_bkt s)) as [c [[k v]|]].
  - destruct (skiplist_bucket_entry _ k v Hwf (HL _ _ eq_refl))
      as (dk & pk & _ & _ & _ & _ & -> & _).
    rewrite bind_Ret. cbn iota beta.
    destruct (d <=? dk); [left; by eexists|].
    right. simpl. eexists. split; [done|]. cbn [sl_bkt bolt.kv]. split.
    + by apply skiplist_bucket_insert.
    + by apply lookup_insert_Some; left.
  - rewrite bind_Ret. right. simpl. eexists. split; [done|].
    cbn [sl_bkt bolt.kv]. split.
    + by apply skiplist_bucket_insert.
    + by apply lookup_insert_Some; left.
Qed.

Lemma append_key_present (s : boltSkiplistCursor) (d p : N) (v : list byte) :
  skiplist_bucket (sl_bkt s) → d < 2 ^ 64 →
  bolt.kv (sl_bkt s) !! encodeUint64 d = Some v →
  ∃ s', postings_go.append s d p = Ret (s', Some errOutOfOrder).
Proof.
  intros Hwf Hd Hkv. unfold postings_go.append.
  pose proof (bolt_Last_spec (sl_bkt s)) as HL.
  destruct (bolt.Last (sl_bkt s)) as [c [[k1 v1]|]]; cbn [snd] in HL.
  - destruct HL as [Hkv1 Hmax].
    destruct (skiplist_bucket_entry _ k1 v1 Hwf Hkv1)
      as (dk & pk & Hdk & _ & -> & _ & -> & _).
    rewrite bind_Ret. cbn iota beta.
    specialize (Hmax _ _ Hkv). rewrite encodeUint64_le in Hmax by done.
    destruct (N.leb_spec d dk); [by eexists|lia].
  - rewrite HL in Hkv. by rewrite lookup_empty in Hkv.
Qed.

Lemma store_page_new (st : appendState) (d : N) :
  as_pid st = 0 → skiplist_bucket (sl_bkt (as_sl st)) → d < 2 ^ 64 →
  (∃ st', store_page st d = Ret (st', Some errOutOfOrder))
  ∨ (∃ st', store_page st d = Ret (st', None)
            ∧ skiplist_bucket (sl_bkt (as_sl st'))
            ∧ is_Some (bolt.kv (sl_bkt (as_sl st')) !! encodeUint64 d)
            ∧ as_lastID st' = as_lastID st).
Proof.
  intros Hpid Hwf Hd. unfold store_page. rewrite Hpid. cbn [N.eqb].
  unfold pagebuf.Add. cbn iota beta. cbn [as_pg as_pid as_lastID as_sl as_pbtx].
  set (pid1 := (pagebuf.last_id (as_pbtx st) + 1) mod 2 ^ 64).
  assert (Hpid1 : pid1 < 2 ^ 64) by (apply N.mod_upper_bound; lia).
  destruct (append_cases (as_sl st) d pid1 Hwf Hd Hpid1)
    as [(s' & Happ & _)|(s' & Happ & Hwf' & Hkv)]; rewrite Happ, !bind_Ret.
  - left. by eexists.
  - right. eexists. split; [done|]. cbn [as_sl as_lastID]. by split_and!.
Qed.

Lemma store_page_key_present (st : appendState) (d : N) :
  as_pid st = 0 → skiplist_bucket (sl_bkt (as_sl st)) → d < 2 ^ 64 →
  is_Some (bolt.kv (sl_bkt (as_sl st)) !! encodeUint64 d) →
  ∃ st', store_page st d = Ret (st', Some errOutOfOrder).
Proof.
  intros Hpid Hwf Hd [v Hkv]. unfold store_page. rewrite Hpid. cbn [N.eqb].
  unfold pagebuf.Add. cbn iota beta. cbn [as_pg as_pid as_lastID as_sl as_pbtx].
  destruct (append_key_present (as_sl st) d
              ((pagebuf.last_id (as_pbtx st) + 1) mod 2 ^ 64) v Hwf Hd Hkv)
    as [s' Happ].
  rewrite Happ, !bind_Ret. by eexists.
Qed.

Lemma postingsAppend_full_at_last_id (sls : skiplists) (pbtx : pagebuf.Tx)
    (key id0 idn : N) (mid : list N) (st : appendState) :
  sls !! encodeUint64 key = None →
  Forall (λ id, id < 2 ^ 64) mid → idn < 2 ^ 64 →
  postingsAppend_loop pageDataSize
    {| as_pg := (createPage pageDataSize id0).1; as_pid := 0; as_lastID := 0;
       as_sl := {| sl_k := key; sl_c := None; sl_bkt := bolt.empty |};
       as_pbtx := pbtx |} mid = Ret (st, None) →
  (page.append (as_pg st) idn).2 = Some errPageFull →
  ∃ sls' pbtx',
    postingsAppend pageDataSize sls pbtx key (id0 :: mid ++ [idn])
    = Ret (sls', pbtx', Some errOutOfOrder).
Proof.
  intros Hnone Hmid Hidn Hloop Hfull.
  unfold postingsAppend, CreateBucketIfNotExists. rewrite Hnone.
  rewrite seek_empty by done. rewrite bind_Ret. cbn iota beta.
  cbn [is_EOF with_cursor sl_k sl_bkt].
  destruct (createPage_ok id0) as [pg0 Hpg0]. rewrite Hpg0 in Hloop |- *.
  cbn [fst] in Hloop. unfold with_cursor. cbn [sl_k sl_bkt].
  rewrite postingsAppend_loop_app, Hloop.
  assert (Hpid : as_pid st = 0).
  { eapply postingsAppend_loop_new_page; [|exact Hloop]. reflexivity. }
  destruct (postingsAppend_loop_returns pageDataSize mid
              {| as_pg := pg0; as_pid := 0; as_lastID := 0;
                 as_sl := {| sl_k := key; sl_c := None; sl_bkt := bolt.empty |};
                 as_pbtx := pbtx |}
              skiplist_bucket_empty Hmid ltac:(simpl; lia))
    as (st1 & err1 & Hloop1 & Hwf & _).
  rewrite Hloop in Hloop1. injection Hloop1 as <- <-.
  cbn [postingsAppend_loop as_pg as_pid as_lastID as_sl as_pbtx].
  destruct (page.append (as_pg st) idn) as [pg e]. cbn [snd] in Hfull. subst e.
  cbn [is_errPageFull].
  destruct (store_page_new
              {| as_pg := as_pg st; as_pid := as_pid st; as_lastID := idn;
                 as_sl := as_sl st; as_pbtx := as_pbtx st |} idn Hpid Hwf Hidn)
    as [(st' & ->)|(st' & -> & Hwf' & Hkv & Hlast)]; rewrite !bind_Ret.
  - cbn iota beta. by eexists; eexists.
  - cbn iota beta. destruct (createPage_ok idn) as [pg1 ->].
    rewrite bind_Ret. cbn iota beta. cbn [as_lastID] in Hlast |- *. rewrite Hlast.
    destruct (store_page_key_present
                {| as_pg := pg1; as_pid := 0; as_lastID := idn;
                   as_sl := as_sl st'; as_pbtx := as_pbtx st' |} idn
                eq_refl Hwf' Hidn Hkv) as [st'' ->].
    rewrite bind_Ret. by eexists; eexists.
Qed.

(** X19: a postings list that is new and whose page fills up exactly at
    the last ID of the batch cannot be appended: the full page is stored
    under the skiplist key of that ID, a new page is begun with it, and
    storing the new page under the same key fails.  [Append] returns
    [errOutOfOrder] and rolls both transactions back; the store is as
    before. *)
Theorem Append_full_at_last_id (p : postingsStore) (sls : skiplists)
    (key id0 idn : N) (mid : list N) (st : appendState) :
  db_open (db p) = true → pb_open (pb p) = true →
  db_skiplist (db p) = Some sls →
  sls !! encodeUint64 key = None →
  Forall (λ id, id < 2 ^ 64) mid → idn < 2 ^ 64 →
  postingsAppend_loop pageDataSize
    {| as_pg := (createPage pageDataSize id0).1; as_pid := 0; as_lastID := 0;
       as_sl := {| sl_k := key; sl_c := None; sl_bkt := bolt.empty |};
       as_pbtx := pb_state (pb p) |} mid = Ret (st, None) →
  (page.append (as_pg st) idn).2 = Some errPageFull →
  Append pageDataSize p [(key, id0 :: mid ++ [idn])] no_faults
  = Ret (p, Some errOutOfOrder,
         [EvBegin Blob; EvBegin KV; EvRollback KV; EvRollback Blob]).
Proof.
  intros Hdb Hpb Hsls Hnone Hmid Hidn Hloop Hfull.
  destruct (postingsAppend_full_at_last_id sls (pb_state (pb p)) key id0 idn mid st
              Hnone Hmid Hidn Hloop Hfull) as (sls' & pbtx' & Hpa).
  unfold Append. rewrite Hdb, Hpb, Hsls.
  cbn [no_faults fail_pb_begin fail_db_begin negb orb apply_batches].
  by rewrite Hpa, !bind_Ret.
Qed.

End append_facts.

Lemma Append_empty_batches_witness :
  Append 64 NewPostings [(7, []); (8, [])] no_faults
  = Ret (NewPostings, None, [EvBegin Blob; EvBegin KV; EvCommit KV; EvCommit Blob]).
Proof.
  apply (Append_empty_batches 64 NewPostings [(7, []); (8, [])]).
  - repeat constructor.
  - reflexivity.
  - reflexivity.
  - by eexists.
Defined.

Lemma Append_full_at_last_id_witness :
  Append 16 NewPostings [(7, [1; 2; 3; 4; 5; 6; 7; 8; 9; 10])] no_faults
  = Ret (NewPostings, Some errOutOfOrder,
         [EvBegin Blob; EvBegin KV; EvRollback KV; EvRollback Blob]).
Proof.
  refine (Append_full_at_last_id 16 NewPostings ∅ 7 1 10 [2; 3; 4; 5; 6; 7; 8; 9] _
            eq_refl eq_refl eq_refl eq_refl _ eq_refl _ _).
  - repeat constructor.
  - vm_compute. reflexivity.
  - vm_compute. reflexivity.
Defined.

(** ** [Append] keeps the skiplists pointing to stored pages *)

Lemma append_result (s s' : boltSkiplistCursor) (d p : N) (err : option error) :
  skiplist_bucket (sl_bkt s) → d < 2 ^ 64 → p < 2 ^ 64 →
  postings_go.append s d p = Ret (s', err) →
  sl_bkt s' = sl_bkt s
  ∨ bolt.kv (sl_bkt s') = <[encodeUint64 d := encodeUint64 p]> (bolt.kv (sl_bkt s)).
Proof.
  intros Hwf Hd Hp. unfold postings_go.append.
  pose proof (bolt_Last_elem (sl_bkt s)) as HL.
  destruct (bolt.Last (sl_bkt s)) as [c [[k v]|]].
  - destruct (skiplist_bucket_entry _ k v Hwf (HL _ _ eq_refl))
      as (dk & pk & _ & _ & _ & _ & -> & _).
    rewrite bind_Ret. cbn iota beta.
    destruct (d <=? dk); [intros [= <- _]; by left|].
    simpl. intros [= <- _]. by right.
  - rewrite bind_Ret. simpl. intros [= <- _]. by right.
Qed.

Lemma pages_grow_refl (pbtx : pagebuf.Tx) : pages_grow pbtx pbtx.
Proof. by intros p. Qed.

Lemma pages_grow_trans (a b c : pagebuf.Tx) :
  pages_grow a b → pages_grow b c → pages_grow a c.
Proof. intros H1 H2 p Hp. by apply H2, H1. Qed.

Lemma bucket_pages_present_grow (b : bolt.Bucket) (pbtx pbtx' : pagebuf.Tx) :
  bucket_pages_present b pbtx → pages_grow pbtx pbtx' → bucket_pages_present b pbtx'.
Proof. intros Hb Hg d p Hd Hp Hkv. by apply Hg, (Hb d p). Qed.

Lemma pages_present_grow (sls : skiplists) (pbtx pbtx' : pagebuf.Tx) :
  pages_present sls pbtx → pages_grow pbtx pbtx' → pages_present sls pbtx'.
Proof.
  intros Hs Hg key b Hb. apply (bucket_pages_present_grow b pbtx); [|done].
  by apply (Hs key).
Qed.

Lemma pages_present_insert (sls : skiplists) (pbtx : pagebuf.Tx) (key : list byte)
    (b : bolt.Bucket) :
  pages_present sls pbtx → bucket_pages_present b pbtx →
  pages_present (<[key := b]> sls) pbtx.
Proof.
  intros Hs Hb key' b' Hl.
  apply lookup_insert_Some in Hl as [[_ <-]|[_ Hl]]; [done|by apply (Hs key')].
Qed.

Lemma store_page_present (st st' : appendState) (d : N) (err : option error) :
  skiplist_bucket (sl_bkt (as_sl st)) → d < 2 ^ 64 →
  bucket_pages_present (sl_bkt (as_sl st)) (as_pbtx st) →
  store_page st d = Ret (st', err) →
  bucket_pages_present (sl_bkt (as_sl st')) (as_pbtx st')
  ∧ pages_grow (as_pbtx st) (as_pbtx st').
Proof.
  intros Hwf Hd Hpres. unfold store_page.
  destruct (as_pid st =? 0).
  - unfold pagebuf.Add. cbn iota beta. cbn [as_pg as_pid as_lastID as_sl as_pbtx].
    set (pid1 := (pagebuf.last_id (as_pbtx st) + 1) mod 2 ^ 64).
    assert (Hpid1 : pid1 < 2 ^ 64) by (apply N.mod_upper_bound; lia).
    destruct (postings_go.append (as_sl st) d pid1) as [[sl' err']| |] eqn:Eapp;
      [|done..].
    rewrite bind_Ret. intros [= <- _]. cbn [as_sl as_pbtx].
    assert (Hg : pages_grow (as_pbtx st)
                   {| pagebuf.pages := <[pid1 := as_pg st]> (pagebuf.pages (as_pbtx st));
                      pagebuf.last_id := pid1 |}).
    { intros p [x Hp]. cbn [pagebuf.pages].
      destruct (decide (p = pid1)) as [->|Hne].
      - exists (as_pg st). by apply lookup_insert_Some; left.
      - exists x. apply lookup_insert_Some. right. by split. }
    split; [|done].
    destruct (append_result (as_sl st) sl' d pid1 err' Hwf Hd Hpid1 Eapp) as [->|Hkv].
    + by apply (bucket_pages_present_grow _ (as_pbtx st)).
    + intros d' p' Hd' Hp' Hl. rewrite Hkv in Hl.
      apply lookup_insert_Some in Hl as [[_ Heq]|[_ Hl]].
      * apply encodeUint64_inj in Heq; [|done..]. subst p'.
        cbn [pagebuf.pages]. exists (as_pg st). by apply lookup_insert_Some; left.
      * by apply Hg, (Hpres d' p').
  - unfold pagebuf.Set_.
    destruct (pagebuf.pages (as_pbtx st) !! as_pid st) as [old|] eqn:E.
    + intros [= <- _]. cbn [as_sl as_pbtx].
      assert (Hg : pages_grow (as_pbtx st)
                     {| pagebuf.pages := <[as_pid st := as_pg st]>
                                           (pagebuf.pages (as_pbtx st));
                        pagebuf.last_id := pagebuf.last_id (as_pbtx st) |}).
      { intros p [x Hp]. cbn [pagebuf.pages].
        destruct (decide (p = as_pid st)) as [->|Hne].
        - exists (as_pg st). by apply lookup_insert_Some; left.
        - exists x. apply lookup_insert_Some. right. by split. }
      split; [|done]. by apply (bucket_pages_present_grow _ (as_pbtx st)).
    + intros [= <- _]. cbn [as_sl as_pbtx]. split; [done|apply pages_grow_refl].
Qed.

Section pages_present_facts.
Variable pageDataSize : nat.

Lemma postingsAppend_loop_present (ids : list N) :
  ∀ (st st' : appendState) (err : option error),
    skiplist_bucket (sl_bkt (as_sl st)) → Forall (λ id, id < 2 ^ 64) ids →
    bucket_pages_present (sl_bkt (as_sl st)) (as_pbtx st) →
    postingsAppend_loop pageDataSize st ids = Ret (st', err) →
    bucket_pages_present (sl_bkt (as_sl st')) (as_pbtx st')
    ∧ pages_grow (as_pbtx st) (as_pbtx st').
Proof.
  induction ids as [|id ids IH]; intros st st' err Hwf Hids Hpres Hloop.
  { injection Hloop as <- _. split; [done|apply pages_grow_refl]. }
  apply Forall_cons in Hids as [Hid Hids].
  cbn [postingsAppend_loop as_pg as_pid as_lastID as_sl as_pbtx] in Hloop.
  destruct (page.append (as_pg st) id) as [pg [e|]].
  - destruct (is_errPageFull e); [|injection Hloop as <- _; split;
                                     [done|apply pages_grow_refl]].
    set (st0 := {| as_pg := as_pg st; as_pid := as_pid st; as_lastID := id;
                   as_sl := as_sl st; as_pbtx := as_pbtx st |}) in *.
    destruct (store_page_returns st0 id Hwf Hid) as (st1 & e1 & Hsp & Hwf1 & _).
    destruct (store_page_present st0 st1 id e1 Hwf Hid Hpres Hsp) as [Hp1 Hg1].
    rewrite Hsp, bind_Ret in Hloop. cbn iota beta in Hloop.
    destruct e1 as [e1|]; [by injection Hloop as <- _|].
    destruct (createPage pageDataSize id) as [pg' [e2|]].
    + by injection Hloop as <- _.
    + apply IH in Hloop as [Hp' Hg']; [|exact Hwf1|done|exact Hp1].
      split; [done|]. by apply (pages_grow_trans _ (as_pbtx st1)).
  - apply IH in Hloop as [Hp' Hg']; [|exact Hwf|done|exact Hpres]. by split.
Qed.

Lemma finish_present (sls : skiplists) (pbtx : pagebuf.Tx) (key : N)
    (st0 : appendState) (ids : list N)
    (sls' : skiplists) (pbtx' : pagebuf.Tx) (err' : option error) :
  pages_present sls pbtx →
  skiplist_bucket (sl_bkt (as_sl st0)) → Forall (λ id, id < 2 ^ 64) ids →
  as_lastID st0 < 2 ^ 64 →
  bucket_pages_present (sl_bkt (as_sl st0)) (as_pbtx st0) →
  pages_grow pbtx (as_pbtx st0) →
  ('(st, err) ← postingsAppend_loop pageDataSize st0 ids;
   match err with
   | Some e => Ret (<[encodeUint64 key := sl_bkt (as_sl st)]> sls, as_pbtx st, Some e)
   | None =>
       '(st, err) ← store_page st (as_lastID st);
       Ret (<[encodeUint64 key := sl_bkt (as_sl st)]> sls, as_pbtx st, err)
   end) = Ret (sls', pbtx', err') →
  pages_present sls' pbtx' ∧ pages_grow pbtx pbtx'.
Proof.
  intros Hs Hwf Hids Hlast Hb Hg.
  destruct (postingsAppend_loop_returns pageDataSize ids st0 Hwf Hids Hlast)
    as (st & err & Hloop & Hwf1 & Hlast1).
  destruct (postingsAppend_loop_present ids st0 st err Hwf Hids Hb Hloop) as [Hb1 Hg1].
  rewrite Hloop, bind_Ret. cbn iota beta.
  assert (Hg01 : pages_grow pbtx (as_pbtx st)) by by apply (pages_grow_trans _ (as_pbtx st0)).
  destruct err as [e|].
  - intros [= <- <- _]. split; [|done].
    apply pages_present_insert; [|done]. by apply (pages_present_grow _ pbtx).
  - destruct (store_page_returns st (as_lastID st) Hwf1 Hlast1)
      as (st2 & e2 & Hsp & _ & _).
    destruct (store_page_present st st2 _ e2 Hwf1 Hlast1 Hb1 Hsp) as [Hb2 Hg2].
    rewrite Hsp, bind_Ret. intros [= <- <- _].
    assert (Hg02 : pages_grow pbtx (as_pbtx st2))
      by by apply (pages_grow_trans _ (as_pbtx st)).
    split; [|done].
    apply pages_present_insert; [|done]. by apply (pages_present_grow _ pbtx).
Qed.

Lemma postingsAppend_present (sls : skiplists) (pbtx : pagebuf.Tx) (key : N)
    (ids : list N) (sls' : skiplists) (pbtx' : pagebuf.Tx) (err : option error) :
  skiplists_wf sls → Forall (λ id, id < 2 ^ 64) ids →
  pages_present sls pbtx →
  postingsAppend pageDataSize sls pbtx key ids = Ret (sls', pbtx', err) →
  pages_present sls' pbtx' ∧ pages_grow pbtx pbtx'.
Proof.
  intros Hwf Hids Hs. unfold postingsAppend.
  destruct ids as [|id0 ids'].
  { intros [= <- <- _]. split; [done|apply pages_grow_refl]. }
  apply Forall_cons in Hids as Hids'. destruct Hids' as [Hid0 Hids'].
  destruct (CreateBucketIfNotExists_wf sls (encodeUint64 key) Hwf) as [Hwf1 Hb].
  assert (Hs1 : pages_present (CreateBucketIfNotExists sls (encodeUint64 key)).1 pbtx
                ∧ bucket_pages_present
                    (CreateBucketIfNotExists sls (encodeUint64 key)).2 pbtx).
  { unfold CreateBucketIfNotExists.
    destruct (sls !! encodeUint64 key) as [b0|] eqn:E; cbn [fst snd].
    - split; [done|by apply (Hs _ _ E)].
    - assert (He : bucket_pages_present bolt.empty pbtx).
      { intros d p _ _ Hl. cbn [bolt.empty bolt.kv] in Hl.
        by apply lookup_empty_Some in Hl. }
      split; [by apply pages_present_insert|done]. }
  destruct Hs1 as [Hs1 Hb1].
  destruct (CreateBucketIfNotExists sls (encodeUint64 key)) as [sls1 b].
  cbn [fst snd] in Hwf1, Hb, Hs1, Hb1.
  destruct (seek_returns {| sl_k := key; sl_c := None; sl_bkt := b |} MaxUint64 Hb)
    as (sl & [[v pid] e] & -> & Hsl).
  cbn [sl_bkt] in Hsl. rewrite bind_Ret. cbn iota beta.
  assert (Hbw : skiplist_bucket (sl_bkt sl)) by by rewrite Hsl.
  assert (Hbp : bucket_pages_present (sl_bkt sl) pbtx) by by rewrite Hsl.
  destruct e as [e|].
  - destruct (is_EOF e).
    + destruct (createPage pageDataSize id0) as [pg [e'|]].
      * intros [= <- <- _]. split; [|apply pages_grow_refl].
        by apply pages_present_insert.
      * apply (finish_present sls1 pbtx key); cbn [as_sl as_pbtx as_lastID];
          [done|done|done|lia|done|apply pages_grow_refl].
    + intros [= <- <- _]. split; [|apply pages_grow_refl].
      by apply pages_present_insert.
  - destruct (pagebuf.Get pbtx pid) as [[pdata|] e'].
    + apply (finish_present sls1 pbtx key); cbn [as_sl as_pbtx as_lastID];
        [done|done|done|lia|done|apply pages_grow_refl].
    + intros [= <- <- _]. split; [|apply pages_grow_refl].
      by apply pages_present_insert.
Qed.

Lemma apply_batches_present (batches : list (N * list N)) :
  ∀ (sls : skiplists) (pbtx : pagebuf.Tx) (sls' : skiplists) (pbtx' : pagebuf.Tx)
    (err : option error),
    skiplists_wf sls → batches_uint64 batches →
    pages_present sls pbtx →
    apply_batches pageDataSize sls pbtx batches = Ret (sls', pbtx', err) →
    pages_present sls' pbtx'.
Proof.
  induction batches as [|[k ids] batches IH]; intros sls pbtx sls' pbtx' err Hwf Hb Hs.
  { by intros [= <- <- _]. }
  apply Forall_cons in Hb as [Hids Hb]. cbn [snd] in Hids.
  cbn [apply_batches].
  destruct (postingsAppend_returns pageDataSize sls pbtx k ids Hwf Hids)
    as (sls1 & pbtx1 & e1 & Hpa & Hwf1).
  destruct (postingsAppend_present sls pbtx k ids sls1 pbtx1 e1 Hwf Hids Hs Hpa)
    as [Hs1 _].
  rewrite Hpa, bind_Ret. cbn iota beta.
  destruct e1 as [e1|]; [by intros [= <- <- _]|].
  by apply IH.
Qed.

(** X20: [Append] keeps the skiplists pointing to stored pages.  On a
    store in which every skiplist entry names a page that the blob store
    holds, [Append] of [uint64] IDs, with both commits going through,
    returns, and every skiplist entry of the store it leaves names a
    page that the blob store holds, whether it failed or not. *)
Theorem Append_keeps_pages_present (p : postingsStore) (batches : list (N * list N)) :
  (∀ sls, db_skiplist (db p) = Some sls →
          skiplists_wf sls ∧ pages_present sls (pb_state (pb p))) →
  batches_uint64 batches →
  ∃ p' err tr,
    Append pageDataSize p batches no_faults = Ret (p', err, tr)
    ∧ ∀ sls, db_skiplist (db p') = Some sls →
             skiplists_wf sls ∧ pages_present sls (pb_state (pb p')).
Proof.
  intros Hinv Hb. unfold Append.
  cbn [no_faults fail_pb_begin fail_db_begin fail_db_commit fail_pb_commit orb].
  destruct (negb (pb_open (pb p))); [by eexists; eexists; eexists|].
  destruct (negb (db_open (db p))); [by eexists; eexists; eexists|].
  destruct (db_skiplist (db p)) as [sls|] eqn:E;
    [|eexists; eexists; eexists; split; [done|]; by rewrite E].
  destruct (Hinv sls eq_refl) as [Hwf Hs].
  destruct (apply_batches_returns pageDataSize batches sls (pb_state (pb p)) Hwf Hb)
    as (sls' & pbtx' & e & Hab & Hwf').
  pose proof (apply_batches_present batches sls _ sls' pbtx' e Hwf Hb Hs Hab) as Hs'.
  rewrite Hab, bind_Ret. cbn iota beta.
  destruct e as [e|].
  - eexists; eexists; eexists. split; [done|]. rewrite E. by intros ? [= <-].
  - eexists; eexists; eexists. split; [done|].
    cbn [db pb db_skiplist pb_state]. by intros ? [= <-].
Qed.

End pages_present_facts.

Lemma Append_keeps_pages_present_witness :
  ∃ p' err tr,
    Append 64 NewPostings [(7, [1; 2; 3])] no_faults = Ret (p', err, tr)
    ∧ ∀ sls, db_skiplist (db p') = Some sls →
             skiplists_wf sls ∧ pages_present sls (pb_state (pb p')).
Proof.
  apply (Append_keeps_pages_present 64 NewPostings [(7, [1; 2; 3])]).
  - intros sls [= <-]. split.
    + intros key b Hl. by apply lookup_empty_Some in Hl.
    + intros key b Hl. by apply lookup_empty_Some in Hl.
  - repeat constructor.
Defined.

(** ** The two versions of [seek] below the first key *)

(** X21: sought below the least key of a skiplist bucket, the two
    versions of [seek] differ: the one of [bolt.go] returns
    [errNotFound], the one of [postings.go] returns the entry of the
    least key and puts the cursor on it. *)
Theorem seek_below_first_key (s : boltSkiplistCursor) (k d p : N) :
  skiplist_bucket (sl_bkt s) → k < 2 ^ 64 → d < 2 ^ 64 → p < 2 ^ 64 →
  bolt.kv (sl_bkt s) !! encodeUint64 d = Some (encodeUint64 p) →
  k < d →
  (∀ d' v, d' < 2 ^ 64 → bolt.kv (sl_bkt s) !! encodeUint64 d' = Some v → d ≤ d') →
  bolt_go_cursor.seek s k = Ret (with_cursor s None, (0, 0, Some errNotFound))
  ∧ postings_go.seek s k = Ret (with_cursor s (Some (encodeUint64 d)), (d, p, None)).
Proof.
  intros Hwf Hk Hd Hp Hkv Hlt Hmin. split.
  - unfold bolt_go_cursor.seek.
    pose proof (entries_head_filter (sl_bkt s)
                  (λ e, bytes_le (encodeUint64 k) e.1)) as HS.
    unfold bolt.Seek, bolt.at_entry.
    destruct (head (filter _ (bolt.entries (sl_bkt s)))) as [[k1 v1]|].
    + destruct HS as (Hkv1 & Hge1 & Hmin1).
      destruct (skiplist_bucket_entry _ _ _ Hwf Hkv1)
        as (d1 & p1 & Hd1 & Hp1 & -> & -> & Ed1 & Ep1).
      cbn [fmap option_fmap option_map fst]. rewrite Ed1, Ep1, !bind_Ret.
      pose proof (Hmin d1 _ Hd1 Hkv1).
      destruct (N.ltb_spec k d1); [|lia].
      pose proof (entries_last_filter (sl_bkt s)
                    (λ e, ¬ bytes_le (encodeUint64 d1) e.1)) as HP.
      unfold bolt.Prev, bolt.at_entry.
      destruct (last (filter _ (bolt.entries (sl_bkt s)))) as [[k0 v0]|]; [|done].
      exfalso. destruct HP as (Hkv0 & Hlt0 & _). cbn [fst] in Hlt0.
      destruct (skiplist_bucket_entry _ _ _ Hwf Hkv0)
        as (d0 & p0 & Hd0 & Hp0 & -> & -> & _).
      rewrite encodeUint64_le in Hlt0 by done.
      specialize (Hmin1 _ _ Hkv0). cbn [fst] in Hmin1.
      rewrite !encodeUint64_le in Hmin1 by done.
      pose proof (Hmin d0 _ Hd0 Hkv0). lia.
    + exfalso. specialize (HS _ _ Hkv). cbn [fst] in HS.
      rewrite encodeUint64_le in HS by done. lia.
  - apply seek_at_target; [done..|].
    split_and!; [done..|]. right. by split.
Qed.

Lemma seek_below_first_key_witness :
  bolt_go_cursor.seek
    {| sl_k := 7; sl_c := None;
       sl_bkt := {| bolt.kv := <[encodeUint64 5 := encodeUint64 11]> ∅;
                    bolt.sequence := 0 |} |} 3
  = Ret ({| sl_k := 7; sl_c := None;
            sl_bkt := {| bolt.kv := <[encodeUint64 5 := encodeUint64 11]> ∅;
                         bolt.sequence := 0 |} |}, (0, 0, Some errNotFound)).
Proof.
  refine (proj1 (seek_below_first_key
            {| sl_k := 7; sl_c := None;
               sl_bkt := {| bolt.kv := <[encodeUint64 5 := encodeUint64 11]> ∅;
                            bolt.sequence := 0 |} |} 3 5 11 _ _ _ _ _ _ _)).
  - cbn [sl_bkt].
    exact (skiplist_bucket_insert bolt.empty 5 11 skiplist_bucket_empty eq_refl eq_refl).
  - reflexivity.
  - reflexivity.
  - reflexivity.
  - reflexivity.
  - reflexivity.
  - intros d' v Hd' Hv. cbn [sl_bkt bolt.kv] in Hv.
    apply lookup_insert_Some in Hv as [[Heq _]|[_ Hv]].
    { apply encodeUint64_inj in Heq; [lia|reflexivity|done]. }
    by rewrite lookup_empty in Hv.
Defined.

(** ** [Next] before [Seek] *)

(** X22: [Next] on a freshly built [Merge] or [Intersect] of two list
    iterators, called before any [Seek], returns the ID 0 without error,
    whatever the lists hold: the values and errors of the node start
    as zero. *)
Theorem Next_before_Seek_returns_0 (l1 l2 : list N) (n : nat) :
  (∃ it', Next (S n) (Merge [newPlainListIterator l1; newPlainListIterator l2])
          = Ret (it', (0, None)))
  ∧ (∃ it', Next (S n) (Intersect [newPlainListIterator l1; newPlainListIterator l2])
            = Ret (it', (0, None))).
Proof.
  unfold Merge, Intersect, newPlainListIterator. cbn [foldl Next].
  rewrite !Next_plain. cbn [N.ltb N.compare].
  destruct (plainListIterator_Next_spec (sort.Sort l1) 0) as (i1 & [v1 e1] & -> & _).
  destruct (plainListIterator_Next_spec (sort.Sort l2) 0) as (i2 & [v2 e2] & -> & _).
  rewrite !bind_Ret. split; by eexists.
Qed.
